(** * Tango puzzle: grid store, rule validator and session controller

    A shallow embedding of the three JavaScript classes of the game core
    ([GridSystem], [RuleValidator], [GameManager]) together with the
    properties of the specification that are checked against them.

    Conventions of the embedding:
    - JavaScript objects mutated in place become explicit state passing:
      a method [m(args)] of a class with state [s] becomes a function
      returning the new state (and the returned value, when there is one).
    - Grid indices, sizes and times are integers ([Z]).  The numeric
      expressions of the puzzle generator that leave the integers
      ([size * 0.7], [random() * (i + 1)], ...) are evaluated in IEEE 754
      binary64 through [SpecFloat], as the JavaScript engine does.
    - [Date.now()] is an argument [now] of the operations that read the clock.
    - A thrown [TypeError] is the [None] of an option result. *)

From Stdlib Require Import ZArith Lia Bool.
From Stdlib Require Import Floats.SpecFloat.
From stdpp Require Import base option list list_numbers sorting strings pretty.

Local Open Scope Z_scope.

(** ** Cells, positions and constraints *)

(** The [value] of a cell: [null | 'orange' | 'moon']. *)
Inductive Value := Null | Orange | Moon.

#[global] Instance Value_eq_dec : EqDecision Value.
Proof. solve_decision. Defined.

(** A cell object [{ value, immutable, constraints: {} }]; the per-cell
    [constraints] object is created empty and never read or written again,
    so it carries no information and is left out. *)
Record Cell := mkCell { value : Value; immutable : bool }.

#[global] Instance Cell_eq_dec : EqDecision Cell.
Proof. solve_decision. Defined.

Record Position := mkPos { row : Z; col : Z }.

#[global] Instance Position_eq_dec : EqDecision Position.
Proof. solve_decision. Defined.

(** The [type] of a constraint: ['equal' | 'notequal']. *)
Inductive ConstraintType := equal | notequal.

#[global] Instance ConstraintType_eq_dec : EqDecision ConstraintType.
Proof. solve_decision. Defined.

Record Constraint := mkConstraint
  { cell1 : Position; cell2 : Position; ctype : ConstraintType }.

#[global] Instance Constraint_eq_dec : EqDecision Constraint.
Proof. solve_decision. Defined.

(** ** JavaScript [Map] with string keys

    A [Map] iterates in insertion order and [set] on a key that is present
    replaces the value where the key already stands. *)
Module JSMap.

Fixpoint set {V} (k : string) (v : V) (m : list (string * V)) : list (string * V) :=
  match m with
  | [] => [(k, v)]
  | (k', v') :: m' =>
      if bool_decide (k = k') then (k', v) :: m' else (k', v') :: set k v m'
  end.

Definition values {V} (m : list (string * V)) : list V := snd <$> m.

Definition keys {V} (m : list (string * V)) : list string := fst <$> m.

(** [new Map(entries)]: the entries are set one after the other. *)
Definition ofEntries {V} (entries : list (string * V)) : list (string * V) :=
  foldl (λ m entry, set entry.1 entry.2 m) [] entries.

End JSMap.

(** ** GridSystem *)
Module GridSystem.

Record t := mk
  { size : Z;
    grid : list (list Cell);
    constraints : list (string * Constraint) }.

Definition emptyCell : Cell := mkCell Null false.

(** [initializeGrid]: [size] rows of [size] fresh cells. *)
Definition initializeGrid (size : Z) : list (list Cell) :=
  (λ _, (λ _, emptyCell) <$> seqZ 0 size) <$> seqZ 0 size.

(** [new GridSystem(size)]. *)
Definition new (size : Z) : t :=
  {| size := size; grid := initializeGrid size; constraints := [] |}.

(** The read [this.grid[row][col]].  Every read of the source is either
    guarded by [isValidPosition] or made by a loop over [0 .. size-1]; on
    the grids the class builds ([wf] below) the cell exists.  Outside the
    grid, where JavaScript would throw, the read gives [emptyCell]. *)
Definition lookup (gr : list (list Cell)) (r c : Z) : option Cell :=
  if bool_decide (0 ≤ r) && bool_decide (0 ≤ c)
  then gr !! Z.to_nat r ≫= λ cells, cells !! Z.to_nat c
  else None.

Definition at_ (gr : list (list Cell)) (r c : Z) : Cell :=
  default emptyCell (lookup gr r c).

Definition cell (g : t) (r c : Z) : Cell := at_ (grid g) r c.

(** The in-place update of one field of [this.grid[row][col]]. *)
Definition update (f : Cell → Cell) (r c : Z) (gr : list (list Cell)) : list (list Cell) :=
  if bool_decide (0 ≤ r) && bool_decide (0 ≤ c)
  then alter (alter f (Z.to_nat c)) (Z.to_nat r) gr
  else gr.

Definition setValue (v : Value) (c : Cell) : Cell :=
  {| value := v; immutable := immutable c |}.

Definition isValidPosition (g : t) (r c : Z) : bool :=
  bool_decide (0 ≤ r) && bool_decide (r < size g) &&
  bool_decide (0 ≤ c) && bool_decide (c < size g).

Definition setCell (g : t) (r c : Z) (v : Value) : t * bool :=
  if isValidPosition g r c && negb (immutable (cell g r c)) then
    ({| size := size g;
        grid := update (setValue v) r c (grid g);
        constraints := constraints g |}, true)
  else (g, false).

Definition getCell (g : t) (r c : Z) : option Cell :=
  if isValidPosition g r c then Some (cell g r c) else None.

Definition setImmutable (g : t) (r c : Z) (v : Value) : t * bool :=
  if isValidPosition g r c then
    ({| size := size g;
        grid := update (λ _, mkCell v true) r c (grid g);
        constraints := constraints g |}, true)
  else (g, false).

(** The key [`${row1},${col1}-${row2},${col2}`]. *)
Definition constraintId (r1 c1 r2 c2 : Z) : string :=
  pretty r1 +:+ "," +:+ pretty c1 +:+ "-" +:+ pretty r2 +:+ "," +:+ pretty c2.

Definition addConstraint (g : t) (r1 c1 r2 c2 : Z) (ty : ConstraintType) : t * bool :=
  if isValidPosition g r1 c1 && isValidPosition g r2 c2 then
    ({| size := size g;
        grid := grid g;
        constraints :=
          JSMap.set (constraintId r1 c1 r2 c2)
            (mkConstraint (mkPos r1 c1) (mkPos r2 c2) ty) (constraints g) |}, true)
  else (g, false).

Definition getConstraints (g : t) : list Constraint := JSMap.values (constraints g).

(** [clear]: every cell that is not immutable gets the value [null]. *)
Definition clear (g : t) : t :=
  {| size := size g;
     grid :=
       foldl (λ gr r,
         foldl (λ gr c,
           if negb (immutable (at_ gr r c)) then update (setValue Null) r c gr else gr)
           gr (seqZ 0 (size g)))
         (grid g) (seqZ 0 (size g));
     constraints := constraints g |}.

(** [serialize()]: [{ size, grid, constraints }] with the entries of the
    map in iteration order; the grid is handed over as it is. *)
Record Serialized := mkSerialized
  { s_size : Z;
    s_grid : list (list Cell);
    s_constraints : list (string * Constraint) }.

Definition serialize (g : t) : Serialized :=
  {| s_size := size g; s_grid := grid g; s_constraints := constraints g |}.

Definition deserialize (data : Serialized) (g : t) : t :=
  {| size := s_size data;
     grid := s_grid data;
     constraints := JSMap.ofEntries (s_constraints data) |}.

(** The representation invariant of the class: a square grid of [size]
    rows and columns. *)
Definition wf_grid (n : Z) (gr : list (list Cell)) : Prop :=
  length gr = Z.to_nat n ∧ Forall (λ cells, length cells = Z.to_nat n) gr.

Definition wf (g : t) : Prop := wf_grid (size g) (grid g).

End GridSystem.

(** ** RuleValidator

    The validator holds a reference to the grid store it was built for and
    has no state of its own: its methods are functions of the store. *)
Module RuleValidator.

Import GridSystem.

(** The records pushed by [validateAdjacentLimits]:
    [{type: 'adjacent', direction: 'horizontal', row, startCol, endCol, value}]
    and [{type: 'adjacent', direction: 'vertical', col, startRow, endRow, value}]. *)
Inductive AdjacentError :=
  | AdjHorizontal (row startCol endCol : Z) (value : Value)
  | AdjVertical (col startRow endRow : Z) (value : Value).

#[global] Instance AdjacentError_eq_dec : EqDecision AdjacentError.
Proof. solve_decision. Defined.

Inductive BalanceDirection := BalRow | BalColumn.

#[global] Instance BalanceDirection_eq_dec : EqDecision BalanceDirection.
Proof. solve_decision. Defined.

(** [{type: 'balance', direction, index, orangeCount, moonCount, exceeded}]. *)
Record BalanceError := mkBalanceError
  { direction : BalanceDirection;
    index : Z;
    orangeCount : Z;
    moonCount : Z;
    exceeded : bool }.

#[global] Instance BalanceError_eq_dec : EqDecision BalanceError.
Proof. solve_decision. Defined.

(** [{type: 'constraint', constraintType, cell1, cell2, value1, value2}]. *)
Record ConstraintError := mkConstraintError
  { constraintType : ConstraintType;
    err_cell1 : Position;
    err_cell2 : Position;
    value1 : Value;
    value2 : Value }.

#[global] Instance ConstraintError_eq_dec : EqDecision ConstraintError.
Proof. solve_decision. Defined.

(** One round of the inner loop of [validateAdjacentLimits], at index [i]
    of the line read by [get]; the state is
    [(consecutiveCount, currentValue, errors)] and [mk i v] builds the
    record of the window that ends at [i]. *)
Definition adjacentStep (get : Z → Value) (mk : Z → Value → AdjacentError)
    (st : Z * Value * list AdjacentError) (i : Z) : Z * Value * list AdjacentError :=
  let '(consecutiveCount, currentValue, errors) := st in
  if bool_decide (get i = currentValue) && negb (bool_decide (currentValue = Null)) then
    let consecutiveCount := consecutiveCount + 1 in
    if bool_decide (consecutiveCount > 2)
    then (consecutiveCount, currentValue, errors ++ [mk i currentValue])
    else (consecutiveCount, currentValue, errors)
  else (1, get i, errors).

(** The body of one outer round: the scan of one line of [size] cells. *)
Definition scanLine (get : Z → Value) (mk : Z → Value → AdjacentError)
    (size : Z) (errors : list AdjacentError) : list AdjacentError :=
  snd (foldl (adjacentStep get mk) (1, get 0, errors) (seqZ 1 (size - 1))).

Definition validateAdjacentLimits (g : t) : list AdjacentError :=
  let errors := [] in
  (* Check horizontal adjacent limits *)
  let errors :=
    foldl (λ errors row,
      scanLine (λ col, value (cell g row col))
               (λ col v, AdjHorizontal row (col - 2) col v) (size g) errors)
      errors (seqZ 0 (size g)) in
  (* Check vertical adjacent limits *)
  foldl (λ errors col,
    scanLine (λ row, value (cell g row col))
             (λ row v, AdjVertical col (row - 2) row v) (size g) errors)
    errors (seqZ 0 (size g)).

(** [Math.ceil(size / 2)] for an integer [size]. *)
Definition ceilHalf (size : Z) : Z := - ((- size) / 2).

(** The counting loop over one line: [(orangeCount, moonCount, totalFilled)]. *)
Definition countStep (get : Z → Value) (st : Z * Z * Z) (i : Z) : Z * Z * Z :=
  let '(orangeCount, moonCount, totalFilled) := st in
  match get i with
  | Orange => (orangeCount + 1, moonCount, totalFilled + 1)
  | Moon => (orangeCount, moonCount + 1, totalFilled + 1)
  | Null => (orangeCount, moonCount, totalFilled)
  end.

Definition balanceLine (get : Z → Value) (dir : BalanceDirection) (idx size : Z)
    (errors : list BalanceError) : list BalanceError :=
  let '(orangeCount, moonCount, totalFilled) :=
    foldl (countStep get) (0, 0, 0) (seqZ 0 size) in
  let maxAllowed := ceilHalf size in
  if bool_decide (orangeCount > maxAllowed) || bool_decide (moonCount > maxAllowed)
  then errors ++ [mkBalanceError dir idx orangeCount moonCount true]
  else errors.

Definition validateBalance (g : t) : list BalanceError :=
  let errors := [] in
  (* Check row balance *)
  let errors :=
    foldl (λ errors row,
      balanceLine (λ col, value (cell g row col)) BalRow row (size g) errors)
      errors (seqZ 0 (size g)) in
  (* Check column balance *)
  foldl (λ errors col,
    balanceLine (λ row, value (cell g row col)) BalColumn col (size g) errors)
    errors (seqZ 0 (size g)).

Definition constraintStep (g : t) (errors : list ConstraintError) (c : Constraint)
    : list ConstraintError :=
  let c1 := cell g (row (cell1 c)) (col (cell1 c)) in
  let c2 := cell g (row (cell2 c)) (col (cell2 c)) in
  if negb (bool_decide (value c1 = Null)) && negb (bool_decide (value c2 = Null)) then
    let areEqual := bool_decide (value c1 = value c2) in
    if bool_decide (ctype c = equal) && negb areEqual then
      errors ++ [mkConstraintError equal (cell1 c) (cell2 c) (value c1) (value c2)]
    else if bool_decide (ctype c = notequal) && areEqual then
      errors ++ [mkConstraintError notequal (cell1 c) (cell2 c) (value c1) (value c2)]
    else errors
  else errors.

Definition validateConstraints (g : t) : list ConstraintError :=
  foldl (constraintStep g) [] (getConstraints g).

Record Validation := mkValidation
  { adjacentErrors : list AdjacentError;
    balanceErrors : list BalanceError;
    constraintErrors : list ConstraintError }.

Definition validateAll (g : t) : Validation :=
  {| adjacentErrors := validateAdjacentLimits g;
     balanceErrors := validateBalance g;
     constraintErrors := validateConstraints g |}.

Definition isValid (g : t) : bool :=
  let validation := validateAll g in
  bool_decide (length (adjacentErrors validation) = 0%nat) &&
  bool_decide (length (balanceErrors validation) = 0%nat) &&
  bool_decide (length (constraintErrors validation) = 0%nat).

Inductive ErrorType := adjacent | balance | constraint.

(** [{ row, col, type }]. *)
Record ErrorCell := mkErrorCell { e_row : Z; e_col : Z; e_type : ErrorType }.

Definition getErrorCells (g : t) : list ErrorCell :=
  let validation := validateAll g in
  let errorCells := [] in
  let errorCells :=
    foldl (λ errorCells error,
      match error with
      | AdjHorizontal row startCol endCol _ =>
          foldl (λ cells col, cells ++ [mkErrorCell row col adjacent]) errorCells
            (seqZ startCol (endCol - startCol + 1))
      | AdjVertical col startRow endRow _ =>
          foldl (λ cells row, cells ++ [mkErrorCell row col adjacent]) errorCells
            (seqZ startRow (endRow - startRow + 1))
      end) errorCells (adjacentErrors validation) in
  let errorCells :=
    foldl (λ errorCells error,
      match direction error with
      | BalRow =>
          foldl (λ cells col, cells ++ [mkErrorCell (index error) col balance]) errorCells
            (seqZ 0 (size g))
      | BalColumn =>
          foldl (λ cells row, cells ++ [mkErrorCell row (index error) balance]) errorCells
            (seqZ 0 (size g))
      end) errorCells (balanceErrors validation) in
  foldl (λ errorCells error,
    errorCells ++ [mkErrorCell (row (err_cell1 error)) (col (err_cell1 error)) constraint;
                   mkErrorCell (row (err_cell2 error)) (col (err_cell2 error)) constraint])
    errorCells (constraintErrors validation).

End RuleValidator.

(** ** JavaScript numbers

    A JavaScript number is an IEEE 754 binary64 value.  Integers below
    [2^53] are represented exactly, and sums, differences and products of
    integers that stay below [2^53] are computed exactly: such expressions
    are written in [Z].  The other expressions go through [SpecFloat]. *)
Module JSNumber.

Definition prec : Z := 53.
Definition emax : Z := 1024.

Definition of_Z (n : Z) : spec_float := binary_normalize prec emax n 0 false.
Definition mul : spec_float → spec_float → spec_float := SFmul prec emax.
Definition div : spec_float → spec_float → spec_float := SFdiv prec emax.

(** A decimal literal [n / d] of the source, correctly rounded. *)
Definition literal (n d : Z) : spec_float := div (of_Z n) (of_Z d).

(** [x > y]. *)
Definition gt (x y : spec_float) : bool := SFltb y x.

(** [Math.floor] of a finite number, as an integer (the generator only
    takes the floor of finite values; the other cases give [0]). *)
Definition floor (x : spec_float) : Z :=
  match x with
  | S754_finite s m e =>
      let n := if s then Z.neg m else Z.pos m in
      if bool_decide (0 ≤ e) then n * 2 ^ e else n / 2 ^ (- e)
  | _ => 0
  end.

(** [ToInt32]: the wrap-around to a signed 32-bit integer that the bit
    operators apply to their operands and to their result. *)
Definition toInt32 (n : Z) : Z := (n + 2 ^ 31) `mod` 2 ^ 32 - 2 ^ 31.

(** [a << k] and [a & b]. *)
Definition shl (a k : Z) : Z := toInt32 (Z.shiftl (toInt32 a) (Z.land k 31)).
Definition and (a b : Z) : Z := Z.land (toInt32 a) (toInt32 b).

(** [n.toString().padStart(2, '0')] for an integer [n]. *)
Definition pad2 (n : Z) : string :=
  let s := pretty n in
  if bool_decide (String.length s < 2)%nat then "0" +:+ s else s.

(** [l.slice(0, e)]: a negative [e] counts from the end of the array. *)
Definition slice0 {A} (l : list A) (e : Z) : list A :=
  let len := Z.of_nat (length l) in
  let e := if bool_decide (e < 0) then Z.max (len + e) 0 else Z.min e len in
  take (Z.to_nat e) l.

End JSNumber.

(** ** GameManager *)
Module GameManager.

(** [gameState]: ['ready' | 'playing' | 'completed' | 'paused']. *)
Inductive GameState := ready | playing | completed | paused.

#[global] Instance GameState_eq_dec : EqDecision GameState.
Proof. solve_decision. Defined.

Record Timer := mkTimer
  { startTime : option Z;      (* [null] or an instant *)
    elapsedTime : Z;
    isRunning : bool }.

(** A history entry [{ row, col, previousValue, newValue, timestamp }]. *)
Record MoveRecord := mkMove
  { m_row : Z;
    m_col : Z;
    previousValue : Value;
    newValue : Value;
    timestamp : Z }.

(** The snapshot [{ grid, constraints }] kept for [resetGame]. *)
Record PuzzleState := mkPuzzleState
  { ps_grid : list (list Cell);
    ps_constraints : list Constraint }.

(** The fields of [this].  [seed] is the seed string as its sequence of
    UTF-16 code units (what [charCodeAt] reads); [seedValue] is [None]
    while the field is still undefined.  The [ruleValidator] field always
    refers to the current [gridSystem] and has no state of its own. *)
Record t := mk
  { gridSystem : GridSystem.t;
    gameState : GameState;
    difficulty : string;
    seed : list Z;
    seedValue : option Z;
    timer : Timer;
    moveHistory : list MoveRecord;
    currentMoveIndex : Z;
    initialPuzzleState : option PuzzleState }.

Definition with_gridSystem (g : GridSystem.t) (m : t) : t :=
  mk g (gameState m) (difficulty m) (seed m) (seedValue m) (timer m)
     (moveHistory m) (currentMoveIndex m) (initialPuzzleState m).
Definition with_gameState (s : GameState) (m : t) : t :=
  mk (gridSystem m) s (difficulty m) (seed m) (seedValue m) (timer m)
     (moveHistory m) (currentMoveIndex m) (initialPuzzleState m).
Definition with_seedValue (v : option Z) (m : t) : t :=
  mk (gridSystem m) (gameState m) (difficulty m) (seed m) v (timer m)
     (moveHistory m) (currentMoveIndex m) (initialPuzzleState m).
Definition with_timer (tm : Timer) (m : t) : t :=
  mk (gridSystem m) (gameState m) (difficulty m) (seed m) (seedValue m) tm
     (moveHistory m) (currentMoveIndex m) (initialPuzzleState m).
Definition with_moveHistory (h : list MoveRecord) (m : t) : t :=
  mk (gridSystem m) (gameState m) (difficulty m) (seed m) (seedValue m) (timer m)
     h (currentMoveIndex m) (initialPuzzleState m).
Definition with_currentMoveIndex (i : Z) (m : t) : t :=
  mk (gridSystem m) (gameState m) (difficulty m) (seed m) (seedValue m) (timer m)
     (moveHistory m) i (initialPuzzleState m).
Definition with_initialPuzzleState (p : option PuzzleState) (m : t) : t :=
  mk (gridSystem m) (gameState m) (difficulty m) (seed m) (seedValue m) (timer m)
     (moveHistory m) (currentMoveIndex m) p.

(** *** The seeded generator *)

(** One round of the hash loop of [seedRandom]:
    [hash = ((hash << 5) - hash) + char; hash = hash & hash]. *)
Definition hashStep (hash char : Z) : Z :=
  let hash := (JSNumber.shl hash 5 - hash) + char in
  JSNumber.and hash hash.

Definition seedHash (seed : list Z) : Z := foldl hashStep 0 seed.

(** The recurrence of the closure: [(seedValue * 1664525 + 1013904223) % 2^32]. *)
Definition lcg (seedValue : Z) : Z :=
  (seedValue * 1664525 + 1013904223) `rem` 2 ^ 32.

(** What [seedRandom] returns: the number [0] for the empty seed (which is
    not callable), the generator closure otherwise. *)
Inductive RandomFn := HashNumber | Closure.

(** [seedRandom(seed)]: the value of [this.seedValue] afterwards and the
    returned value. *)
Definition seedRandom (seed : list Z) (m : t) : t * RandomFn :=
  if bool_decide (length seed = 0%nat) then (m, HashNumber)
  else (with_seedValue (Some (Z.abs (seedHash seed))) m, Closure).

(** Computations on [this] that may throw: [None] is a thrown [TypeError]. *)
Definition M (A : Type) : Type := t → option (A * t).

#[global] Instance M_ret : MRet M := λ A a m, Some (a, m).
#[global] Instance M_bind : MBind M :=
  λ A B k x m, match x m with Some (a, m') => k a m' | None => None end.

Definition throw {A} : M A := λ _, None.
Definition modify (f : t → t) : M unit := λ m, Some (tt, f m).

(** A [for] loop whose index runs through [l]. *)
Fixpoint forEach {A} (l : list A) (body : A → M unit) : M unit :=
  match l with
  | [] => mret tt
  | i :: l' => body i;; forEach l' body
  end.

(** A call [random()] of the value returned by [seedRandom]: calling the
    number throws; the closure advances [this.seedValue] and returns
    [this.seedValue / Math.pow(2, 32)]. *)
Definition call (random : RandomFn) : M spec_float :=
  λ m, match random with
       | HashNumber => None
       | Closure =>
           match seedValue m with
           | Some s =>
               let s' := lcg s in
               Some (JSNumber.div (JSNumber.of_Z s') (JSNumber.of_Z (2 ^ 32)),
                     with_seedValue (Some s') m)
           | None => None       (* the closure exists only once seedValue is set *)
           end
       end.

(** *** Puzzle generation *)

Definition prefilledCount (size : Z) (difficulty : string) : Z :=
  let cells := JSNumber.mul (JSNumber.of_Z size) (JSNumber.of_Z size) in
  if bool_decide (difficulty = "easy") then
    JSNumber.floor (JSNumber.mul cells (JSNumber.literal 4 10))
  else if bool_decide (difficulty = "medium") then
    JSNumber.floor (JSNumber.mul cells (JSNumber.literal 25 100))
  else
    JSNumber.floor (JSNumber.mul cells (JSNumber.literal 15 100)).

Definition constraintCount (size : Z) : Z :=
  JSNumber.floor (JSNumber.mul (JSNumber.of_Z size) (JSNumber.literal 7 10)).

(** The row-major list of all positions. *)
Definition allPositions (size : Z) : list Position :=
  foldl (λ positions row,
    foldl (λ positions col, positions ++ [mkPos row col]) positions (seqZ 0 size))
    [] (seqZ 0 size).

(** [[positions[i], positions[j]] = [positions[j], positions[i]]].  The
    shuffle only swaps indices [0 ≤ j ≤ i < length]. *)
Definition swap (i j : Z) (positions : list Position) : list Position :=
  match positions !! Z.to_nat i, positions !! Z.to_nat j with
  | Some pi, Some pj => <[Z.to_nat j := pi]> (<[Z.to_nat i := pj]> positions)
  | _, _ => positions
  end.

(** The indices of [for (let i = n - 1; i > 0; i--)]. *)
Definition downFrom (n : Z) : list Z := reverse (seqZ 1 (n - 1)).

Fixpoint shuffle (random : RandomFn) (idx : list Z) (positions : list Position)
    : M (list Position) :=
  match idx with
  | [] => mret positions
  | i :: idx' =>
      x ← call random;
      let j := JSNumber.floor (JSNumber.mul x (JSNumber.of_Z (i + 1))) in
      shuffle random idx' (swap i j positions)
  end.

Definition half : spec_float := JSNumber.literal 5 10.

Definition setImmutable (r c : Z) (v : Value) : M bool :=
  λ m, let '(g, ok) := GridSystem.setImmutable (gridSystem m) r c v in
       Some (ok, with_gridSystem g m).

Definition addConstraint (r1 c1 r2 c2 : Z) (ty : ConstraintType) : M bool :=
  λ m, let '(g, ok) := GridSystem.addConstraint (gridSystem m) r1 c1 r2 c2 ty in
       Some (ok, with_gridSystem g m).

Definition placeImmutable (random : RandomFn) (positions : list Position) (i : Z) : M unit :=
  match positions !! Z.to_nat i with
  | Some pos =>
      x ← call random;
      let value := if JSNumber.gt x half then Orange else Moon in
      setImmutable (row pos) (col pos) value;; mret tt
  | None => throw
  end.

Definition placeConstraint (random : RandomFn) (size : Z) (i : Z) : M unit :=
  x ← call random;
  let row := JSNumber.floor (JSNumber.mul x (JSNumber.of_Z size)) in
  x ← call random;
  let col := JSNumber.floor (JSNumber.mul x (JSNumber.of_Z (size - 1))) in
  x ← call random;
  let type := if JSNumber.gt x half then equal else notequal in
  x ← call random;
  if JSNumber.gt x half then
    (* Horizontal constraint *)
    addConstraint row col row (col + 1) type;; mret tt
  else
    (* Vertical constraint *)
    if bool_decide (row < size - 1) then
      addConstraint row col (row + 1) col type;; mret tt
    else mret tt.

Definition storeInitialPuzzleState (m : t) : t :=
  with_initialPuzzleState
    (Some {| ps_grid := GridSystem.grid (gridSystem m);
             ps_constraints := GridSystem.getConstraints (gridSystem m) |}) m.

Definition initializePuzzle : M unit :=
  λ m,
    let size := GridSystem.size (gridSystem m) in
    let '(m, random) := seedRandom (seed m) m in
    let prefilledCount := prefilledCount size (difficulty m) in
    let positions := allPositions size in
    (positions ← shuffle random (downFrom (Z.of_nat (length positions))) positions;
     forEach (seqZ 0 (Z.min prefilledCount (Z.of_nat (length positions))))
       (placeImmutable random positions);;
     forEach (seqZ 0 (constraintCount size)) (placeConstraint random size);;
     modify storeInitialPuzzleState) m.

Definition resetTimerValue : Timer :=
  {| startTime := None; elapsedTime := 0; isRunning := false |}.

(** [new GameManager(size, difficulty)], with the string that
    [generateSeed()] draws from [Math.random] as the argument [seed]. *)
Definition constructor (size : Z) (difficulty : string) (seed : list Z) : option t :=
  snd <$> initializePuzzle
    {| gridSystem := GridSystem.new size;
       gameState := ready;
       difficulty := difficulty;
       seed := seed;
       seedValue := None;
       timer := resetTimerValue;
       moveHistory := [];
       currentMoveIndex := -1;
       initialPuzzleState := None |}.


(** *** Lifecycle and timer *)

Definition startTimer (now : Z) (m : t) : t :=
  if negb (isRunning (timer m)) then
    with_timer {| startTime := Some (now - elapsedTime (timer m));
                  elapsedTime := elapsedTime (timer m);
                  isRunning := true |} m
  else m.

(** [Date.now() - this.timer.startTime]; a [null] start time counts as [0]. *)
Definition sinceStart (now : Z) (tm : Timer) : Z := now - default 0 (startTime tm).

Definition pauseTimer (now : Z) (m : t) : t :=
  if isRunning (timer m) then
    with_timer {| startTime := startTime (timer m);
                  elapsedTime := sinceStart now (timer m);
                  isRunning := false |} m
  else m.

Definition resetTimer (m : t) : t := with_timer resetTimerValue m.

Definition getElapsedTime (now : Z) (m : t) : Z :=
  if isRunning (timer m) then sinceStart now (timer m) else elapsedTime (timer m).

(** [formatTime(milliseconds)] for an integer number of milliseconds. *)
Definition formatTimeOf (time : Z) : string :=
  let totalSeconds := time / 1000 in
  let minutes := totalSeconds / 60 in
  let seconds := totalSeconds `rem` 60 in
  let centiseconds := (time `rem` 1000) / 10 in
  JSNumber.pad2 minutes +:+ ":" +:+ JSNumber.pad2 seconds +:+ "." +:+
  JSNumber.pad2 centiseconds.

Definition formatTime (now : Z) (milliseconds : option Z) (m : t) : string :=
  formatTimeOf (default (getElapsedTime now m) milliseconds).

Definition startGame (now : Z) (m : t) : t * bool :=
  if bool_decide (gameState m = ready) || bool_decide (gameState m = paused) then
    (startTimer now (with_gameState playing m), true)
  else (m, false).

Definition pauseGame (now : Z) (m : t) : t * bool :=
  if bool_decide (gameState m = playing) then
    (pauseTimer now (with_gameState paused m), true)
  else (m, false).

Definition clearMoveHistory (m : t) : t :=
  with_currentMoveIndex (-1) (with_moveHistory [] m).

(** The two assignments of the restore loop at one cell. *)
Definition restoreCell (initialGrid : list (list Cell)) (gr : list (list Cell)) (r c : Z)
    : list (list Cell) :=
  let initialCell := GridSystem.at_ initialGrid r c in
  GridSystem.update (λ _, mkCell (value initialCell) (immutable initialCell)) r c gr.

Definition restoreConstraint (cs : list (string * Constraint)) (c : Constraint)
    : list (string * Constraint) :=
  JSMap.set (GridSystem.constraintId (row (cell1 c)) (col (cell1 c))
                                     (row (cell2 c)) (col (cell2 c))) c cs.

Definition restoreInitialPuzzleState : M unit :=
  λ m,
    match initialPuzzleState m with
    | None =>
        (* Fallback: if no initial state stored, reinitialize *)
        initializePuzzle (with_gridSystem (GridSystem.clear (gridSystem m)) m)
    | Some initial =>
        let g := gridSystem m in
        let size := GridSystem.size g in
        let gr :=
          foldl (λ gr r, foldl (λ gr c, restoreCell (ps_grid initial) gr r c)
                               gr (seqZ 0 size))
                (GridSystem.grid g) (seqZ 0 size) in
        let cs := foldl restoreConstraint [] (ps_constraints initial) in
        Some (tt, with_gridSystem (GridSystem.mk size gr cs) m)
    end.

Definition resetGame : M unit :=
  λ m, restoreInitialPuzzleState
         (clearMoveHistory (resetTimer (with_gameState ready m))).

(** *** Completion *)

(** The double loop of [isGameCompleted] returns [false] at the first cell
    whose value is [null]; when there is none the validator decides. *)
Definition isGameCompleted (m : t) : bool :=
  let g := gridSystem m in
  if forallb (λ r,
       forallb (λ c, negb (bool_decide (value (GridSystem.cell g r c) = Null)))
               (seqZ 0 (GridSystem.size g)))
       (seqZ 0 (GridSystem.size g))
  then RuleValidator.isValid g
  else false.

Record Summary := mkSummary
  { s_completed : bool;
    s_time : Z;
    s_formattedTime : string;
    s_moves : Z;
    s_difficulty : string;
    s_size : Z;
    s_seed : list Z }.

Definition completeGame (now : Z) (m : t) : t * Summary :=
  let m := pauseTimer now (with_gameState completed m) in
  (m, {| s_completed := true;
         s_time := getElapsedTime now m;
         s_formattedTime := formatTime now None m;
         s_moves := Z.of_nat (length (moveHistory m));
         s_difficulty := difficulty m;
         s_size := GridSystem.size (gridSystem m);
         s_seed := seed m |}).

(** *** Moves and history *)

Definition recordMove (now : Z) (r c : Z) (previousValue newValue : Value) (m : t) : t :=
  let m := with_moveHistory
             (JSNumber.slice0 (moveHistory m) (currentMoveIndex m + 1)) m in
  let m := with_moveHistory
             (moveHistory m ++ [mkMove r c previousValue newValue now]) m in
  with_currentMoveIndex (currentMoveIndex m + 1) m.

(** What [makeMove] returns: [{ success: true, gameState, isValid, errors,
    validation }] or [{ success: false, reason }]. *)
Inductive MoveResult :=
  | MoveDone (gameState : GameState) (isValid : bool)
             (errors : list RuleValidator.ErrorCell)
             (validation : RuleValidator.Validation)
  | MoveRefused (reason : string).

Definition makeMove (now : Z) (r c : Z) (v : Value) (m : t) : t * MoveResult :=
  if negb (bool_decide (gameState m = playing)) && negb (bool_decide (gameState m = ready))
  then (m, MoveRefused "Game not active")
  else
    let m := if bool_decide (gameState m = ready) then fst (startGame now m) else m in
    (* [getCell(row, col)?.value]: undefined outside the grid, where the
       write below fails and the value is not used *)
    let previousValue :=
      from_option value Null (GridSystem.getCell (gridSystem m) r c) in
    let '(g, success) := GridSystem.setCell (gridSystem m) r c v in
    let m := with_gridSystem g m in
    if success then
      let m := recordMove now r c previousValue v m in
      let m := if isGameCompleted m then fst (completeGame now m) else m in
      (m, MoveDone (gameState m)
                   (RuleValidator.isValid (gridSystem m))
                   (RuleValidator.getErrorCells (gridSystem m))
                   (RuleValidator.validateAll (gridSystem m)))
    else (m, MoveRefused "Invalid move").

(** What [undo] and [redo] return: [{ success: true, move, canUndo,
    canRedo }] or [{ success: false, reason }]. *)
Inductive HistoryResult :=
  | HistoryDone (move : MoveRecord) (canUndo canRedo : bool)
  | HistoryRefused (reason : string).

(** [this.moveHistory[i]]; reading a field of the [undefined] found outside
    the array throws. *)
Definition moveAt (m : t) (i : Z) : option MoveRecord :=
  if bool_decide (0 ≤ i) then moveHistory m !! Z.to_nat i else None.

Definition canUndoNow (m : t) : bool := bool_decide (0 ≤ currentMoveIndex m).
Definition canRedoNow (m : t) : bool :=
  bool_decide (currentMoveIndex m < Z.of_nat (length (moveHistory m)) - 1).

Definition undo (m : t) : option (t * HistoryResult) :=
  if bool_decide (0 ≤ currentMoveIndex m) then
    move ← moveAt m (currentMoveIndex m);
    let '(g, success) :=
      GridSystem.setCell (gridSystem m) (m_row move) (m_col move) (previousValue move) in
    let m := with_gridSystem g m in
    if success then
      let m := with_currentMoveIndex (currentMoveIndex m - 1) m in
      Some (m, HistoryDone move (canUndoNow m) (canRedoNow m))
    else Some (m, HistoryRefused "No moves to undo")
  else Some (m, HistoryRefused "No moves to undo").

Definition redo (m : t) : option (t * HistoryResult) :=
  if bool_decide (currentMoveIndex m < Z.of_nat (length (moveHistory m)) - 1) then
    let m := with_currentMoveIndex (currentMoveIndex m + 1) m in
    move ← moveAt m (currentMoveIndex m);
    let '(g, success) :=
      GridSystem.setCell (gridSystem m) (m_row move) (m_col move) (newValue move) in
    let m := with_gridSystem g m in
    if success then Some (m, HistoryDone move (canUndoNow m) (canRedoNow m))
    else Some (m, HistoryRefused "No moves to redo")
  else Some (m, HistoryRefused "No moves to redo").

(** *** A new game *)

Definition with_difficulty (d : string) (m : t) : t :=
  mk (gridSystem m) (gameState m) d (seed m) (seedValue m) (timer m)
     (moveHistory m) (currentMoveIndex m) (initialPuzzleState m).
Definition with_seed (s : list Z) (m : t) : t :=
  mk (gridSystem m) (gameState m) (difficulty m) s (seedValue m) (timer m)
     (moveHistory m) (currentMoveIndex m) (initialPuzzleState m).

(** [size || this.gridSystem.size] and [difficulty || this.difficulty]:
    [null], the number [0] and the empty string give way to the current
    value. *)
Definition sizeOr (size : option Z) (current : Z) : Z :=
  match size with
  | Some n => if bool_decide (n = 0) then current else n
  | None => current
  end.

Definition difficultyOr (difficulty' : option string) (current : string) : string :=
  match difficulty' with
  | Some d => if bool_decide (d = EmptyString) then current else d
  | None => current
  end.

Section NewGame.

(** The string methods of the engine that [newGame] applies to a custom
    seed, and the string that [generateSeed()] returns when it is called
    (it reads [Math.random]). *)
Variables trim toUpperCase : list Z → list Z.
Variable generatedSeed : list Z.

(** The seed that [newGame] installs: [customSeed.trim().toUpperCase()]
    when [customSeed && customSeed.trim()] holds (neither [null] nor an
    empty string), the generated seed otherwise. *)
Definition chosenSeed (customSeed : option (list Z)) : list Z :=
  match customSeed with
  | Some s =>
      if negb (bool_decide (length s = 0%nat)) &&
         negb (bool_decide (length (trim s) = 0%nat))
      then toUpperCase (trim s)
      else generatedSeed
  | None => generatedSeed
  end.

(** [newGame(size, difficulty, customSeed)]; a [null] argument is [None]. *)
Definition newGame (size : option Z) (difficulty' : option string)
    (customSeed : option (list Z)) : M unit :=
  λ m,
    let m := with_gridSystem
               (GridSystem.new (sizeOr size (GridSystem.size (gridSystem m)))) m in
    let m := with_difficulty (difficultyOr difficulty' (difficulty m)) m in
    let m := with_seed (chosenSeed customSeed) m in
    let m := with_gameState ready m in
    let m := resetTimer m in
    let m := clearMoveHistory m in
    initializePuzzle m.

End NewGame.

(** *** Saving and loading *)

(** What [serialize()] returns: [{ gridState, gameState, difficulty, seed,
    timer, moveHistory, currentMoveIndex }]. *)
Record Saved := mkSaved
  { sv_gridState : GridSystem.Serialized;
    sv_gameState : GameState;
    sv_difficulty : string;
    sv_seed : list Z;
    sv_timer : Timer;
    sv_moveHistory : list MoveRecord;
    sv_currentMoveIndex : Z }.

Definition serialize (m : t) : Saved :=
  {| sv_gridState := GridSystem.serialize (gridSystem m);
     sv_gameState := gameState m;
     sv_difficulty := difficulty m;
     sv_seed := seed m;
     sv_timer := timer m;
     sv_moveHistory := moveHistory m;
     sv_currentMoveIndex := currentMoveIndex m |}.

(** [deserialize(data)] assigns the seven saved fields; [this.seedValue]
    and [this.initialPuzzleState] are not assigned. *)
Definition deserialize (data : Saved) (m : t) : t :=
  {| gridSystem := GridSystem.deserialize (sv_gridState data) (gridSystem m);
     gameState := sv_gameState data;
     difficulty := sv_difficulty data;
     seed := sv_seed data;
     seedValue := seedValue m;
     timer := sv_timer data;
     moveHistory := sv_moveHistory data;
     currentMoveIndex := sv_currentMoveIndex data;
     initialPuzzleState := initialPuzzleState m |}.

(** *** Hints *)

Definition isAt (p : Position) (r c : Z) : bool :=
  bool_decide (row p = r) && bool_decide (col p = c).

(** The loop of [calculateHint(row, col)] over the constraints still to
    visit.  [Some None] is the returned [null]; [None] is the [TypeError]
    of reading [.value] of the [null] that [getCell] returns for a position
    outside the grid. *)
Fixpoint calculateHintIn (g : GridSystem.t) (r c : Z) (constraints : list Constraint)
    : option (option Value) :=
  match constraints with
  | [] => Some None
  | constraint :: rest =>
      if isAt (cell1 constraint) r c || isAt (cell2 constraint) r c then
        let otherCell :=
          if isAt (cell1 constraint) r c then cell2 constraint else cell1 constraint in
        match GridSystem.getCell g (row otherCell) (col otherCell) with
        | None => None
        | Some other =>
            let otherValue := value other in
            if negb (bool_decide (otherValue = Null)) then
              match ctype constraint with
              | equal => Some (Some otherValue)
              | notequal =>
                  Some (Some (if bool_decide (otherValue = Orange) then Moon else Orange))
              end
            else calculateHintIn g r c rest
        end
      else calculateHintIn g r c rest
  end.

Definition calculateHint (m : t) (r c : Z) : option (option Value) :=
  calculateHintIn (gridSystem m) r c (GridSystem.getConstraints (gridSystem m)).

(** What [getHint] returns: [{ success: true, row, col, suggestedValue,
    reason }] or [{ success: false, reason }]. *)
Inductive HintResult :=
  | HintFound (row col : Z) (suggestedValue : Value) (reason : string)
  | HintRefused (reason : string).

(** The cells in the order in which the double loop of [getHint] visits them. *)
Definition scanOrder (size : Z) : list (Z * Z) :=
  r ← seqZ 0 size; c ← seqZ 0 size; [(r, c)].

(** The double loop of [getHint] from the cells still to visit; it returns
    at the first cell for which [calculateHint] gives a value ([if (hint)]:
    [null] is not one). *)
Fixpoint hintScan (m : t) (cells : list (Z * Z)) : option HintResult :=
  match cells with
  | [] => Some (HintRefused "No obvious hints available")
  | (r, c) :: rest =>
      let cell := GridSystem.cell (gridSystem m) r c in
      if bool_decide (value cell = Null) && negb (immutable cell) then
        match calculateHint m r c with
        | None => None
        | Some (Some hint) =>
            if negb (bool_decide (hint = Null))
            then Some (HintFound r c hint "Based on current constraints")
            else hintScan m rest
        | Some None => hintScan m rest
        end
      else hintScan m rest
  end.

Definition getHint (m : t) : option HintResult :=
  if negb (bool_decide (gameState m = playing)) then Some (HintRefused "Game not active")
  else hintScan m (scanOrder (GridSystem.size (gridSystem m))).

End GameManager.

(** * Specification vocabulary *)

(** A sequence of [setCell] calls, each given as [(row, col, value)]. *)
Definition setCells (g : GridSystem.t) (calls : list (Z * Z * Value)) : GridSystem.t :=
  foldl (λ g call, fst (GridSystem.setCell g call.1.1 call.1.2 call.2)) g calls.

(** The seed string with the given ASCII characters. *)
Definition codeUnits (s : string) : list Z :=
  (λ a, Z.of_N (Ascii.N_of_ascii a)) <$> String.list_ascii_of_string s.

(** A 2 x 2 grid whose top-left cell is the immutable moon. *)
Definition grid2_moon : GridSystem.t :=
  fst (GridSystem.setImmutable (GridSystem.new 2) 0 0 Moon).

(** The lines of a grid, as functions from the index in the line to the
    value found there. *)
Definition rowLine (g : GridSystem.t) (r : Z) : Z → Value :=
  λ c, value (GridSystem.cell g r c).
Definition colLine (g : GridSystem.t) (c : Z) : Z → Value :=
  λ r, value (GridSystem.cell g r c).

(** The run length at index [n] of a line: the number of cells of the block
    of equal non-empty values that ends at [n]; an empty cell, and the first
    cell of the line, make a block of one. *)
Fixpoint runLengthAt (line : Z → Value) (n : nat) : Z :=
  match n with
  | O => 1
  | S k =>
      if decide (line (Z.of_nat (S k)) = line (Z.of_nat k) ∧ line (Z.of_nat k) ≠ Null)
      then runLengthAt line k + 1
      else 1
  end.

Definition runLength (line : Z → Value) (i : Z) : Z := runLengthAt line (Z.to_nat i).

(** The indices of a line of [size] cells at which the run length exceeds 2,
    in increasing order. *)
Definition overlongAt (line : Z → Value) (size : Z) : list Z :=
  filter (λ i, runLength line i > 2) (seqZ 1 (size - 1)).

(** The windows [[i-2, i]] of a row, and of a column, one for each such index. *)
Definition horizontalWindows (g : GridSystem.t) (r : Z) : list RuleValidator.AdjacentError :=
  (λ c, RuleValidator.AdjHorizontal r (c - 2) c (rowLine g r c))
    <$> overlongAt (rowLine g r) (GridSystem.size g).
Definition verticalWindows (g : GridSystem.t) (c : Z) : list RuleValidator.AdjacentError :=
  (λ r, RuleValidator.AdjVertical c (r - 2) r (colLine g c r))
    <$> overlongAt (colLine g c) (GridSystem.size g).

(** [runFrom line s L v]: the [L] cells from index [s] on hold the non-empty
    value [v], and the run starts at [s] (no cell with [v] just before). *)
Definition runFrom (line : Z → Value) (s L : Z) (v : Value) : Prop :=
  v ≠ Null ∧ (∀ i, s ≤ i < s + L → line i = v) ∧ (s = 0 ∨ line (s - 1) ≠ v).

(** The records of row [r] (column [c]) whose window ends inside [lo .. hi-1]. *)
Definition endsInRow (r lo hi : Z) (e : RuleValidator.AdjacentError) : bool :=
  match e with
  | RuleValidator.AdjHorizontal r' _ endCol _ => bool_decide (r' = r ∧ lo ≤ endCol < hi)
  | RuleValidator.AdjVertical _ _ _ _ => false
  end.
Definition endsInCol (c lo hi : Z) (e : RuleValidator.AdjacentError) : bool :=
  match e with
  | RuleValidator.AdjHorizontal _ _ _ _ => false
  | RuleValidator.AdjVertical c' _ endRow _ => bool_decide (c' = c ∧ lo ≤ endRow < hi)
  end.

(** A 4 x 4 grid whose row 1 is [orange orange orange orange]. *)
Definition grid4_run : GridSystem.t :=
  setCells (GridSystem.new 4)
    [(1, 0, Orange); (1, 1, Orange); (1, 2, Orange); (1, 3, Orange)].

(** The number of cells with the value [v] among the [size] cells of a line. *)
Definition countIn (line : Z → Value) (size : Z) (v : Value) : Z :=
  Z.of_nat (length (filter (λ i, line i = v) (seqZ 0 size))).

(** The count of [v] in the line exceeds [ceil(size / 2)]. *)
Definition exceeds (line : Z → Value) (size : Z) (v : Value) : bool :=
  bool_decide (countIn line size v > RuleValidator.ceilHalf size).

(** The balance records about one row or column. *)
Definition recordsOfLine (dir : RuleValidator.BalanceDirection) (idx : Z)
    (errors : list RuleValidator.BalanceError) : list RuleValidator.BalanceError :=
  filter (λ e, RuleValidator.direction e = dir ∧ RuleValidator.index e = idx) errors.

(** What [validateBalance] pushes for row [r], and for column [c]: one
    record with both counts when either of them exceeds the cap. *)
Definition rowRecord (g : GridSystem.t) (r : Z) : list RuleValidator.BalanceError :=
  let line := rowLine g r in
  let size := GridSystem.size g in
  if exceeds line size Orange || exceeds line size Moon
  then [RuleValidator.mkBalanceError RuleValidator.BalRow r
          (countIn line size Orange) (countIn line size Moon) true]
  else [].

Definition colRecord (g : GridSystem.t) (c : Z) : list RuleValidator.BalanceError :=
  let line := colLine g c in
  let size := GridSystem.size g in
  if exceeds line size Orange || exceeds line size Moon
  then [RuleValidator.mkBalanceError RuleValidator.BalColumn c
          (countIn line size Orange) (countIn line size Moon) true]
  else [].

(** A 2 x 2 grid whose row 0 is [orange orange]. *)
Definition grid2_oranges : GridSystem.t :=
  setCells (GridSystem.new 2) [(0, 0, Orange); (0, 1, Orange)].

(** The calls a presentation layer makes on a session. *)
Inductive Op :=
  | OpStart (now : Z)
  | OpPause (now : Z)
  | OpReset
  | OpMove (now r c : Z) (v : Value)
  | OpUndo
  | OpRedo.

Definition run (op : Op) (m : GameManager.t) : option GameManager.t :=
  match op with
  | OpStart now => Some (GameManager.startGame now m).1
  | OpPause now => Some (GameManager.pauseGame now m).1
  | OpReset => snd <$> GameManager.resetGame m
  | OpMove now r c v => Some (GameManager.makeMove now r c v m).1
  | OpUndo => fst <$> GameManager.undo m
  | OpRedo => fst <$> GameManager.redo m
  end.

Fixpoint runAll (ops : list Op) (m : GameManager.t) : option GameManager.t :=
  match ops with
  | [] => Some m
  | op :: ops' => run op m ≫= runAll ops'
  end.

(** The sessions a caller can be in.  The constructor and [newGame] both
    install a fresh grid store, empty the history and then generate the
    puzzle, whatever the other fields hold; from there the session is
    driven by any calls that return. *)
Inductive reachable : GameManager.t → Prop :=
  | reachable_new size m0 m :
      GameManager.gridSystem m0 = GridSystem.new size →
      GameManager.moveHistory m0 = [] →
      GameManager.currentMoveIndex m0 = -1 →
      GameManager.initializePuzzle m0 = Some (tt, m) →
      reachable m
  | reachable_run op m m' :
      reachable m → run op m = Some m' → reachable m'.

(** The session [new GameManager(2, 'easy')] with the seed ["A"]: a grid
    with the immutable moon at (1, 1) and no constraint. *)
Definition sessionA : option GameManager.t :=
  GameManager.constructor 2 "easy" (codeUnits "A").

(** Three moves [A], [B], [C], two undos, then the move [D]. *)
Definition scenarioABCD : option GameManager.t :=
  sessionA ≫= runAll [OpMove 10 0 0 Orange; OpMove 20 0 1 Moon; OpMove 30 1 0 Moon;
                      OpUndo; OpUndo; OpMove 40 1 0 Orange].

(** The history kept by a session: what the grid looked like before the
    first recorded move, the moves made, and how they were applied. *)
Definition applyMove (gr : list (list Cell)) (mv : GameManager.MoveRecord)
    : list (list Cell) :=
  GridSystem.update (GridSystem.setValue (GameManager.newValue mv))
    (GameManager.m_row mv) (GameManager.m_col mv) gr.

Definition replay (base : list (list Cell)) (moves : list GameManager.MoveRecord)
    : list (list Cell) :=
  foldl applyMove base moves.

(** Every recorded move was made on a cell of the grid that is not
    immutable and remembers the value it replaced. *)
Fixpoint consistent (n : Z) (gr : list (list Cell)) (moves : list GameManager.MoveRecord)
    : Prop :=
  match moves with
  | [] => True
  | mv :: moves' =>
      (0 ≤ GameManager.m_row mv < n ∧ 0 ≤ GameManager.m_col mv < n ∧
       immutable (GridSystem.at_ gr (GameManager.m_row mv) (GameManager.m_col mv)) = false ∧
       GameManager.previousValue mv =
         value (GridSystem.at_ gr (GameManager.m_row mv) (GameManager.m_col mv))) ∧
      consistent n (applyMove gr mv) moves'
  end.

(** The invariant of the sessions: the grid is the replay of the moves up
    to the cursor. *)
Definition sessionInv (m : GameManager.t) : Prop :=
  let g := GameManager.gridSystem m in
  let n := GridSystem.size g in
  -1 ≤ GameManager.currentMoveIndex m < Z.of_nat (length (GameManager.moveHistory m)) ∧
  match GameManager.initialPuzzleState m with
  | Some initial => GridSystem.wf_grid n (GameManager.ps_grid initial)
  | None => True
  end ∧
  ∃ base,
    GridSystem.wf_grid n base ∧
    consistent n base (GameManager.moveHistory m) ∧
    GridSystem.grid g =
      replay base (take (Z.to_nat (GameManager.currentMoveIndex m + 1))
                        (GameManager.moveHistory m)).

(** A property of the session that a computation keeps whenever it returns. *)
Definition preserved {A} (P : GameManager.t → Prop) (x : GameManager.M A) : Prop :=
  ∀ m a m', P m → x m = Some (a, m') → P m'.

(** What generation leaves alone: the size of the grid and its shape, the
    history and the cursor. *)
Definition shapeIs (n : Z) (h : list GameManager.MoveRecord) (i : Z) (m : GameManager.t)
    : Prop :=
  GridSystem.size (GameManager.gridSystem m) = n ∧
  GridSystem.wf (GameManager.gridSystem m) ∧
  GameManager.moveHistory m = h ∧
  GameManager.currentMoveIndex m = i.

(** The fields of the session that the history invariant reads. *)
Definition core (m : GameManager.t) :=
  (GameManager.gridSystem m, GameManager.moveHistory m,
   GameManager.currentMoveIndex m, GameManager.initialPuzzleState m).

(** Two runs of a computation from sessions related by [R] both throw, or
    both return, with the same value and sessions related by [R']. *)
Definition related {A} (R R' : GameManager.t → GameManager.t → Prop)
    (x : GameManager.M A) : Prop :=
  ∀ m1 m2, R m1 m2 →
    match x m1, x m2 with
    | Some (a1, m1'), Some (a2, m2') => a1 = a2 ∧ R' m1' m2'
    | None, None => True
    | _, _ => False
    end.

(** What generation reads of a session once the generator is seeded: the
    grid store and, when [random] is the closure, the generator state. *)
Definition sameInputs (random : GameManager.RandomFn) (m1 m2 : GameManager.t) : Prop :=
  GameManager.gridSystem m1 = GameManager.gridSystem m2 ∧
  (random = GameManager.Closure → GameManager.seedValue m1 = GameManager.seedValue m2).

(** A computation that returns, with a value in [Q], and advances the
    generator by [k] draws. *)
Definition draws {A} (k : nat) (Q : A → Prop) (x : GameManager.M A) : Prop :=
  ∀ m s, GameManager.seedValue m = Some s →
    ∃ a m', x m = Some (a, m') ∧ Q a ∧
            GameManager.seedValue m' = Some (Nat.iter k GameManager.lcg s).

(** The number of calls of the generator during a generation. *)
Definition drawCount (size : Z) (difficulty : string) : nat :=
  let cells := Z.of_nat (length (GameManager.allPositions size)) in
  (Z.to_nat (cells - 1) +
   Z.to_nat (Z.min (GameManager.prefilledCount size difficulty) cells) +
   4 * Z.to_nat (GameManager.constraintCount size))%nat.

(** The immutable cells of a grid with their values, in row-major order. *)
Definition immutableCells (g : GridSystem.t) : list (Position * Value) :=
  omap (λ p, let c := GridSystem.cell g (row p) (col p) in
             if immutable c then Some (p, value c) else None)
       (GameManager.allPositions (GridSystem.size g)).

(** The session as the constructor has it just before generation. *)
Definition beforeGeneration (size : Z) (difficulty : string) (seed : list Z)
    : GameManager.t :=
  GameManager.mk (GridSystem.new size) GameManager.ready difficulty seed None
    GameManager.resetTimerValue [] (-1) None.

(** The same with the leftovers of an earlier game in the fields that
    generation does not reset. *)
Definition afterEarlierGame (size : Z) (difficulty : string) (seed : list Z)
    : GameManager.t :=
  GameManager.mk (GridSystem.new size) GameManager.completed difficulty seed (Some 12345)
    (GameManager.mkTimer (Some 100) 250 false)
    [GameManager.mkMove 0 0 Null Orange 7] 0
    (Some (GameManager.mkPuzzleState [] [])).

(** ** The three rules of the puzzle, as the validator reads them *)

(** No three cells in a row of the line hold the same symbol. *)
Definition noTriple (line : Z → Value) (size : Z) : Prop :=
  ∀ i, 2 ≤ i < size → line i ≠ Null → ¬ (line (i - 1) = line i ∧ line (i - 2) = line i).

(** Neither symbol fills more than [ceil(size / 2)] cells of the line. *)
Definition balanced (line : Z → Value) (size : Z) : Prop :=
  countIn line size Orange ≤ RuleValidator.ceilHalf size ∧
  countIn line size Moon ≤ RuleValidator.ceilHalf size.

(** The values found at the two cells of a constraint. *)
Definition valueAt (g : GridSystem.t) (p : Position) : Value :=
  value (GridSystem.cell g (row p) (col p)).

(** A constraint is violated when both its cells are filled and the values
    stand in the other relation. *)
Definition violated (g : GridSystem.t) (con : Constraint) : Prop :=
  valueAt g (cell1 con) ≠ Null ∧ valueAt g (cell2 con) ≠ Null ∧
  match ctype con with
  | equal => valueAt g (cell1 con) ≠ valueAt g (cell2 con)
  | notequal => valueAt g (cell1 con) = valueAt g (cell2 con)
  end.

#[global] Instance violated_dec g con : Decision (violated g con).
Proof. unfold violated. destruct (ctype con); apply _. Defined.

(** The record pushed for a violated constraint. *)
Definition constraintRecord (g : GridSystem.t) (con : Constraint)
    : RuleValidator.ConstraintError :=
  RuleValidator.mkConstraintError (ctype con) (cell1 con) (cell2 con)
    (valueAt g (cell1 con)) (valueAt g (cell2 con)).

Definition obeysRules (g : GridSystem.t) : Prop :=
  (∀ i, 0 ≤ i < GridSystem.size g →
     noTriple (rowLine g i) (GridSystem.size g) ∧
     noTriple (colLine g i) (GridSystem.size g) ∧
     balanced (rowLine g i) (GridSystem.size g) ∧
     balanced (colLine g i) (GridSystem.size g)) ∧
  (∀ con, con ∈ GridSystem.getConstraints g → ¬ violated g con).

(** The cells that [getErrorCells] pushes for one record of each kind. *)
Definition cellsOfAdjacent (e : RuleValidator.AdjacentError) : list RuleValidator.ErrorCell :=
  match e with
  | RuleValidator.AdjHorizontal row startCol endCol _ =>
      (λ col, RuleValidator.mkErrorCell row col RuleValidator.adjacent)
        <$> seqZ startCol (endCol - startCol + 1)
  | RuleValidator.AdjVertical col startRow endRow _ =>
      (λ row, RuleValidator.mkErrorCell row col RuleValidator.adjacent)
        <$> seqZ startRow (endRow - startRow + 1)
  end.

Definition cellsOfBalance (size : Z) (e : RuleValidator.BalanceError)
    : list RuleValidator.ErrorCell :=
  match RuleValidator.direction e with
  | RuleValidator.BalRow =>
      (λ col, RuleValidator.mkErrorCell (RuleValidator.index e) col RuleValidator.balance)
        <$> seqZ 0 size
  | RuleValidator.BalColumn =>
      (λ row, RuleValidator.mkErrorCell row (RuleValidator.index e) RuleValidator.balance)
        <$> seqZ 0 size
  end.

Definition cellsOfConstraint (e : RuleValidator.ConstraintError)
    : list RuleValidator.ErrorCell :=
  [RuleValidator.mkErrorCell (row (RuleValidator.err_cell1 e))
     (col (RuleValidator.err_cell1 e)) RuleValidator.constraint;
   RuleValidator.mkErrorCell (row (RuleValidator.err_cell2 e))
     (col (RuleValidator.err_cell2 e)) RuleValidator.constraint].

(** Index [j] of the line lies in a window of three equal symbols. *)
Definition inTriple (line : Z → Value) (size : Z) (j : Z) : Prop :=
  ∃ i, (2 ≤ i < size ∧ i - 2 ≤ j ≤ i) ∧
       line i ≠ Null ∧ line (i - 1) = line i ∧ line (i - 2) = line i.

(** ** Hints *)

Definition opposite (v : Value) : Value :=
  if bool_decide (v = Orange) then Moon else Orange.

(** Constraint [con] links the cell [(r, c)] to a filled cell of the grid
    and asks for the value [v] at [(r, c)]. *)
Definition suggests (g : GridSystem.t) (con : Constraint) (r c : Z) (v : Value) : Prop :=
  ∃ q, ((cell1 con = mkPos r c ∧ cell2 con = q) ∨ (cell2 con = mkPos r c ∧ cell1 con = q)) ∧
       GridSystem.isValidPosition g (row q) (col q) = true ∧
       valueAt g q ≠ Null ∧
       v = match ctype con with
           | equal => valueAt g q
           | notequal => opposite (valueAt g q)
           end.

(** The order in which the double loops visit the cells: row by row. *)
Definition visitedBefore (p q : Z * Z) : Prop :=
  p.1 < q.1 ∨ (p.1 = q.1 ∧ p.2 < q.2).

(** Both cells of every constraint are cells of the grid. *)
Definition constraintsInGrid (g : GridSystem.t) : Prop :=
  ∀ con, con ∈ GridSystem.getConstraints g →
    GridSystem.isValidPosition g (row (cell1 con)) (col (cell1 con)) = true ∧
    GridSystem.isValidPosition g (row (cell2 con)) (col (cell2 con)) = true.

(** The session [new GameManager(3, 'hard')] with the seed ["TEST1234"]
    after the move of an orange to (2, 1). *)
Definition hintSession : option GameManager.t :=
  GameManager.constructor 3 "hard" (codeUnits "TEST1234")
    ≫= runAll [OpMove 10 2 1 Orange].

(** ** The puzzle of a session *)

(** The constraint links a cell of the grid of size [n] to its right or
    lower neighbour. *)
Definition neighbourLink (n : Z) (con : Constraint) : Prop :=
  (0 ≤ row (cell1 con) < n ∧ 0 ≤ col (cell1 con) < n) ∧
  (0 ≤ row (cell2 con) < n ∧ 0 ≤ col (cell2 con) < n) ∧
  ((row (cell2 con) = row (cell1 con) ∧ col (cell2 con) = col (cell1 con) + 1) ∨
   (row (cell2 con) = row (cell1 con) + 1 ∧ col (cell2 con) = col (cell1 con))).

(** The key under which a constraint is stored. *)
Definition keyOf (con : Constraint) : string :=
  GridSystem.constraintId (row (cell1 con)) (col (cell1 con))
                          (row (cell2 con)) (col (cell2 con)).

(** The constraint map holds each constraint once, under its own key, and
    only links between neighbours. *)
Definition constraintsKept (g : GridSystem.t) : Prop :=
  NoDup (JSMap.keys (GridSystem.constraints g)) ∧
  Forall (λ kc, kc.1 = keyOf kc.2 ∧ neighbourLink (GridSystem.size g) kc.2)
         (GridSystem.constraints g).

(** Every cell is empty and free, or a given: an immutable symbol. *)
Definition givenOrEmpty (gr : list (list Cell)) : Prop :=
  ∀ r c, GridSystem.at_ gr r c = GridSystem.emptyCell ∨
         (immutable (GridSystem.at_ gr r c) = true ∧ value (GridSystem.at_ gr r c) ≠ Null).

(** What generation builds on a grid of size [n]. *)
Definition puzzleOn (n : Z) (m : GameManager.t) : Prop :=
  GridSystem.size (GameManager.gridSystem m) = n ∧
  GridSystem.wf (GameManager.gridSystem m) ∧
  constraintsKept (GameManager.gridSystem m) ∧
  givenOrEmpty (GridSystem.grid (GameManager.gridSystem m)).

(** The grid of the session is the grid [base] with the moves up to the
    cursor played on it. *)
Definition playedFrom (base : list (list Cell)) (m : GameManager.t) : Prop :=
  let g := GameManager.gridSystem m in
  let n := GridSystem.size g in
  -1 ≤ GameManager.currentMoveIndex m < Z.of_nat (length (GameManager.moveHistory m)) ∧
  GridSystem.wf_grid n base ∧
  consistent n base (GameManager.moveHistory m) ∧
  GridSystem.grid g =
    replay base (take (Z.to_nat (GameManager.currentMoveIndex m + 1))
                      (GameManager.moveHistory m)).

(** The invariant of the sessions about their puzzle: the snapshot taken
    at generation is the puzzle, and the grid is that puzzle with the
    moves up to the cursor played on it. *)
Definition puzzleInv (m : GameManager.t) : Prop :=
  constraintsKept (GameManager.gridSystem m) ∧
  ∃ ps, GameManager.initialPuzzleState m = Some ps ∧
        GameManager.ps_constraints ps = GridSystem.getConstraints (GameManager.gridSystem m) ∧
        givenOrEmpty (GameManager.ps_grid ps) ∧
        playedFrom (GameManager.ps_grid ps) m.

(** ** The life cycle of a session *)


(** A ready session is untouched, and the timer runs exactly while the
    game is being played. *)
Definition lifecycleInv (m : GameManager.t) : Prop :=
  (GameManager.gameState m = GameManager.ready →
     GameManager.timer m = GameManager.resetTimerValue ∧
     GameManager.moveHistory m = [] ∧ GameManager.currentMoveIndex m = -1) ∧
  (GameManager.isRunning (GameManager.timer m) = true ↔
     GameManager.gameState m = GameManager.playing) ∧
  (GameManager.isRunning (GameManager.timer m) = true →
     is_Some (GameManager.startTime (GameManager.timer m))).

(** [undo] or [redo] answered [{ success: true, ... }]. *)
Definition succeeded (res : option (GameManager.t * GameManager.HistoryResult)) : Prop :=
  ∃ m' mv canUndo canRedo, res = Some (m', GameManager.HistoryDone mv canUndo canRedo).

(** * Properties of the grid store *)
Section GridFacts.

Import GridSystem.

Implicit Types (gr : list (list Cell)) (g : GridSystem.t) (r c : Z) (f : Cell → Cell).

Lemma lookup_update gr f r c r' c' :
  lookup (update f r c gr) r' c' =
    if decide (r = r' ∧ c = c') then f <$> lookup gr r' c' else lookup gr r' c'.
Proof.
  unfold lookup, update.
  destruct (bool_decide (0 ≤ r') && bool_decide (0 ≤ c')) eqn:Hv'.
  2:{ by destruct (decide _). }
  apply andb_true_iff in Hv' as [Hr' Hc'].
  apply bool_decide_eq_true in Hr', Hc'.
  destruct (bool_decide (0 ≤ r) && bool_decide (0 ≤ c)) eqn:Hv.
  - apply andb_true_iff in Hv as [Hr Hc].
    apply bool_decide_eq_true in Hr, Hc.
    destruct (decide (r = r' ∧ c = c')) as [[-> ->]|Hne].
    + rewrite list_lookup_alter_eq.
      destruct (gr !! Z.to_nat r') as [cells|]; simpl; [|done].
      by rewrite list_lookup_alter_eq.
    + destruct (decide (r = r')) as [->|Hr''].
      * rewrite list_lookup_alter_eq.
        destruct (gr !! Z.to_nat r') as [cells|]; simpl; [|done].
        rewrite list_lookup_alter_ne; [done|]. intros ?; apply Hne; split; [done|lia].
      * rewrite list_lookup_alter_ne; [done|lia].
  - destruct (decide (r = r' ∧ c = c')) as [[-> ->]|Hne]; [|done].
    apply andb_false_iff in Hv as [Hv|Hv]; apply bool_decide_eq_false in Hv; lia.
Qed.

Lemma at_update_eq gr f r c :
  is_Some (lookup gr r c) → at_ (update f r c gr) r c = f (at_ gr r c).
Proof.
  intros [x Hx]. unfold at_. rewrite lookup_update, decide_True by done.
  by rewrite Hx.
Qed.

Lemma at_update_ne gr f r c r' c' :
  (r', c') ≠ (r, c) → at_ (update f r c gr) r' c' = at_ gr r' c'.
Proof.
  intros Hne. unfold at_. rewrite lookup_update, decide_False; [done|].
  intros [-> ->]. done.
Qed.

Lemma wf_grid_update n gr f r c : wf_grid n gr → wf_grid n (update f r c gr).
Proof.
  intros [Hlen Hrows]. unfold update.
  destruct (_ && _); [|done]. split.
  - by rewrite length_alter.
  - apply Forall_alter; [done|]. intros cells _ Hc. by rewrite length_alter.
Qed.

Lemma wf_grid_lookup n gr r c :
  wf_grid n gr → 0 ≤ r < n → 0 ≤ c < n → is_Some (lookup gr r c).
Proof.
  intros [Hlen Hrows] Hr Hc. unfold lookup.
  rewrite !bool_decide_eq_true_2 by lia. simpl.
  destruct (lookup_lt_is_Some_2 gr (Z.to_nat r)) as [cells Hcells]; [lia|].
  rewrite Hcells. simpl. apply lookup_lt_is_Some_2.
  rewrite Forall_lookup in Hrows. rewrite (Hrows _ _ Hcells). lia.
Qed.

Lemma isValidPosition_true g r c :
  isValidPosition g r c = true ↔ (0 ≤ r < size g) ∧ (0 ≤ c < size g).
Proof.
  unfold isValidPosition. rewrite !andb_true_iff, !bool_decide_eq_true. lia.
Qed.

Lemma setValue_id (x : Cell) : setValue (value x) x = x.
Proof. by destruct x. Qed.

Lemma update_id gr f r c :
  (∀ x, lookup gr r c = Some x → f x = x) → update f r c gr = gr.
Proof.
  intros Hf. unfold update. destruct (_ && _) eqn:Hv; [|done].
  apply list_eq. intros i.
  destruct (decide (i = Z.to_nat r)) as [->|Hi].
  - rewrite list_lookup_alter_eq.
    destruct (gr !! Z.to_nat r) as [cells|] eqn:Hcells; simpl; [|done].
    f_equal. apply list_eq. intros j.
    destruct (decide (j = Z.to_nat c)) as [->|Hj].
    + rewrite list_lookup_alter_eq.
      destruct (cells !! Z.to_nat c) as [x|] eqn:Hx; simpl; [|done].
      f_equal. apply Hf. unfold lookup. rewrite Hv, Hcells. simpl. done.
    + by rewrite list_lookup_alter_ne.
  - by rewrite list_lookup_alter_ne.
Qed.

Lemma update_update gr f f' r c :
  update f' r c (update f r c gr) = update (f' ∘ f) r c gr.
Proof.
  unfold update. destruct (_ && _); [|done].
  etrans; [apply list_alter_alter_eq|]. apply list_alter_ext; [|done].
  intros cells _. apply list_alter_alter_eq.
Qed.

(** [setCell] unfolded on its two outcomes. *)
Lemma setCell_ok g r c v :
  isValidPosition g r c = true → immutable (cell g r c) = false →
  setCell g r c v = (mk (size g) (update (setValue v) r c (grid g)) (constraints g), true).
Proof. intros Hv Hi. unfold setCell. by rewrite Hv, Hi. Qed.

Lemma setCell_refused g r c v :
  isValidPosition g r c = false ∨ immutable (cell g r c) = true →
  setCell g r c v = (g, false).
Proof.
  intros H. unfold setCell.
  destruct (isValidPosition g r c); [|done].
  destruct H as [? | ->]; done.
Qed.

Lemma setCell_written g r c v :
  (setCell g r c v).2 = true →
  (setCell g r c v).1 = mk (size g) (update (setValue v) r c (grid g)) (constraints g).
Proof. unfold setCell. by destruct (_ && _). Qed.

Lemma setCell_size g r c v : size (setCell g r c v).1 = size g.
Proof. unfold setCell. by destruct (_ && _). Qed.

Lemma setCell_constraints g r c v : constraints (setCell g r c v).1 = constraints g.
Proof. unfold setCell. by destruct (_ && _). Qed.

Lemma setCell_wf g r c v : wf g → wf (setCell g r c v).1.
Proof.
  unfold setCell, wf. destruct (_ && _); simpl; [|done]. apply wf_grid_update.
Qed.

Lemma setCell_immutable g r c v r' c' :
  immutable (cell (setCell g r c v).1 r' c') = immutable (cell g r' c').
Proof.
  unfold setCell. destruct (_ && _) eqn:Hok; simpl; [|done].
  unfold cell, at_. simpl. rewrite lookup_update.
  destruct (decide _) as [[-> ->]|]; [|done].
  by destruct (lookup (grid g) r' c').
Qed.

(** A [setCell] anywhere leaves the value of an immutable cell alone. *)
Lemma setCell_keeps_immutable g r c v r' c' :
  immutable (cell g r' c') = true → cell (setCell g r c v).1 r' c' = cell g r' c'.
Proof.
  intros Himm. unfold setCell.
  destruct (isValidPosition g r c && negb (immutable (cell g r c))) eqn:Hok; simpl; [|done].
  apply andb_true_iff in Hok as [_ Hmut]. apply negb_true_iff in Hmut.
  unfold cell. simpl. apply at_update_ne. intros [= -> ->]. congruence.
Qed.

Lemma setCells_keeps_immutable calls g r c :
  immutable (cell g r c) = true → cell (setCells g calls) r c = cell g r c.
Proof.
  revert g. induction calls as [|[[r' c'] v'] calls IH]; intros g Himm; [done|].
  unfold setCells in *. simpl. rewrite IH.
  - by apply setCell_keeps_immutable.
  - by rewrite setCell_immutable.
Qed.

End GridFacts.

(** C4. On a grid store, [setCell(row, col, value)] returns [true] exactly
    when the position is inside the grid and the cell there is not
    immutable; then the cell holds the new value and nothing else changes.
    Otherwise it returns [false] and the store is unchanged.  Hence an
    immutable cell keeps its value through every sequence of [setCell]
    calls, whatever their targets and values. *)
Theorem setCell_succeeds_iff_in_bounds_and_mutable
    (g : GridSystem.t) (r c : Z) (v : Value) :
  GridSystem.wf g →
  ((GridSystem.setCell g r c v).2 = true ↔
     (0 ≤ r < GridSystem.size g ∧ 0 ≤ c < GridSystem.size g) ∧
     immutable (GridSystem.cell g r c) = false) ∧
  ((GridSystem.setCell g r c v).2 = true →
     let g' := (GridSystem.setCell g r c v).1 in
     GridSystem.cell g' r c = mkCell v false ∧
     (∀ r' c', (r', c') ≠ (r, c) → GridSystem.cell g' r' c' = GridSystem.cell g r' c') ∧
     GridSystem.size g' = GridSystem.size g ∧
     GridSystem.constraints g' = GridSystem.constraints g) ∧
  ((GridSystem.setCell g r c v).2 = false → (GridSystem.setCell g r c v).1 = g) ∧
  (immutable (GridSystem.cell g r c) = true →
     ∀ calls, GridSystem.cell (setCells g calls) r c = GridSystem.cell g r c).
Proof.
  intros Hwf.
  assert (Hiff : (GridSystem.setCell g r c v).2 = true ↔
     (0 ≤ r < GridSystem.size g ∧ 0 ≤ c < GridSystem.size g) ∧
     immutable (GridSystem.cell g r c) = false).
  { unfold GridSystem.setCell.
    destruct (GridSystem.isValidPosition g r c) eqn:Hv; simpl.
    - apply isValidPosition_true in Hv.
      destruct (immutable (GridSystem.cell g r c)); simpl.
      + split; [done|]. by intros [_ ?].
      + split; [|done]. intros _. by split.
    - split; [done|]. intros [Hb _]. apply isValidPosition_true in Hb. congruence. }
  split; [exact Hiff|]. split; [|split].
  - intros Hok. apply Hiff in Hok as [Hb Hmut].
    apply isValidPosition_true in Hb as Hv.
    rewrite (setCell_ok _ _ _ _ Hv Hmut). simpl.
    unfold GridSystem.cell. simpl. split; [|split; [|done]].
    + rewrite at_update_eq by (eapply wf_grid_lookup; [exact Hwf|lia..]).
      unfold GridSystem.setValue. unfold GridSystem.cell in Hmut. by rewrite Hmut.
    + intros r' c' Hne. by apply at_update_ne.
  - unfold GridSystem.setCell. by destruct (_ && _).
  - intros Himm calls. by apply setCells_keeps_immutable.
Qed.

Lemma setCell_succeeds_iff_in_bounds_and_mutable_witness :
  GridSystem.wf grid2_moon ∧
  (GridSystem.setCell grid2_moon 0 0 Orange).1 = grid2_moon ∧
  value (GridSystem.cell
           (setCells grid2_moon [(0, 0, Orange); (0, 0, Null); (1, 1, Orange)]) 0 0) = Moon.
Proof.
  assert (Hwf : GridSystem.wf grid2_moon).
  { split; [reflexivity|]. repeat constructor. }
  destruct (setCell_succeeds_iff_in_bounds_and_mutable grid2_moon 0 0 Orange Hwf)
    as (_ & _ & Hfail & Hkeep).
  split; [exact Hwf|]. split.
  - apply Hfail. reflexivity.
  - rewrite Hkeep; reflexivity.
Defined.

(** * Properties of the rule validator *)
Section AdjacencyFacts.

Import GridSystem RuleValidator.

Lemma foldl_ext_eq {A B} (f f' : A → B → A) (l : list B) (a : A) :
  (∀ a x, f a x = f' a x) → foldl f a l = foldl f' a l.
Proof.
  intros Hf. revert a. induction l as [|x l IH]; intros a; simpl; [done|].
  by rewrite Hf, IH.
Qed.

Lemma foldl_append_bind {A B} (F : B → list A) (l : list B) (acc : list A) :
  foldl (λ acc x, acc ++ F x) acc l = acc ++ (l ≫= F).
Proof.
  revert acc. induction l as [|x l IH]; intros acc; simpl.
  - by rewrite app_nil_r.
  - by rewrite IH, app_assoc.
Qed.

Lemma runLength_succ line (k : nat) :
  runLength line (1 + Z.of_nat k) =
    if decide (line (1 + Z.of_nat k) = line (Z.of_nat k) ∧ line (Z.of_nat k) ≠ Null)
    then runLength line (Z.of_nat k) + 1 else 1.
Proof.
  unfold runLength. replace (Z.to_nat (1 + Z.of_nat k)) with (S k) by lia.
  rewrite Nat2Z.id. simpl runLengthAt.
  replace (Z.of_nat (S k)) with (1 + Z.of_nat k) by lia. done.
Qed.

Lemma runLength_pos line (n : nat) : 1 ≤ runLengthAt line n.
Proof. induction n as [|k IH]; simpl; [lia|]. destruct (decide _); lia. Qed.

(** The state of the scan after the indices [1 .. k] of the line. *)
Lemma scan_state get mk errs (k : nat) :
  foldl (adjacentStep get mk) (1, get 0, errs) (seqZ 1 (Z.of_nat k)) =
    (runLength get (Z.of_nat k), get (Z.of_nat k),
     errs ++ ((λ i, mk i (get i))
                <$> filter (λ i, runLength get i > 2) (seqZ 1 (Z.of_nat k)))).
Proof.
  induction k as [|k IH].
  - simpl. by rewrite app_nil_r.
  - rewrite seqZ_S, foldl_app, IH. simpl foldl.
    rewrite filter_app, fmap_app, app_assoc. unfold adjacentStep.
    replace (Z.of_nat (S k)) with (1 + Z.of_nat k) by lia.
    rewrite filter_cons, filter_nil, (runLength_succ get k).
    destruct (decide (get (1 + Z.of_nat k) = get (Z.of_nat k) ∧ get (Z.of_nat k) ≠ Null))
      as [[Heq Hnn]|Hno].
    + rewrite bool_decide_eq_true_2 by done.
      rewrite (bool_decide_eq_false_2 (get (Z.of_nat k) = Null)) by done. simpl.
      destruct (decide (runLength get (Z.of_nat k) + 1 > 2)) as [Hgt|Hle].
      * rewrite bool_decide_eq_true_2 by done. simpl. by rewrite Heq.
      * rewrite bool_decide_eq_false_2 by done. simpl. by rewrite app_nil_r, Heq.
    + destruct (decide (1 > 2)) as [?|_]; [lia|]. simpl. rewrite app_nil_r.
      destruct (bool_decide (get (1 + Z.of_nat k) = get (Z.of_nat k))) eqn:He;
        simpl; [|done].
      apply bool_decide_eq_true in He.
      destruct (bool_decide (get (Z.of_nat k) = Null)) eqn:Hn; simpl; [done|].
      apply bool_decide_eq_false in Hn. by destruct Hno.
Qed.

Lemma scanLine_windows get mk size errs :
  scanLine get mk size errs = errs ++ ((λ i, mk i (get i)) <$> overlongAt get size).
Proof.
  unfold scanLine, overlongAt.
  destruct (decide (0 ≤ size - 1)) as [Hs|Hs].
  - rewrite <-(Z2Nat.id (size - 1)) by done. by rewrite scan_state.
  - rewrite seqZ_nil by lia. simpl. by rewrite app_nil_r.
Qed.

Lemma validateAdjacentLimits_eq g :
  validateAdjacentLimits g =
    (seqZ 0 (size g) ≫= horizontalWindows g) ++ (seqZ 0 (size g) ≫= verticalWindows g).
Proof.
  unfold validateAdjacentLimits.
  etrans; [apply foldl_ext_eq; intros; apply scanLine_windows|].
  rewrite (foldl_append_bind (verticalWindows g)). f_equal.
  etrans; [apply foldl_ext_eq; intros; apply scanLine_windows|].
  by rewrite (foldl_append_bind (horizontalWindows g)).
Qed.

(** The run length exceeds 2 exactly where three cells in a row hold the
    same non-empty value. *)
Lemma runLength_gt_2 line i :
  0 ≤ i →
  runLength line i > 2 ↔
    2 ≤ i ∧ line i ≠ Null ∧ line (i - 1) = line i ∧ line (i - 2) = line i.
Proof.
  intros Hi. rewrite <-(Z2Nat.id i) by done.
  destruct (Z.to_nat i) as [|[|k]].
  - unfold runLength. simpl. lia.
  - replace (Z.of_nat 1) with (1 + Z.of_nat 0) by lia.
    rewrite runLength_succ.
    unfold runLength. simpl. destruct (decide _); lia.
  - replace (Z.of_nat (S (S k))) with (1 + Z.of_nat (S k)) by lia.
    rewrite runLength_succ.
    replace (Z.of_nat (S k)) with (1 + Z.of_nat k) by lia.
    rewrite runLength_succ.
    replace (1 + (1 + Z.of_nat k) - 1) with (1 + Z.of_nat k) by lia.
    replace (1 + (1 + Z.of_nat k) - 2) with (Z.of_nat k) by lia.
    pose proof (runLength_pos line k) as Hpos.
    assert (runLength line (Z.of_nat k) = runLengthAt line k) as Hk
      by (unfold runLength; by rewrite Nat2Z.id).
    rewrite Hk.
    destruct (decide (line (1 + (1 + Z.of_nat k)) = line (1 + Z.of_nat k) ∧
                      line (1 + Z.of_nat k) ≠ Null)) as [[He1 Hn1]|Hno1].
    + destruct (decide (line (1 + Z.of_nat k) = line (Z.of_nat k) ∧
                        line (Z.of_nat k) ≠ Null)) as [[He2 Hn2]|Hno2].
      * split; [intros _|lia]. repeat split; [lia|congruence..].
      * split; [lia|]. intros (_ & Hn & Ha & Hb). destruct Hno2. split; congruence.
    + split; [lia|]. intros (_ & Hn & Ha & Hb). destruct Hno1. split; congruence.
Qed.

(** Filters over the shapes of lists the validator builds. *)
Lemma filter_none_in {A} (P : A → Prop) `{!∀ x, Decision (P x)} (l : list A) :
  (∀ x, x ∈ l → ¬ P x) → filter P l = [].
Proof.
  induction l as [|x l IH]; intros Hl; [done|].
  rewrite filter_cons_False by (apply Hl; left).
  apply IH. intros y Hy. apply Hl. by right.
Qed.

Lemma filter_all_in {A} (P : A → Prop) `{!∀ x, Decision (P x)} (l : list A) :
  (∀ x, x ∈ l → P x) → filter P l = l.
Proof.
  induction l as [|x l IH]; intros Hl; [done|].
  rewrite filter_cons_True by (apply Hl; left).
  f_equal. apply IH. intros y Hy. apply Hl. by right.
Qed.

Lemma filter_iff_in {A} (P Q : A → Prop)
    `{!∀ x, Decision (P x), !∀ x, Decision (Q x)} (l : list A) :
  (∀ x, x ∈ l → P x ↔ Q x) → filter P l = filter Q l.
Proof.
  induction l as [|x l IH]; intros Hl; [done|].
  rewrite !filter_cons, IH by (intros y Hy; apply Hl; by right).
  apply decide_ext, Hl. left.
Qed.

Lemma filter_fmap_comm {A B} (f : A → B) (P : B → Prop) `{!∀ y, Decision (P y)}
    (l : list A) :
  filter P (f <$> l) = f <$> filter (λ x, P (f x)) l.
Proof.
  induction l as [|x l IH]; [done|].
  rewrite fmap_cons, !filter_cons, IH. by destruct (decide (P (f x))).
Qed.

Lemma filter_bind_comm {A B} (F : A → list B) (P : B → Prop) `{!∀ y, Decision (P y)}
    (l : list A) :
  filter P (l ≫= F) = l ≫= (λ x, filter P (F x)).
Proof.
  induction l as [|x l IH]; [done|].
  by rewrite !bind_cons, filter_app, IH.
Qed.

Lemma bind_nil_in {A B} (F : A → list B) (l : list A) :
  (∀ x, x ∈ l → F x = []) → l ≫= F = [].
Proof.
  induction l as [|x l IH]; intros Hl; [done|].
  rewrite bind_cons, Hl, IH; [done| |left]. intros y Hy. apply Hl. by right.
Qed.

Lemma fmap_ext_in {A B} (f f' : A → B) (l : list A) :
  (∀ x, x ∈ l → f x = f' x) → f <$> l = f' <$> l.
Proof.
  induction l as [|x l IH]; intros Hl; [done|].
  rewrite !fmap_cons, Hl, IH; [done| |left]. intros y Hy. apply Hl. by right.
Qed.

(** Only the index [i] of [0 .. n-1] contributes. *)
Lemma bind_seqZ_single {B} (F : Z → list B) (n i : Z) :
  0 ≤ i < n → (∀ j, j ≠ i → F j = []) → seqZ 0 n ≫= F = F i.
Proof.
  intros Hi HF.
  replace n with (i + (1 + (n - i - 1))) by lia.
  rewrite seqZ_app, (seqZ_app _ 1) by lia.
  rewrite !bind_app, (bind_nil_in F (seqZ 0 i)), (bind_nil_in F (seqZ _ (n - i - 1))).
  - rewrite (seqZ_cons _ 1), seqZ_nil by lia. simpl. by rewrite !app_nil_r.
  - intros j [Hj _]%elem_of_seqZ. apply HF. lia.
  - intros j [_ Hj]%elem_of_seqZ. apply HF. lia.
Qed.

(** A predicate that cuts the interval [a .. b-1] out of [m .. m+n-1]. *)
Lemma filter_seqZ_range (P : Z → Prop) `{!∀ x, Decision (P x)} (m n a b : Z) :
  m ≤ a → a ≤ b → b ≤ m + n →
  (∀ i, m ≤ i < m + n → P i ↔ a ≤ i < b) →
  filter P (seqZ m n) = seqZ a (b - a).
Proof.
  intros Hma Hab Hbn HP.
  replace n with ((a - m) + ((b - a) + (m + n - b))) by lia.
  rewrite seqZ_app, seqZ_app, !filter_app by lia.
  replace (m + (a - m)) with a by lia.
  rewrite (filter_none_in P (seqZ m _)), (filter_all_in P (seqZ a _)),
    (filter_none_in P (seqZ (a + _) _)).
  - by rewrite app_nil_r.
  - intros i [? ?]%elem_of_seqZ. rewrite HP; lia.
  - intros i [? ?]%elem_of_seqZ. rewrite HP; lia.
  - intros i [? ?]%elem_of_seqZ. rewrite HP; lia.
Qed.

(** Inside a run that starts at [s], the run length at [i] is [i - s + 1]. *)
Lemma runLength_in_run_offset line s L v (k : nat) :
  0 ≤ s → runFrom line s L v → Z.of_nat k < L →
  runLength line (s + Z.of_nat k) = Z.of_nat k + 1.
Proof.
  intros Hs (Hv & Hrun & Hstart). induction k as [|k IH]; intros Hk.
  - replace (s + Z.of_nat 0) with s by lia.
    destruct (decide (s = 0)) as [->|Hs0]; [done|].
    destruct Hstart as [?|Hstart]; [done|].
    replace s with (1 + Z.of_nat (Z.to_nat (s - 1))) at 1 by lia.
    rewrite runLength_succ.
    replace (1 + Z.of_nat (Z.to_nat (s - 1))) with s by lia.
    replace (Z.of_nat (Z.to_nat (s - 1))) with (s - 1) by lia.
    rewrite decide_False; [lia|]. intros [He _]. rewrite Hrun in He by lia. done.
  - replace (s + Z.of_nat (S k)) with (1 + Z.of_nat (Z.to_nat (s + Z.of_nat k))) by lia.
    rewrite runLength_succ.
    replace (Z.of_nat (Z.to_nat (s + Z.of_nat k))) with (s + Z.of_nat k) by lia.
    rewrite decide_True.
    + rewrite IH by lia. lia.
    + rewrite !Hrun by lia. done.
Qed.

Lemma runLength_in_run line s L v i :
  0 ≤ s → runFrom line s L v → s ≤ i < s + L → runLength line i = i - s + 1.
Proof.
  intros Hs Hrun Hi.
  replace i with (s + Z.of_nat (Z.to_nat (i - s))) at 1 by lia.
  rewrite (runLength_in_run_offset line s L v) by (done || lia). lia.
Qed.

Lemma overlongAt_in_run line size s L v :
  0 ≤ s → s + L ≤ size → 3 ≤ L → runFrom line s L v →
  filter (λ i, s ≤ i < s + L) (overlongAt line size) = seqZ (s + 2) (L - 2).
Proof.
  intros Hs Hsize HL Hrun. unfold overlongAt. rewrite list_filter_filter.
  replace (L - 2) with (s + L - (s + 2)) by lia.
  apply filter_seqZ_range; [lia..|].
  intros i Hi. split.
  - intros [Hin Hgt]. rewrite (runLength_in_run _ _ _ _ _ Hs Hrun Hin) in Hgt. lia.
  - intros Hin. split; [lia|].
    rewrite (runLength_in_run line s L v) by (done || lia). lia.
Qed.

Lemma run_windows_fmap (line : Z → Value) (mk : Z → Z → Value → AdjacentError)
    s L v :
  (∀ i, s ≤ i < s + L → line i = v) →
  (λ i, mk (i - 2) i (line i)) <$> seqZ (s + 2) (L - 2) =
  (λ k, mk (s + k) (s + k + 2) v) <$> seqZ 0 (L - 2).
Proof.
  intros Hrun.
  replace (s + 2) with (s + 2 + 0) at 1 by lia.
  rewrite <-fmap_add_seqZ, <-list_fmap_compose.
  apply fmap_ext_in. intros k [? ?]%elem_of_seqZ. simpl.
  rewrite Hrun by lia. f_equal; lia.
Qed.

Lemma validateAdjacentLimits_row_run g r s L v :
  0 ≤ r < size g → 0 ≤ s → s + L ≤ size g → 3 ≤ L → runFrom (rowLine g r) s L v →
  filter (endsInRow r s (s + L)) (validateAdjacentLimits g) =
    (λ k, AdjHorizontal r (s + k) (s + k + 2) v) <$> seqZ 0 (L - 2).
Proof.
  intros Hr Hs Hsize HL Hrun.
  rewrite validateAdjacentLimits_eq, filter_app, !filter_bind_comm.
  rewrite (bind_nil_in (λ c, filter _ (verticalWindows g c))), app_nil_r.
  2:{ intros c _. apply filter_none_in.
      intros e (i & -> & _)%list_elem_of_fmap. simpl. tauto. }
  rewrite (bind_seqZ_single _ _ r); [|done|].
  2:{ intros r' Hr'. apply filter_none_in.
      intros e (i & -> & _)%list_elem_of_fmap. simpl.
      rewrite bool_decide_eq_false_2; [tauto|]. by intros [? _]. }
  unfold horizontalWindows. rewrite filter_fmap_comm.
  rewrite (filter_iff_in _ (λ i, s ≤ i < s + L)).
  2:{ intros i _. simpl. rewrite bool_decide_spec. split; [by intros [_ ?]|done]. }
  rewrite (overlongAt_in_run _ _ _ _ v) by done.
  apply (run_windows_fmap (rowLine g r) (AdjHorizontal r)). apply Hrun.
Qed.

Lemma validateAdjacentLimits_col_run g c s L v :
  0 ≤ c < size g → 0 ≤ s → s + L ≤ size g → 3 ≤ L → runFrom (colLine g c) s L v →
  filter (endsInCol c s (s + L)) (validateAdjacentLimits g) =
    (λ k, AdjVertical c (s + k) (s + k + 2) v) <$> seqZ 0 (L - 2).
Proof.
  intros Hc Hs Hsize HL Hrun.
  rewrite validateAdjacentLimits_eq, filter_app, !filter_bind_comm.
  rewrite (bind_nil_in (λ r, filter _ (horizontalWindows g r))), app_nil_l.
  2:{ intros r _. apply filter_none_in.
      intros e (i & -> & _)%list_elem_of_fmap. simpl. tauto. }
  rewrite (bind_seqZ_single _ _ c); [|done|].
  2:{ intros c' Hc'. apply filter_none_in.
      intros e (i & -> & _)%list_elem_of_fmap. simpl.
      rewrite bool_decide_eq_false_2; [tauto|]. by intros [? _]. }
  unfold verticalWindows. rewrite filter_fmap_comm.
  rewrite (filter_iff_in _ (λ i, s ≤ i < s + L)).
  2:{ intros i _. simpl. rewrite bool_decide_spec. split; [by intros [_ ?]|done]. }
  rewrite (overlongAt_in_run _ _ _ _ v) by done.
  apply (run_windows_fmap (colLine g c) (AdjVertical c)). apply Hrun.
Qed.

End AdjacencyFacts.

(** C3. [validateAdjacentLimits] scans every row from left to right, then
    every column from top to bottom, and reports one record at each index
    where the run length of a non-empty value exceeds 2, that is where
    three cells in a row hold the same non-empty value; the record cites
    the window [[index - 2, index]].  So a run of [L ≥ 3] cells yields the
    [L - 2] windows that start at its first [L - 2] cells: two overlapping
    windows for a run of four. *)
Theorem validateAdjacentLimits_reports_each_overlong_index (g : GridSystem.t) :
  RuleValidator.validateAdjacentLimits g =
    (seqZ 0 (GridSystem.size g) ≫= horizontalWindows g) ++
    (seqZ 0 (GridSystem.size g) ≫= verticalWindows g) ∧
  (∀ line i, 0 ≤ i →
     runLength line i > 2 ↔
       2 ≤ i ∧ line i ≠ Null ∧ line (i - 1) = line i ∧ line (i - 2) = line i) ∧
  (∀ r s L v,
     0 ≤ r < GridSystem.size g → 0 ≤ s → s + L ≤ GridSystem.size g → 3 ≤ L →
     runFrom (rowLine g r) s L v →
     let records :=
       filter (endsInRow r s (s + L)) (RuleValidator.validateAdjacentLimits g) in
     records = (λ k, RuleValidator.AdjHorizontal r (s + k) (s + k + 2) v) <$> seqZ 0 (L - 2) ∧
     Z.of_nat (length records) = L - 2) ∧
  (∀ c s L v,
     0 ≤ c < GridSystem.size g → 0 ≤ s → s + L ≤ GridSystem.size g → 3 ≤ L →
     runFrom (colLine g c) s L v →
     let records :=
       filter (endsInCol c s (s + L)) (RuleValidator.validateAdjacentLimits g) in
     records = (λ k, RuleValidator.AdjVertical c (s + k) (s + k + 2) v) <$> seqZ 0 (L - 2) ∧
     Z.of_nat (length records) = L - 2).
Proof.
  split; [apply validateAdjacentLimits_eq|].
  split; [apply runLength_gt_2|].
  split.
  - intros r s L v Hr Hs Hsize HL Hrun. simpl.
    rewrite (validateAdjacentLimits_row_run g r s L v) by done.
    split; [done|]. rewrite length_fmap, length_seqZ. lia.
  - intros c s L v Hc Hs Hsize HL Hrun. simpl.
    rewrite (validateAdjacentLimits_col_run g c s L v) by done.
    split; [done|]. rewrite length_fmap, length_seqZ. lia.
Qed.

Lemma validateAdjacentLimits_reports_each_overlong_index_witness :
  runFrom (rowLine grid4_run 1) 0 4 Orange ∧
  filter (endsInRow 1 0 4) (RuleValidator.validateAdjacentLimits grid4_run) =
    [RuleValidator.AdjHorizontal 1 0 2 Orange; RuleValidator.AdjHorizontal 1 1 3 Orange].
Proof.
  assert (Hrun : runFrom (rowLine grid4_run 1) 0 4 Orange).
  { split; [done|]. split; [|by left]. intros i Hi.
    assert (i = 0 ∨ i = 1 ∨ i = 2 ∨ i = 3) as [->|[->|[->| ->]]] by lia; reflexivity. }
  split; [exact Hrun|].
  destruct (validateAdjacentLimits_reports_each_overlong_index grid4_run)
    as (_ & _ & Hrows & _).
  destruct (Hrows 1 0 4 Orange) as [Heq _];
    [simpl; lia | lia | simpl; lia | lia | exact Hrun |].
  exact Heq.
Defined.

Section BalanceFacts.

Import GridSystem RuleValidator.

Lemma ceilHalf_bounds n : n ≤ 2 * ceilHalf n ≤ n + 1.
Proof. unfold ceilHalf. pose proof (Z.div_mod (- n) 2). pose proof (Z.mod_pos_bound (- n) 2). lia. Qed.

(** The counting loop counts. *)
Lemma count_state get (l : list Z) (st : Z * Z * Z) :
  foldl (countStep get) st l =
    (st.1.1 + Z.of_nat (length (filter (λ i, get i = Orange) l)),
     st.1.2 + Z.of_nat (length (filter (λ i, get i = Moon) l)),
     st.2 + Z.of_nat (length (filter (λ i, get i = Orange) l))
          + Z.of_nat (length (filter (λ i, get i = Moon) l))).
Proof.
  revert st. induction l as [|i l IH]; intros [[o m] t]; simpl.
  - f_equal; [f_equal|]; lia.
  - rewrite IH, !filter_cons. unfold countStep.
    destruct (get i) eqn:Hi; simpl.
    + done.
    + f_equal; [f_equal|]; lia.
    + f_equal; [f_equal|]; lia.
Qed.

Lemma count_disjoint (get : Z → Value) (l : list Z) :
  (length (filter (λ i, get i = Orange) l) +
   length (filter (λ i, get i = Moon) l) ≤ length l)%nat.
Proof.
  induction l as [|i l IH]; simpl; [lia|].
  rewrite !filter_cons. destruct (get i).
  - rewrite !decide_False by done. lia.
  - rewrite decide_True, decide_False by done. simpl. lia.
  - rewrite decide_False, decide_True by done. simpl. lia.
Qed.

(** The two counts of a line never exceed the cap together. *)
Lemma exceeds_exclusive line size :
  0 ≤ size → exceeds line size Orange && exceeds line size Moon = false.
Proof.
  intros Hsize. apply andb_false_iff. unfold exceeds, countIn.
  pose proof (count_disjoint line (seqZ 0 size)) as Hc.
  rewrite length_seqZ in Hc. pose proof (ceilHalf_bounds size).
  rewrite !bool_decide_eq_false. lia.
Qed.

Lemma balanceLine_eq get dir idx size errs :
  balanceLine get dir idx size errs =
    errs ++ (if exceeds get size Orange || exceeds get size Moon
             then [mkBalanceError dir idx (countIn get size Orange)
                                  (countIn get size Moon) true]
             else []).
Proof.
  unfold balanceLine. rewrite count_state. simpl.
  unfold exceeds, countIn.
  destruct (_ || _); [done|by rewrite app_nil_r].
Qed.

Lemma validateBalance_eq g :
  validateBalance g = (seqZ 0 (size g) ≫= rowRecord g) ++ (seqZ 0 (size g) ≫= colRecord g).
Proof.
  unfold validateBalance.
  etrans; [apply foldl_ext_eq; intros; apply balanceLine_eq|].
  rewrite (foldl_append_bind (colRecord g)). f_equal.
  etrans; [apply foldl_ext_eq; intros; apply balanceLine_eq|].
  by rewrite (foldl_append_bind (rowRecord g)).
Qed.

Lemma recordsOfLine_row g idx :
  0 ≤ idx < size g → recordsOfLine BalRow idx (validateBalance g) = rowRecord g idx.
Proof.
  intros Hidx. unfold recordsOfLine.
  rewrite validateBalance_eq, filter_app, !filter_bind_comm.
  rewrite (bind_nil_in (λ c, filter _ (colRecord g c))), app_nil_r.
  2:{ intros c _. unfold colRecord. destruct (_ || _); [|done].
      apply filter_none_in. intros e ->%list_elem_of_singleton. simpl. by intros [? _]. }
  rewrite (bind_seqZ_single _ _ idx); [|done|].
  2:{ intros r Hr. unfold rowRecord. destruct (_ || _); [|done].
      apply filter_none_in. intros e ->%list_elem_of_singleton. simpl. by intros [_ ?]. }
  unfold rowRecord. destruct (_ || _); [|done].
  by rewrite filter_cons_True.
Qed.

Lemma recordsOfLine_col g idx :
  0 ≤ idx < size g → recordsOfLine BalColumn idx (validateBalance g) = colRecord g idx.
Proof.
  intros Hidx. unfold recordsOfLine.
  rewrite validateBalance_eq, filter_app, !filter_bind_comm.
  rewrite (bind_nil_in (λ r, filter _ (rowRecord g r))), app_nil_l.
  2:{ intros r _. unfold rowRecord. destruct (_ || _); [|done].
      apply filter_none_in. intros e ->%list_elem_of_singleton. simpl. by intros [? _]. }
  rewrite (bind_seqZ_single _ _ idx); [|done|].
  2:{ intros c Hc. unfold colRecord. destruct (_ || _); [|done].
      apply filter_none_in. intros e ->%list_elem_of_singleton. simpl. by intros [_ ?]. }
  unfold colRecord. destruct (_ || _); [|done].
  by rewrite filter_cons_True.
Qed.

Lemma one_record_per_side line size (rec : BalanceError) :
  0 ≤ size →
  length (if exceeds line size Orange || exceeds line size Moon then [rec] else []) =
    (Nat.b2n (exceeds line size Orange) + Nat.b2n (exceeds line size Moon))%nat.
Proof.
  intros Hsize. pose proof (exceeds_exclusive line size Hsize).
  by destruct (exceeds line size Orange), (exceeds line size Moon).
Qed.

End BalanceFacts.

(** C2. For each row and each column inside the grid, [validateBalance]
    holds as many records about that line as there are symbols whose count
    in the line exceeds [ceil(size / 2)]: both counts are computed and both
    are compared with the cap.  A record carries the two counts of its
    line. *)
Theorem validateBalance_one_record_per_exceeded_side (g : GridSystem.t) (idx : Z) :
  0 ≤ idx < GridSystem.size g →
  (length (recordsOfLine RuleValidator.BalRow idx (RuleValidator.validateBalance g)) =
     Nat.b2n (exceeds (rowLine g idx) (GridSystem.size g) Orange) +
     Nat.b2n (exceeds (rowLine g idx) (GridSystem.size g) Moon))%nat ∧
  recordsOfLine RuleValidator.BalRow idx (RuleValidator.validateBalance g) = rowRecord g idx ∧
  (length (recordsOfLine RuleValidator.BalColumn idx (RuleValidator.validateBalance g)) =
     Nat.b2n (exceeds (colLine g idx) (GridSystem.size g) Orange) +
     Nat.b2n (exceeds (colLine g idx) (GridSystem.size g) Moon))%nat ∧
  recordsOfLine RuleValidator.BalColumn idx (RuleValidator.validateBalance g) = colRecord g idx.
Proof.
  intros Hidx.
  rewrite recordsOfLine_row, recordsOfLine_col by done.
  unfold rowRecord, colRecord.
  rewrite !one_record_per_side by lia. done.
Qed.

Lemma validateBalance_one_record_per_exceeded_side_witness :
  0 ≤ 0 < GridSystem.size grid2_oranges ∧
  recordsOfLine RuleValidator.BalRow 0 (RuleValidator.validateBalance grid2_oranges) =
    [RuleValidator.mkBalanceError RuleValidator.BalRow 0 2 0 true].
Proof.
  assert (H : 0 ≤ 0 < GridSystem.size grid2_oranges) by (simpl; lia).
  split; [exact H|].
  destruct (validateBalance_one_record_per_exceeded_side grid2_oranges 0 H)
    as (_ & Hrow & _).
  rewrite Hrow. reflexivity.
Defined.

(** No line gets two records: the counts of the two symbols in a line of
    [size] cells cannot both exceed [ceil(size / 2)]. *)
Lemma validateBalance_at_most_one_record_per_line (g : GridSystem.t) (idx : Z) :
  0 ≤ idx < GridSystem.size g →
  (length (recordsOfLine RuleValidator.BalRow idx (RuleValidator.validateBalance g)) ≤ 1)%nat ∧
  (length (recordsOfLine RuleValidator.BalColumn idx (RuleValidator.validateBalance g)) ≤ 1)%nat.
Proof.
  intros Hidx. rewrite recordsOfLine_row, recordsOfLine_col by done.
  unfold rowRecord, colRecord. split; destruct (_ || _); simpl; lia.
Qed.

(** * Properties of the session controller *)
Section SessionFacts.

Import GameManager.

Implicit Types (m : GameManager.t) (g : GridSystem.t) (r c now : Z) (v : Value).

Lemma forallb_seqZ (f : Z → bool) (n : Z) :
  forallb f (seqZ 0 n) = true ↔ ∀ i, 0 ≤ i < n → f i = true.
Proof.
  rewrite forallb_forall. split.
  - intros H i Hi. apply H, list_elem_of_In, elem_of_seqZ. lia.
  - intros H i Hi%list_elem_of_In%elem_of_seqZ. apply H. lia.
Qed.

Lemma isGameCompleted_true m :
  isGameCompleted m = true ↔
    (∀ r c, 0 ≤ r < GridSystem.size (gridSystem m) →
            0 ≤ c < GridSystem.size (gridSystem m) →
            value (GridSystem.cell (gridSystem m) r c) ≠ Null) ∧
    RuleValidator.isValid (gridSystem m) = true.
Proof.
  unfold isGameCompleted.
  destruct (forallb _ _) eqn:Hall.
  - rewrite forallb_seqZ in Hall. split; [|by intros [_ ?]].
    intros Hv. split; [|done]. intros r c Hr Hc.
    specialize (Hall r Hr). rewrite forallb_seqZ in Hall. specialize (Hall c Hc).
    by apply negb_true_iff, bool_decide_eq_false in Hall.
  - split; [done|]. intros [Hfull _].
    assert (forallb (λ r, forallb (λ c,
              negb (bool_decide (value (GridSystem.cell (gridSystem m) r c) = Null)))
              (seqZ 0 (GridSystem.size (gridSystem m))))
              (seqZ 0 (GridSystem.size (gridSystem m))) = true) as Hyes; [|congruence].
    apply forallb_seqZ. intros r Hr. apply forallb_seqZ. intros c Hc.
    apply negb_true_iff, bool_decide_eq_false. by apply Hfull.
Qed.

Lemma isGameCompleted_grid m m' :
  gridSystem m = gridSystem m' → isGameCompleted m = isGameCompleted m'.
Proof. unfold isGameCompleted. by intros ->. Qed.

Lemma startGame_grid now m : gridSystem (startGame now m).1 = gridSystem m.
Proof.
  unfold startGame, startTimer. destruct (_ || _); simpl; [|done].
  by destruct (negb _).
Qed.

(** [makeMove] on a session that is ready or playing, by the outcome of
    the write. *)
Lemma makeMove_refused now r c v m :
  gameState m = ready ∨ gameState m = playing →
  (GridSystem.setCell (gridSystem m) r c v).2 = false →
  makeMove now r c v m =
    ((if bool_decide (gameState m = ready) then (startGame now m).1 else m),
     MoveRefused "Invalid move").
Proof.
  intros Hst Hfail. unfold makeMove.
  assert (negb (bool_decide (gameState m = playing)) &&
          negb (bool_decide (gameState m = ready)) = false) as ->.
  { destruct Hst as [-> | ->]; done. }
  set (m0 := if bool_decide (gameState m = ready) then (startGame now m).1 else m).
  assert (gridSystem m0 = gridSystem m) as Hg.
  { unfold m0. destruct (bool_decide _); [apply startGame_grid|done]. }
  rewrite Hg.
  destruct (GridSystem.setCell (gridSystem m) r c v) as [g' ok] eqn:Hset.
  simpl in Hfail. subst ok.
  unfold GridSystem.setCell in Hset. destruct (_ && _); [done|].
  injection Hset as <-. rewrite <-Hg. by destruct m0.
Qed.

Lemma makeMove_done now r c v m :
  gameState m = ready ∨ gameState m = playing →
  (GridSystem.setCell (gridSystem m) r c v).2 = true →
  let m0 := if bool_decide (gameState m = ready) then (startGame now m).1 else m in
  let m1 :=
    recordMove now r c (value (GridSystem.cell (gridSystem m) r c)) v
      (with_gridSystem (GridSystem.setCell (gridSystem m) r c v).1 m0) in
  (makeMove now r c v m).1 =
    if isGameCompleted m1 then (completeGame now m1).1 else m1.
Proof.
  intros Hst Hok. simpl. unfold makeMove.
  assert (negb (bool_decide (gameState m = playing)) &&
          negb (bool_decide (gameState m = ready)) = false) as ->.
  { destruct Hst as [-> | ->]; done. }
  set (m0 := if bool_decide (gameState m = ready) then (startGame now m).1 else m).
  assert (gridSystem m0 = gridSystem m) as Hg.
  { unfold m0. destruct (bool_decide _); [apply startGame_grid|done]. }
  rewrite Hg.
  assert (GridSystem.getCell (gridSystem m) r c =
            Some (GridSystem.cell (gridSystem m) r c)) as ->.
  { unfold GridSystem.getCell. unfold GridSystem.setCell in Hok.
    destruct (GridSystem.isValidPosition _ _ _); done. }
  destruct (GridSystem.setCell (gridSystem m) r c v) as [g' ok] eqn:Hset.
  simpl in Hok. subst ok. simpl.
  by destruct (isGameCompleted _).
Qed.

Lemma recordMove_grid now r c pv v m :
  gridSystem (recordMove now r c pv v m) = gridSystem m.
Proof. done. Qed.

Lemma slice0_take {A} (l : list A) (e : Z) :
  0 ≤ e → JSNumber.slice0 l e = take (Z.to_nat e) l.
Proof.
  intros He. unfold JSNumber.slice0. rewrite bool_decide_eq_false_2 by lia.
  destruct (decide (e ≤ Z.of_nat (length l))).
  - by rewrite Z.min_l.
  - rewrite Z.min_r, !take_ge by lia. done.
Qed.

Lemma recordMove_history now r c pv v m :
  -1 ≤ currentMoveIndex m →
  moveHistory (recordMove now r c pv v m) =
    take (Z.to_nat (currentMoveIndex m + 1)) (moveHistory m) ++ [mkMove r c pv v now].
Proof. intros Hc. unfold recordMove. simpl. by rewrite slice0_take by lia. Qed.

Lemma completeGame_history now m :
  moveHistory (completeGame now m).1 = moveHistory m ∧
  currentMoveIndex (completeGame now m).1 = currentMoveIndex m ∧
  initialPuzzleState (completeGame now m).1 = initialPuzzleState m.
Proof. unfold completeGame, pauseTimer. simpl. by destruct (isRunning (timer m)). Qed.

Lemma startGame_history now m :
  moveHistory (startGame now m).1 = moveHistory m ∧
  currentMoveIndex (startGame now m).1 = currentMoveIndex m ∧
  initialPuzzleState (startGame now m).1 = initialPuzzleState m.
Proof.
  unfold startGame, startTimer. destruct (_ || _); simpl; [|done].
  by destruct (negb _).
Qed.

Lemma completeGame_state now m :
  gameState (completeGame now m).1 = completed ∧
  isRunning (timer (completeGame now m).1) = false ∧
  gridSystem (completeGame now m).1 = gridSystem m.
Proof.
  unfold completeGame, pauseTimer. simpl.
  destruct (isRunning (timer m)) eqn:Hrun; simpl; by rewrite ?Hrun.
Qed.

End SessionFacts.

(** C7. [isGameCompleted] is [false] as soon as one cell of the grid is
    empty, whatever the validator says, and [true] exactly when no cell is
    empty and [isValid] holds.  A successful [makeMove] runs the check on
    the grid it has written: when it holds the session is completed and its
    timer is stopped, otherwise the session is playing. *)
Theorem isGameCompleted_iff_filled_and_valid (m : GameManager.t) :
  (GameManager.isGameCompleted m = true ↔
     (∀ r c, 0 ≤ r < GridSystem.size (GameManager.gridSystem m) →
             0 ≤ c < GridSystem.size (GameManager.gridSystem m) →
             value (GridSystem.cell (GameManager.gridSystem m) r c) ≠ Null) ∧
     RuleValidator.isValid (GameManager.gridSystem m) = true) ∧
  (∀ r c, 0 ≤ r < GridSystem.size (GameManager.gridSystem m) →
          0 ≤ c < GridSystem.size (GameManager.gridSystem m) →
          value (GridSystem.cell (GameManager.gridSystem m) r c) = Null →
          GameManager.isGameCompleted m = false) ∧
  (∀ now r c v,
     GameManager.gameState m = GameManager.ready ∨
     GameManager.gameState m = GameManager.playing →
     (GridSystem.setCell (GameManager.gridSystem m) r c v).2 = true →
     let m' := (GameManager.makeMove now r c v m).1 in
     GameManager.gridSystem m' = (GridSystem.setCell (GameManager.gridSystem m) r c v).1 ∧
     (GameManager.isGameCompleted m' = true →
        GameManager.gameState m' = GameManager.completed ∧
        GameManager.isRunning (GameManager.timer m') = false) ∧
     (GameManager.isGameCompleted m' = false →
        GameManager.gameState m' = GameManager.playing)).
Proof.
  split; [apply isGameCompleted_true|]. split.
  - intros r c Hr Hc Hnull.
    destruct (GameManager.isGameCompleted m) eqn:Hdone; [|done].
    apply isGameCompleted_true in Hdone as [Hfull _]. by destruct (Hfull r c).
  - intros now r c v Hst Hok m'. unfold m'.
    rewrite (makeMove_done now r c v m Hst Hok).
    set (m0 := if bool_decide (GameManager.gameState m = GameManager.ready)
               then (GameManager.startGame now m).1 else m).
    set (m1 := GameManager.recordMove now r c _ v _).
    assert (GameManager.gameState m1 = GameManager.playing) as Hplaying.
    { unfold m1, m0. simpl. unfold GameManager.startGame.
      destruct Hst as [Hst|Hst]; rewrite Hst; simpl; [|done].
      unfold GameManager.startTimer. by destruct (negb _). }
    assert (GameManager.gridSystem m1 =
              (GridSystem.setCell (GameManager.gridSystem m) r c v).1) as Hgrid by done.
    destruct (GameManager.isGameCompleted m1) eqn:Hdone.
    + destruct (completeGame_state now m1) as (Hs & Ht & Hg).
      split; [by rewrite Hg|]. split; [done|].
      rewrite (isGameCompleted_grid _ m1) by done. congruence.
    + split; [done|]. split; [congruence|done].
Qed.

Lemma isGameCompleted_iff_filled_and_valid_witness :
  ∃ m, sessionA ≫= runAll [OpMove 10 0 0 Moon; OpMove 20 0 1 Orange] = Some m ∧
       (GridSystem.setCell (GameManager.gridSystem m) 1 0 Orange).2 = true ∧
       GameManager.gameState (GameManager.makeMove 30 1 0 Orange m).1 = GameManager.completed.
Proof.
  eexists. split; [vm_compute; reflexivity|].
  match goal with |- (GridSystem.setCell (GameManager.gridSystem ?m) _ _ _).2 = _ ∧ _ =>
    destruct (isGameCompleted_iff_filled_and_valid m) as (_ & _ & Hmove) end.
  split; [reflexivity|].
  edestruct (Hmove 30 1 0 Orange) as (_ & Hdone & _); [by right|reflexivity|].
  apply Hdone. reflexivity.
Defined.

(** C9. A [makeMove] on a ready session first starts the game: it behaves
    as the same call on the started session, which is playing with its
    timer running.  So a move refused by the grid (outside the grid, or on
    an immutable cell) returns [{success: false, reason: "Invalid move"}]
    and still leaves the session playing and the timer running. *)
Theorem makeMove_from_ready_starts_the_game (m : GameManager.t) (now r c : Z) (v : Value) :
  GameManager.gameState m = GameManager.ready →
  let started := (GameManager.startGame now m).1 in
  GameManager.gameState started = GameManager.playing ∧
  GameManager.isRunning (GameManager.timer started) = true ∧
  (GameManager.isRunning (GameManager.timer m) = false →
     GameManager.startTime (GameManager.timer started) =
       Some (now - GameManager.elapsedTime (GameManager.timer m))) ∧
  GameManager.makeMove now r c v m = GameManager.makeMove now r c v started ∧
  ((GridSystem.setCell (GameManager.gridSystem m) r c v).2 = false →
     GameManager.makeMove now r c v m = (started, GameManager.MoveRefused "Invalid move")).
Proof.
  intros Hready started.
  assert (GameManager.gameState started = GameManager.playing) as Hplaying.
  { unfold started, GameManager.startGame, GameManager.startTimer. rewrite Hready. simpl.
    by destruct (negb _). }
  split; [done|]. split; [|split; [|split]].
  - unfold started, GameManager.startGame, GameManager.startTimer. rewrite Hready. simpl.
    by destruct (GameManager.isRunning (GameManager.timer m)) eqn:Hrun.
  - intros Hrun. unfold started, GameManager.startGame, GameManager.startTimer.
    rewrite Hready. simpl. by rewrite Hrun.
  - unfold GameManager.makeMove at 1 2. rewrite Hready, Hplaying. simpl. done.
  - intros Hfail. rewrite makeMove_refused by (done || by left).
    by rewrite Hready.
Qed.

Lemma makeMove_from_ready_starts_the_game_witness :
  ∃ m, sessionA = Some m ∧
       GameManager.gameState m = GameManager.ready ∧
       GameManager.makeMove 10 1 1 Orange m =
         ((GameManager.startGame 10 m).1, GameManager.MoveRefused "Invalid move") ∧
       GameManager.gameState (GameManager.makeMove 10 5 0 Orange m).1 = GameManager.playing.
Proof.
  eexists. split; [vm_compute; reflexivity|].
  split; [reflexivity|]. split.
  - eapply makeMove_from_ready_starts_the_game; reflexivity.
  - reflexivity.
Defined.

(** C6. Recording a move keeps the entries of the history up to and
    including the cursor, appends the new record after them and moves the
    cursor to it; this is what a successful [makeMove] does to the history.
    With the history [[A, B, C]] and the cursor on [A], the move [D] leaves
    [[A, D]]: the moves that could be redone are gone. *)
Theorem recordMove_discards_redo_tail
    (m : GameManager.t) (now r c : Z) (pv v : Value) :
  -1 ≤ GameManager.currentMoveIndex m →
  let kept := take (Z.to_nat (GameManager.currentMoveIndex m + 1)) (GameManager.moveHistory m) in
  GameManager.moveHistory (GameManager.recordMove now r c pv v m) =
    kept ++ [GameManager.mkMove r c pv v now] ∧
  GameManager.currentMoveIndex (GameManager.recordMove now r c pv v m) =
    GameManager.currentMoveIndex m + 1 ∧
  (GameManager.gameState m = GameManager.ready ∨
   GameManager.gameState m = GameManager.playing →
   (GridSystem.setCell (GameManager.gridSystem m) r c v).2 = true →
   GameManager.moveHistory (GameManager.makeMove now r c v m).1 =
     kept ++ [GameManager.mkMove r c
                (value (GridSystem.cell (GameManager.gridSystem m) r c)) v now] ∧
   GameManager.currentMoveIndex (GameManager.makeMove now r c v m).1 =
     GameManager.currentMoveIndex m + 1) ∧
  (∀ A B C, GameManager.moveHistory m = [A; B; C] → GameManager.currentMoveIndex m = 0 →
     GameManager.moveHistory (GameManager.recordMove now r c pv v m) =
       [A; GameManager.mkMove r c pv v now]) ∧
  GameManager.moveHistory <$> scenarioABCD =
    Some [GameManager.mkMove 0 0 Null Orange 10; GameManager.mkMove 1 0 Null Orange 40].
Proof.
  intros Hc kept. unfold kept.
  split; [by apply recordMove_history|]. split; [done|]. split; [|split].
  - intros Hst Hok. rewrite (makeMove_done now r c v m Hst Hok).
    set (m0 := if bool_decide (GameManager.gameState m = GameManager.ready)
               then (GameManager.startGame now m).1 else m).
    assert (GameManager.moveHistory m0 = GameManager.moveHistory m ∧
            GameManager.currentMoveIndex m0 = GameManager.currentMoveIndex m) as [Hh Hi].
    { unfold m0. destruct (bool_decide _); [|done].
      by destruct (startGame_history now m) as (? & ? & _). }
    set (m1 := GameManager.recordMove now r c _ v _).
    assert (GameManager.moveHistory m1 =
              take (Z.to_nat (GameManager.currentMoveIndex m + 1)) (GameManager.moveHistory m)
              ++ [GameManager.mkMove r c
                    (value (GridSystem.cell (GameManager.gridSystem m) r c)) v now] ∧
            GameManager.currentMoveIndex m1 = GameManager.currentMoveIndex m + 1) as [H1 H2].
    { unfold m1. rewrite recordMove_history by (simpl; lia). simpl.
      by rewrite Hh, Hi. }
    destruct (GameManager.isGameCompleted m1); [|done].
    destruct (completeGame_history now m1) as (-> & -> & _). done.
  - intros A B C HABC H0. rewrite recordMove_history by lia. by rewrite HABC, H0.
  - vm_compute. reflexivity.
Qed.

Lemma recordMove_discards_redo_tail_witness :
  ∃ m, sessionA ≫= runAll [OpMove 10 0 0 Orange; OpMove 20 0 1 Moon; OpMove 30 1 0 Moon;
                           OpUndo; OpUndo] = Some m ∧
       -1 ≤ GameManager.currentMoveIndex m ∧
       length (GameManager.moveHistory m) = 3%nat ∧
       GameManager.moveHistory (GameManager.makeMove 40 1 0 Orange m).1 =
         [GameManager.mkMove 0 0 Null Orange 10; GameManager.mkMove 1 0 Null Orange 40].
Proof.
  eexists. split; [vm_compute; reflexivity|].
  split; [simpl; lia|]. split; [reflexivity|].
  match goal with |- GameManager.moveHistory (GameManager.makeMove _ _ _ _ ?m).1 = _ =>
    edestruct (recordMove_discards_redo_tail m 40 1 0 Null Orange) as (_ & _ & Hmove & _)
  end; [simpl; lia|].
  destruct Hmove as [Hh _]; [by right|reflexivity|]. rewrite Hh. reflexivity.
Defined.

(** * The history invariant *)
Section HistoryInvariant.

Import GameManager.

Implicit Types (m : GameManager.t) (gr base : list (list Cell)) (mv : MoveRecord)
  (moves : list MoveRecord) (n : Z).

Lemma update_ext gr (f f' : Cell → Cell) r c :
  (∀ x, f x = f' x) → GridSystem.update f r c gr = GridSystem.update f' r c gr.
Proof.
  intros Hf. unfold GridSystem.update. destruct (_ && _); [|done].
  apply list_alter_ext; [|done]. intros cells _.
  apply list_alter_ext; [|done]. intros x _. apply Hf.
Qed.

Lemma setValue_immutable_at gr v r c r' c' :
  immutable (GridSystem.at_ (GridSystem.update (GridSystem.setValue v) r c gr) r' c') =
  immutable (GridSystem.at_ gr r' c').
Proof.
  unfold GridSystem.at_. rewrite lookup_update.
  destruct (decide _) as [[-> ->]|]; [|done].
  by destruct (GridSystem.lookup gr r' c').
Qed.

Lemma wf_grid_applyMove n gr mv : GridSystem.wf_grid n gr → GridSystem.wf_grid n (applyMove gr mv).
Proof. apply wf_grid_update. Qed.

Lemma wf_grid_replay n moves base :
  GridSystem.wf_grid n base → GridSystem.wf_grid n (replay base moves).
Proof.
  revert base. induction moves as [|mv moves IH]; intros base Hwf; [done|].
  apply IH. by apply wf_grid_applyMove.
Qed.

Lemma replay_app base moves moves' :
  replay base (moves ++ moves') = replay (replay base moves) moves'.
Proof. apply foldl_app. Qed.

Lemma consistent_app n moves moves' base :
  consistent n base (moves ++ moves') ↔
  consistent n base moves ∧ consistent n (replay base moves) moves'.
Proof.
  revert base. induction moves as [|mv moves IH]; intros base; simpl.
  - tauto.
  - rewrite IH. tauto.
Qed.

Lemma consistent_take n moves base k :
  consistent n base moves → consistent n base (take k moves).
Proof.
  intros H. rewrite <-(take_drop k moves) in H.
  by apply consistent_app in H as [? _].
Qed.

(** What the invariant says about the move at index [k]. *)
Lemma consistent_lookup n moves base k mv :
  consistent n base moves → moves !! k = Some mv →
  let gr := replay base (take k moves) in
  0 ≤ m_row mv < n ∧ 0 ≤ m_col mv < n ∧
  immutable (GridSystem.at_ gr (m_row mv) (m_col mv)) = false ∧
  previousValue mv = value (GridSystem.at_ gr (m_row mv) (m_col mv)).
Proof.
  intros H Hk. rewrite <-(take_drop_middle moves k mv Hk) in H.
  apply consistent_app in H as [_ H]. simpl in H. destruct H as [(? & ? & ? & ?) _].
  done.
Qed.

Lemma take_cursor_succ moves (i : Z) mv :
  0 ≤ i → moves !! Z.to_nat i = Some mv →
  take (Z.to_nat (i + 1)) moves = take (Z.to_nat i) moves ++ [mv].
Proof.
  intros Hi Hmv. replace (Z.to_nat (i + 1)) with (S (Z.to_nat i)) by lia.
  by apply take_S_r.
Qed.

(** Undoing a replayed move gives back the grid before it. *)
Lemma undo_applyMove n gr mv :
  GridSystem.wf_grid n gr →
  previousValue mv = value (GridSystem.at_ gr (m_row mv) (m_col mv)) →
  GridSystem.update (GridSystem.setValue (previousValue mv)) (m_row mv) (m_col mv)
    (applyMove gr mv) = gr.
Proof.
  intros Hwf Hprev. unfold applyMove. rewrite update_update.
  rewrite (update_ext _ _ (GridSystem.setValue (previousValue mv))) by done.
  apply update_id. intros x Hx. rewrite Hprev. unfold GridSystem.at_. rewrite Hx. simpl.
  apply setValue_id.
Qed.

Lemma redo_applyMove gr mv v :
  GridSystem.update (GridSystem.setValue (newValue mv)) (m_row mv) (m_col mv)
    (GridSystem.update (GridSystem.setValue v) (m_row mv) (m_col mv) gr) = applyMove gr mv.
Proof.
  unfold applyMove. rewrite update_update. by apply update_ext.
Qed.

Lemma cell_applyMove n gr mv :
  GridSystem.wf_grid n gr → 0 ≤ m_row mv < n → 0 ≤ m_col mv < n →
  GridSystem.at_ (applyMove gr mv) (m_row mv) (m_col mv) =
    GridSystem.setValue (newValue mv) (GridSystem.at_ gr (m_row mv) (m_col mv)).
Proof.
  intros Hwf Hr Hc. unfold applyMove. apply at_update_eq. by eapply wf_grid_lookup.
Qed.

(** [undo] and [redo] when the write they attempt is accepted. *)
Lemma undo_written m mv :
  moveAt m (currentMoveIndex m) = Some mv →
  (GridSystem.setCell (gridSystem m) (m_row mv) (m_col mv) (previousValue mv)).2 = true →
  let m' :=
    with_currentMoveIndex (currentMoveIndex m - 1)
      (with_gridSystem
         (GridSystem.setCell (gridSystem m) (m_row mv) (m_col mv) (previousValue mv)).1 m) in
  undo m = Some (m', HistoryDone mv (canUndoNow m') (canRedoNow m')).
Proof.
  intros Hmv Hok. simpl. unfold undo. rewrite Hmv. unfold moveAt in Hmv.
  destruct (bool_decide (0 ≤ currentMoveIndex m)); [|done]. simpl.
  destruct (GridSystem.setCell _ _ _ _) as [g ok]. simpl in Hok. by subst ok.
Qed.

Lemma redo_written m mv :
  currentMoveIndex m < Z.of_nat (length (moveHistory m)) - 1 →
  moveAt m (currentMoveIndex m + 1) = Some mv →
  (GridSystem.setCell (gridSystem m) (m_row mv) (m_col mv) (newValue mv)).2 = true →
  let m' :=
    with_gridSystem
      (GridSystem.setCell (gridSystem m) (m_row mv) (m_col mv) (newValue mv)).1
      (with_currentMoveIndex (currentMoveIndex m + 1) m) in
  redo m = Some (m', HistoryDone mv (canUndoNow m') (canRedoNow m')).
Proof.
  intros Hlast Hmv Hok. simpl. unfold redo.
  rewrite bool_decide_eq_true_2 by done.
  unfold moveAt in *. simpl. destruct (bool_decide (0 ≤ _)); [|done].
  rewrite Hmv. simpl.
  destruct (GridSystem.setCell _ _ _ _) as [g ok]. simpl in Hok. by subst ok.
Qed.

(** The round trip in any session whose move at the cursor targets a cell
    of the grid that is not immutable. *)
Lemma undo_redo_local m mv :
  moveAt m (currentMoveIndex m) = Some mv →
  GridSystem.isValidPosition (gridSystem m) (m_row mv) (m_col mv) = true →
  immutable (GridSystem.cell (gridSystem m) (m_row mv) (m_col mv)) = false →
  ∃ m' m'',
    undo m = Some (m', HistoryDone mv (canUndoNow m') (canRedoNow m')) ∧
    redo m' = Some (m'', HistoryDone mv (canUndoNow m'') (canRedoNow m'')) ∧
    m'' = with_gridSystem
            (GridSystem.setCell (gridSystem m) (m_row mv) (m_col mv) (newValue mv)).1 m ∧
    (value (GridSystem.cell (gridSystem m) (m_row mv) (m_col mv)) = newValue mv → m'' = m).
Proof.
  intros Hmv Hvalid Hmut.
  assert (0 ≤ currentMoveIndex m < Z.of_nat (length (moveHistory m))) as Hi.
  { unfold moveAt in Hmv. destruct (bool_decide (0 ≤ _)) eqn:H0; [|done].
    apply bool_decide_eq_true in H0. apply lookup_lt_Some in Hmv. lia. }
  pose proof (setCell_ok _ _ _ (previousValue mv) Hvalid Hmut) as Hset.
  pose proof (undo_written m mv Hmv ltac:(by rewrite Hset)) as Hundo.
  cbv zeta in Hundo. rewrite Hset in Hundo. simpl in Hundo.
  set (g' := GridSystem.mk _ _ _) in *.
  set (m' := with_currentMoveIndex _ _) in *.
  assert (GridSystem.isValidPosition g' (m_row mv) (m_col mv) = true) as Hvalid' by done.
  assert (immutable (GridSystem.cell g' (m_row mv) (m_col mv)) = false) as Hmut'.
  { unfold GridSystem.cell, g'. simpl. by rewrite setValue_immutable_at. }
  pose proof (setCell_ok _ _ _ (newValue mv) Hvalid' Hmut') as Hset'.
  assert (moveAt m' (currentMoveIndex m' + 1) = Some mv) as Hmv'.
  { unfold moveAt, m' in *. simpl.
    by replace (currentMoveIndex m - 1 + 1) with (currentMoveIndex m) by lia. }
  pose proof (redo_written m' mv ltac:(unfold m'; simpl; lia) Hmv'
                ltac:(unfold m' at 1; simpl; by rewrite Hset')) as Hredo.
  cbv zeta in Hredo.
  eexists m', _. split; [exact Hundo|]. split; [exact Hredo|].
  assert (with_gridSystem
            (GridSystem.setCell (gridSystem m') (m_row mv) (m_col mv) (newValue mv)).1
            (with_currentMoveIndex (currentMoveIndex m' + 1) m') =
          with_gridSystem
            (GridSystem.setCell (gridSystem m) (m_row mv) (m_col mv) (newValue mv)).1 m)
    as Heq.
  { unfold m' at 1 2 3. simpl. rewrite Hset'. unfold g'. simpl.
    rewrite (setCell_ok _ _ _ (newValue mv) Hvalid Hmut), redo_applyMove.
    unfold with_gridSystem, with_currentMoveIndex, applyMove. simpl.
    destruct m. simpl. f_equal. lia. }
  split; [exact Heq|]. intros Hnew. rewrite Heq.
  rewrite (setCell_ok _ _ _ (newValue mv) Hvalid Hmut).
  rewrite update_id.
  - by destruct m as [[] ?].
  - intros x Hx. unfold GridSystem.cell, GridSystem.at_ in Hnew. rewrite Hx in Hnew.
    simpl in Hnew. rewrite <-Hnew. apply setValue_id.
Qed.

(** Under the invariant, [undo] with the cursor on a move succeeds. *)
Lemma undo_done m :
  sessionInv m → 0 ≤ currentMoveIndex m →
  ∃ mv,
    moveAt m (currentMoveIndex m) = Some mv ∧
    GridSystem.cell (gridSystem m) (m_row mv) (m_col mv) = mkCell (newValue mv) false ∧
    (GridSystem.setCell (gridSystem m) (m_row mv) (m_col mv) (previousValue mv)).2 = true ∧
    let m' :=
      with_currentMoveIndex (currentMoveIndex m - 1)
        (with_gridSystem
           (GridSystem.setCell (gridSystem m) (m_row mv) (m_col mv) (previousValue mv)).1 m) in
    undo m = Some (m', HistoryDone mv (canUndoNow m') (canRedoNow m')) ∧
    value (GridSystem.cell (gridSystem m') (m_row mv) (m_col mv)) = previousValue mv ∧
    sessionInv m'.
Proof.
  destruct m as [g st diff sd sv tm h i ps]. unfold sessionInv. simpl.
  intros (Hi & Hps & base & Hwf & Hcons & Hgrid) Hi0.
  destruct (lookup_lt_is_Some_2 h (Z.to_nat i)) as [mv Hmv]; [lia|].
  exists mv.
  pose proof (consistent_lookup _ _ _ _ _ Hcons Hmv) as (Hr & Hc & Himm & Hprev).
  simpl in Himm, Hprev.
  set (G := replay base (take (Z.to_nat i) h)) in *.
  assert (GridSystem.wf_grid (GridSystem.size g) G) as HwfG by by apply wf_grid_replay.
  assert (GridSystem.grid g = applyMove G mv) as Hg.
  { by rewrite Hgrid, (take_cursor_succ h i mv), replay_app by done. }
  assert (GridSystem.cell g (m_row mv) (m_col mv) = mkCell (newValue mv) false) as Hcell.
  { unfold GridSystem.cell. rewrite Hg, (cell_applyMove (GridSystem.size g)) by done.
    unfold GridSystem.setValue. by rewrite Himm. }
  assert (GridSystem.setCell g (m_row mv) (m_col mv) (previousValue mv) =
            (GridSystem.mk (GridSystem.size g) G (GridSystem.constraints g), true)) as Hset.
  { rewrite setCell_ok.
    - by rewrite Hg, (undo_applyMove (GridSystem.size g)).
    - apply isValidPosition_true. lia.
    - by rewrite Hcell. }
  split; [unfold moveAt; simpl; by rewrite bool_decide_eq_true_2|].
  split; [done|]. rewrite Hset. simpl. split; [done|]. split; [|split].
  - unfold undo, moveAt. simpl. rewrite !bool_decide_eq_true_2 by done.
    rewrite Hmv. simpl. by rewrite Hset.
  - unfold GridSystem.cell. simpl. done.
  - split; [lia|]. split; [done|]. exists base. split; [done|]. split; [done|].
    by replace (i - 1 + 1) with i by lia.
Qed.

(** Under the invariant, [redo] with a move after the cursor succeeds. *)
Lemma redo_done m :
  sessionInv m → currentMoveIndex m < Z.of_nat (length (moveHistory m)) - 1 →
  ∃ mv,
    moveAt m (currentMoveIndex m + 1) = Some mv ∧
    (GridSystem.setCell (gridSystem m) (m_row mv) (m_col mv) (newValue mv)).2 = true ∧
    let m' :=
      with_gridSystem
        (GridSystem.setCell (gridSystem m) (m_row mv) (m_col mv) (newValue mv)).1
        (with_currentMoveIndex (currentMoveIndex m + 1) m) in
    redo m = Some (m', HistoryDone mv (canUndoNow m') (canRedoNow m')) ∧
    GridSystem.cell (gridSystem m') (m_row mv) (m_col mv) = mkCell (newValue mv) false ∧
    sessionInv m'.
Proof.
  destruct m as [g st diff sd sv tm h i ps]. unfold sessionInv. simpl.
  intros (Hi & Hps & base & Hwf & Hcons & Hgrid) Hlast.
  destruct (lookup_lt_is_Some_2 h (Z.to_nat (i + 1))) as [mv Hmv]; [lia|].
  exists mv.
  pose proof (consistent_lookup _ _ _ _ _ Hcons Hmv) as (Hr & Hc & Himm & Hprev).
  simpl in Himm, Hprev. rewrite <-Hgrid in Himm, Hprev.
  assert (GridSystem.wf_grid (GridSystem.size g) (GridSystem.grid g)) as HwfG.
  { rewrite Hgrid. by apply wf_grid_replay. }
  assert (GridSystem.setCell g (m_row mv) (m_col mv) (newValue mv) =
            (GridSystem.mk (GridSystem.size g) (applyMove (GridSystem.grid g) mv)
               (GridSystem.constraints g), true)) as Hset.
  { rewrite setCell_ok; [done| |done]. apply isValidPosition_true. lia. }
  split; [unfold moveAt; simpl; by rewrite bool_decide_eq_true_2 by lia|].
  rewrite Hset. simpl. split; [done|]. split; [|split].
  - unfold redo, moveAt. simpl. rewrite !bool_decide_eq_true_2 by lia.
    rewrite Hmv. simpl. by rewrite Hset.
  - unfold GridSystem.cell. simpl.
    rewrite (cell_applyMove (GridSystem.size g)) by done.
    unfold GridSystem.setValue. by rewrite Himm.
  - split; [lia|]. split; [done|]. exists base. split; [done|]. split; [done|].
    rewrite (take_cursor_succ h (i + 1) mv), replay_app by (done || lia).
    by rewrite <-Hgrid.
Qed.

(** [undo] then [redo] is the identity on a session that satisfies the
    invariant. *)
Lemma undo_redo_id m :
  sessionInv m → 0 ≤ currentMoveIndex m →
  ∃ m' mv, undo m = Some (m', HistoryDone mv (canUndoNow m') (canRedoNow m')) ∧
           moveAt m (currentMoveIndex m) = Some mv ∧
           redo m' = Some (m, HistoryDone mv (canUndoNow m) (canRedoNow m)) ∧
           currentMoveIndex m' = currentMoveIndex m - 1 ∧
           value (GridSystem.cell (gridSystem m') (m_row mv) (m_col mv)) = previousValue mv ∧
           value (GridSystem.cell (gridSystem m) (m_row mv) (m_col mv)) = newValue mv.
Proof.
  intros Hinv Hi.
  destruct (undo_done m Hinv Hi) as (mv & Hmv & Hcell & Hok & Hundo & Hval & Hinv').
  simpl in *.
  set (m' := with_currentMoveIndex _ _) in *.
  exists m', mv. split; [done|]. split; [done|].
  split; [|split; [done|split; [done|by rewrite Hcell]]].
  destruct Hinv as (Hlen & _).
  destruct (redo_done m') as (mv' & Hmv' & Hok' & Hredo & _).
  { done. }
  { unfold m'. simpl. lia. }
  assert (mv' = mv) as ->.
  { unfold moveAt in *. unfold m' in Hmv'. simpl in Hmv'.
    replace (currentMoveIndex m - 1 + 1) with (currentMoveIndex m) in Hmv' by lia.
    congruence. }
  cbv zeta in Hredo. rewrite Hredo.
  assert (with_gridSystem
            (GridSystem.setCell (gridSystem m') (m_row mv) (m_col mv) (newValue mv)).1
            (with_currentMoveIndex (currentMoveIndex m' + 1) m') = m) as ->; [|done].
  clear Hredo Hundo.
  rewrite (setCell_written _ _ _ _ Hok'). unfold m' in *. clear m'. simpl in *.
  rewrite (setCell_written _ _ _ _ Hok). simpl.
  destruct m as [[n gr cs] st diff sd sv tm h i ps]. simpl in *.
  unfold with_gridSystem, with_currentMoveIndex. simpl. f_equal; [|lia]. f_equal.
  rewrite redo_applyMove. unfold applyMove.
  apply update_id. intros x Hx. unfold GridSystem.cell, GridSystem.at_ in Hcell.
  simpl in Hcell. rewrite Hx in Hcell. simpl in Hcell. by subst x.
Qed.

End HistoryInvariant.

(** * Generation keeps the grid well formed *)
Section GenerationShape.

Import GameManager.

Lemma preserved_ret {A} P (a : A) : preserved P (mret a).
Proof. intros m a' m' HP [= _ <-]. done. Qed.

Lemma preserved_bind {A B} P (x : M A) (k : A → M B) :
  preserved P x → (∀ a, preserved P (k a)) → preserved P (x ≫= k).
Proof.
  intros Hx Hk m b m' HP Hrun. unfold mbind, M_bind in Hrun.
  destruct (x m) as [[a m1]|] eqn:Hxm; [|done].
  eapply Hk; [|exact Hrun]. eapply Hx; [exact HP|exact Hxm].
Qed.

Lemma preserved_forEach {A} P (l : list A) (body : A → M unit) :
  (∀ i, preserved P (body i)) → preserved P (forEach l body).
Proof.
  intros Hbody. induction l as [|i l IH]; simpl.
  - apply preserved_ret.
  - apply preserved_bind; [apply Hbody|]. intros _. apply IH.
Qed.

Lemma shapeIs_call n h i random : preserved (shapeIs n h i) (call random).
Proof.
  intros m a m' HP Hrun. unfold call in Hrun.
  destruct random; [done|]. destruct (seedValue m); [|done].
  injection Hrun as _ <-. done.
Qed.

Lemma shapeIs_shuffle n h i random idx positions :
  preserved (shapeIs n h i) (shuffle random idx positions).
Proof.
  revert positions. induction idx as [|j idx IH]; intros positions; simpl.
  - apply preserved_ret.
  - apply preserved_bind; [apply shapeIs_call|]. intros x. apply IH.
Qed.

Lemma shapeIs_setImmutable n h i r c v : preserved (shapeIs n h i) (setImmutable r c v).
Proof.
  intros m a m' (Hn & Hwf & Hh & Hi) Hrun. unfold setImmutable in Hrun.
  unfold GridSystem.setImmutable in Hrun.
  destruct (GridSystem.isValidPosition _ _ _); injection Hrun as _ <-; [|done].
  split; [done|]. split; [|done]. unfold GridSystem.wf in *. simpl.
  by apply wf_grid_update.
Qed.

Lemma shapeIs_addConstraint n h i r1 c1 r2 c2 ty :
  preserved (shapeIs n h i) (addConstraint r1 c1 r2 c2 ty).
Proof.
  intros m a m' HP Hrun. unfold addConstraint, GridSystem.addConstraint in Hrun.
  destruct (_ && _); injection Hrun as _ <-; done.
Qed.

Lemma shapeIs_placeImmutable n h i random positions j :
  preserved (shapeIs n h i) (placeImmutable random positions j).
Proof.
  unfold placeImmutable. destruct (positions !! _); [|done].
  apply preserved_bind; [apply shapeIs_call|]. intros x.
  apply preserved_bind; [apply shapeIs_setImmutable|]. intros _. apply preserved_ret.
Qed.

Lemma shapeIs_placeConstraint n h i random size j :
  preserved (shapeIs n h i) (placeConstraint random size j).
Proof.
  unfold placeConstraint.
  repeat (apply preserved_bind; [apply shapeIs_call|]; intros ?).
  repeat case_match;
    try (apply preserved_bind; [apply shapeIs_addConstraint|]; intros _);
    apply preserved_ret.
Qed.

(** Generation keeps the shape and leaves a snapshot of the grid it built. *)
Lemma initializePuzzle_shape n h i m m' :
  shapeIs n h i m → initializePuzzle m = Some (tt, m') →
  shapeIs n h i m' ∧
  initialPuzzleState m' =
    Some (mkPuzzleState (GridSystem.grid (gridSystem m'))
                        (GridSystem.getConstraints (gridSystem m'))).
Proof.
  intros HP Hrun. unfold initializePuzzle in Hrun.
  destruct (seedRandom (seed m) m) as [m0 random] eqn:Hseed.
  assert (shapeIs n h i m0) as HP0.
  { unfold seedRandom in Hseed. destruct (bool_decide _); injection Hseed as <- _; done. }
  unfold mbind, M_bind in Hrun.
  destruct (shuffle _ _ _ m0) as [[positions m1]|] eqn:H1; [|done].
  destruct (forEach _ (placeImmutable _ _) m1) as [[[] m2]|] eqn:H2; [|done].
  destruct (forEach _ (placeConstraint _ _) m2) as [[[] m3]|] eqn:H3; [|done].
  injection Hrun as <-.
  pose proof (shapeIs_shuffle n h i _ _ _ m0 _ m1 HP0 H1) as HP1.
  assert (shapeIs n h i m2) as HP2.
  { refine (preserved_forEach (shapeIs n h i) _ _ _ m1 tt m2 HP1 H2).
    intros j. apply shapeIs_placeImmutable. }
  assert (shapeIs n h i m3) as HP3.
  { refine (preserved_forEach (shapeIs n h i) _ _ _ m2 tt m3 HP2 H3).
    intros j. apply shapeIs_placeConstraint. }
  done.
Qed.

End GenerationShape.

(** * Every reachable session satisfies the history invariant *)
Section ReachableSessions.

Import GameManager.

Lemma sessionInv_core m m' : core m = core m' → sessionInv m → sessionInv m'.
Proof.
  destruct m, m'. unfold core, sessionInv. simpl. by intros [= -> -> -> ->].
Qed.

Lemma sessionInv_wf m : sessionInv m → GridSystem.wf (gridSystem m).
Proof.
  intros (_ & _ & base & Hwf & _ & Hgrid). unfold GridSystem.wf. rewrite Hgrid.
  by apply wf_grid_replay.
Qed.

Lemma sessionInv_fresh m :
  GridSystem.wf (gridSystem m) → moveHistory m = [] → currentMoveIndex m = -1 →
  match initialPuzzleState m with
  | Some initial => GridSystem.wf_grid (GridSystem.size (gridSystem m)) (ps_grid initial)
  | None => True
  end →
  sessionInv m.
Proof.
  intros Hwf Hh Hi Hps. unfold sessionInv. rewrite Hh, Hi. simpl.
  split; [lia|]. split; [done|]. by exists (GridSystem.grid (gridSystem m)).
Qed.

Lemma wf_new n : GridSystem.wf (GridSystem.new n).
Proof.
  unfold GridSystem.wf, GridSystem.new, GridSystem.initializeGrid. simpl. split.
  - by rewrite length_fmap, length_seqZ.
  - apply Forall_fmap, Forall_forall. intros ? _. simpl.
    by rewrite length_fmap, length_seqZ.
Qed.

Lemma wf_grid_loops n (step : list (list Cell) → Z → Z → list (list Cell)) rows cols gr :
  (∀ gr r c, GridSystem.wf_grid n gr → GridSystem.wf_grid n (step gr r c)) →
  GridSystem.wf_grid n gr →
  GridSystem.wf_grid n (foldl (λ gr r, foldl (λ gr c, step gr r c) gr cols) gr rows).
Proof.
  intros Hstep. revert gr. induction rows as [|r rows IH]; intros gr Hwf; simpl; [done|].
  apply IH. clear IH. revert gr Hwf.
  induction cols as [|c cols IH]; intros gr Hwf; simpl; [done|].
  apply IH. by apply Hstep.
Qed.

Lemma wf_clear g : GridSystem.wf g → GridSystem.wf (GridSystem.clear g).
Proof.
  unfold GridSystem.wf, GridSystem.clear. simpl.
  apply (wf_grid_loops _ (λ gr r c, if negb (immutable (GridSystem.at_ gr r c))
                               then GridSystem.update (GridSystem.setValue Null) r c gr
                               else gr)).
  intros gr r c Hwf. destruct (negb _); [by apply wf_grid_update|done].
Qed.

Lemma sessionInv_generated size m0 m :
  gridSystem m0 = GridSystem.new size → moveHistory m0 = [] → currentMoveIndex m0 = -1 →
  initializePuzzle m0 = Some (tt, m) → sessionInv m.
Proof.
  intros Hg Hh Hi Hinit.
  apply (initializePuzzle_shape size [] (-1)) in Hinit as [(Hn & Hwf & Hh' & Hi') Hps].
  - apply sessionInv_fresh; [done..|]. rewrite Hps. simpl. apply Hwf.
  - rewrite <-Hh, <-Hi. split; [by rewrite Hg|]. split; [|done].
    rewrite Hg. apply wf_new.
Qed.

Lemma sessionInv_resetGame m m' :
  sessionInv m → resetGame m = Some (tt, m') → sessionInv m'.
Proof.
  intros Hinv Hrun. pose proof (sessionInv_wf m Hinv) as Hwf.
  destruct Hinv as (_ & Hps & _).
  unfold resetGame, restoreInitialPuzzleState in Hrun. simpl in Hrun.
  destruct (initialPuzzleState m) as [initial|] eqn:Hinit.
  - injection Hrun as <-. apply sessionInv_fresh; simpl; [|done..| by rewrite Hinit].
    unfold GridSystem.wf. simpl.
    apply (wf_grid_loops _ (restoreCell (ps_grid initial))); [|done].
    intros gr r c Hgr. by apply wf_grid_update.
  - apply (initializePuzzle_shape (GridSystem.size (gridSystem m)) [] (-1))
      in Hrun as [(Hn & Hwf' & Hh & Hi) Hps'].
    + apply sessionInv_fresh; [done..|]. rewrite Hps'. simpl. apply Hwf'.
    + split; [done|]. split; [by apply wf_clear|done].
Qed.

Lemma sessionInv_makeMove now r c v m :
  sessionInv m → sessionInv (makeMove now r c v m).1.
Proof.
  intros Hinv.
  destruct (decide (gameState m = ready ∨ gameState m = playing)) as [Hst|Hst].
  2:{ unfold makeMove.
      destruct (bool_decide (gameState m = playing)) eqn:H1;
        [apply bool_decide_eq_true in H1; tauto|].
      destruct (bool_decide (gameState m = ready)) eqn:H2;
        [apply bool_decide_eq_true in H2; tauto|]. done. }
  set (m0 := if bool_decide (gameState m = ready) then (startGame now m).1 else m).
  assert (core m0 = core m) as Hcore.
  { unfold m0, core. destruct (bool_decide _); [|done].
    destruct (startGame_history now m) as (-> & -> & ->). by rewrite startGame_grid. }
  destruct ((GridSystem.setCell (gridSystem m) r c v).2) eqn:Hok.
  2:{ rewrite (makeMove_refused now r c v m Hst Hok). simpl.
      by apply (sessionInv_core m). }
  rewrite (makeMove_done now r c v m Hst Hok). fold m0.
  set (m1 := recordMove now r c _ v _).
  assert (sessionInv m1) as Hinv1.
  2:{ destruct (isGameCompleted m1); [|done].
      apply (sessionInv_core m1); [|done]. unfold core.
      destruct (completeGame_history now m1) as (-> & -> & ->).
      by destruct (completeGame_state now m1) as (_ & _ & ->). }
  injection Hcore as Hg Hh Hi Hps.
  pose proof (sessionInv_wf m Hinv) as Hwf.
  destruct Hinv as (Hlen & Hsnap & base & Hbase & Hcons & Hgrid).
  set (mv := mkMove r c (value (GridSystem.cell (gridSystem m) r c)) v now).
  assert (moveHistory m1 =
            take (Z.to_nat (currentMoveIndex m + 1)) (moveHistory m) ++ [mv]) as Hh1.
  { unfold m1. rewrite recordMove_history by (simpl; lia). simpl. by rewrite Hh, Hi. }
  assert (currentMoveIndex m1 = currentMoveIndex m + 1) as Hi1.
  { unfold m1. simpl. by rewrite Hi. }
  assert (gridSystem m1 = (GridSystem.setCell (gridSystem m) r c v).1) as Hg1 by done.
  assert (initialPuzzleState m1 = initialPuzzleState m) as Hps1 by (by rewrite <-Hps).
  pose proof (setCell_written _ _ _ _ Hok) as Hset.
  assert (GridSystem.isValidPosition (gridSystem m) r c = true ∧
          immutable (GridSystem.cell (gridSystem m) r c) = false) as [Hvalid Hmut].
  { unfold GridSystem.setCell in Hok.
    destruct (GridSystem.isValidPosition _ _ _); [|done].
    destruct (immutable _); done. }
  apply isValidPosition_true in Hvalid.
  unfold sessionInv. rewrite Hh1, Hi1, Hg1, Hps1, Hset. simpl.
  rewrite length_app, length_take. simpl.
  split; [lia|]. split; [done|]. exists base. split; [done|]. split.
  - apply consistent_app. split; [by apply consistent_take|].
    simpl. rewrite <-Hgrid. destruct Hvalid. done.
  - rewrite take_ge by (rewrite length_app, length_take; simpl; lia).
    rewrite replay_app, <-Hgrid. done.
Qed.

Lemma sessionInv_run op m m' : sessionInv m → run op m = Some m' → sessionInv m'.
Proof.
  intros Hinv Hrun. destruct op as [now|now| |now r c v| |]; simpl in Hrun.
  - injection Hrun as <-. apply (sessionInv_core m); [|done]. unfold core.
    destruct (startGame_history now m) as (-> & -> & ->). by rewrite startGame_grid.
  - injection Hrun as <-. apply (sessionInv_core m); [|done].
    unfold core, pauseGame, pauseTimer. destruct (bool_decide _); [|done]. simpl.
    by destruct (isRunning _).
  - destruct (resetGame m) as [[[] m1]|] eqn:Hreset; [|done]. injection Hrun as <-.
    by eapply sessionInv_resetGame.
  - injection Hrun as <-. by apply sessionInv_makeMove.
  - destruct (decide (0 ≤ currentMoveIndex m)) as [Hi|Hi].
    + destruct (undo_done m Hinv Hi) as (mv & _ & _ & _ & Hundo & _ & Hinv').
      cbv zeta in Hundo. rewrite Hundo in Hrun. by injection Hrun as <-.
    + unfold undo in Hrun. rewrite bool_decide_eq_false_2 in Hrun by done.
      by injection Hrun as <-.
  - destruct (decide (currentMoveIndex m < Z.of_nat (length (moveHistory m)) - 1))
      as [Hi|Hi].
    + destruct (redo_done m Hinv Hi) as (mv & _ & _ & Hredo & _ & Hinv').
      cbv zeta in Hredo. rewrite Hredo in Hrun. by injection Hrun as <-.
    + unfold redo in Hrun. rewrite bool_decide_eq_false_2 in Hrun by done.
      by injection Hrun as <-.
Qed.

Lemma reachable_sessionInv m : reachable m → sessionInv m.
Proof.
  induction 1 as [size m0 m Hg Hh Hi Hinit|op m m' _ IH Hrun].
  - by eapply sessionInv_generated.
  - by eapply sessionInv_run.
Qed.

Lemma undo_gameState m s :
  undo (with_gameState s m) = prod_map (with_gameState s) id <$> undo m.
Proof.
  unfold undo, moveAt. simpl.
  destruct (bool_decide (0 ≤ currentMoveIndex m)); [|done]. simpl.
  destruct (moveHistory m !! _) as [mv|]; [|done]. simpl.
  by destruct (GridSystem.setCell _ _ _ _) as [g []].
Qed.

Lemma redo_gameState m s :
  redo (with_gameState s m) = prod_map (with_gameState s) id <$> redo m.
Proof.
  unfold redo, moveAt. simpl.
  destruct (bool_decide (currentMoveIndex m < _)); [|done]. simpl.
  destruct (bool_decide (0 ≤ _)); [|done].
  destruct (moveHistory m !! _) as [mv|]; [|done]. simpl.
  by destruct (GridSystem.setCell _ _ _ _) as [g []].
Qed.

Lemma undo_keeps_gameState m m' res : undo m = Some (m', res) → gameState m' = gameState m.
Proof.
  unfold undo, moveAt.
  destruct (bool_decide (0 ≤ currentMoveIndex m)); [|by intros [= <- _]]. simpl.
  destruct (moveHistory m !! _) as [mv|]; [|done]. simpl.
  destruct (GridSystem.setCell _ _ _ _) as [g []]; by intros [= <- _].
Qed.

Lemma redo_keeps_gameState m m' res : redo m = Some (m', res) → gameState m' = gameState m.
Proof.
  unfold redo, moveAt.
  destruct (bool_decide (currentMoveIndex m < _)); [|by intros [= <- _]]. simpl.
  destruct (bool_decide (0 ≤ _)); [|done].
  destruct (moveHistory m !! _) as [mv|]; [|done]. simpl.
  destruct (GridSystem.setCell _ _ _ _) as [g []]; by intros [= <- _].
Qed.

Lemma reachable_cursor_range m :
  reachable m →
  -1 ≤ currentMoveIndex m < Z.of_nat (length (moveHistory m)) ∧
  GridSystem.wf (gridSystem m).
Proof.
  intros Hinv%reachable_sessionInv. split; [apply Hinv|by apply sessionInv_wf].
Qed.

Lemma reachable_runAll ops m m' : reachable m → runAll ops m = Some m' → reachable m'.
Proof.
  revert m. induction ops as [|op ops IH]; intros m Hm Hrun; simpl in Hrun.
  - by injection Hrun as <-.
  - destruct (run op m) as [m1|] eqn:Hop; [|done]. simpl in Hrun.
    eapply IH; [|exact Hrun]. by eapply reachable_run.
Qed.

Lemma reachable_scenario size difficulty seed ops m :
  constructor size difficulty seed ≫= runAll ops = Some m → reachable m.
Proof.
  unfold constructor.
  destruct (initializePuzzle _) as [[[] m0]|] eqn:Hnew; [|done]. simpl.
  apply reachable_runAll. refine (reachable_new size _ m0 _ _ _ Hnew); reflexivity.
Qed.

End ReachableSessions.

(** C5. In a session that has a recorded move at the cursor, [undo]
    followed at once by [redo] gives back the session as it was: the cell
    of the move holds the move's [newValue] again, the cursor is back on
    the move, and nothing else differs.  This holds in every reachable
    session; and in any session at all whose move at the cursor targets a
    cell of the grid that is not immutable, the two calls succeed and
    amount to writing the move's [newValue] into its cell, which changes
    nothing when the cell held that value. *)
Theorem undo_then_redo_restores_the_session (m : GameManager.t) :
  (reachable m → 0 ≤ GameManager.currentMoveIndex m →
   ∃ m' mv,
     GameManager.moveAt m (GameManager.currentMoveIndex m) = Some mv ∧
     GameManager.undo m =
       Some (m', GameManager.HistoryDone mv (GameManager.canUndoNow m')
                                            (GameManager.canRedoNow m')) ∧
     GameManager.currentMoveIndex m' = GameManager.currentMoveIndex m - 1 ∧
     value (GridSystem.cell (GameManager.gridSystem m')
              (GameManager.m_row mv) (GameManager.m_col mv)) = GameManager.previousValue mv ∧
     GameManager.redo m' =
       Some (m, GameManager.HistoryDone mv (GameManager.canUndoNow m)
                                           (GameManager.canRedoNow m)) ∧
     value (GridSystem.cell (GameManager.gridSystem m)
              (GameManager.m_row mv) (GameManager.m_col mv)) = GameManager.newValue mv) ∧
  (∀ mv,
     GameManager.moveAt m (GameManager.currentMoveIndex m) = Some mv →
     GridSystem.isValidPosition (GameManager.gridSystem m)
       (GameManager.m_row mv) (GameManager.m_col mv) = true →
     immutable (GridSystem.cell (GameManager.gridSystem m)
                  (GameManager.m_row mv) (GameManager.m_col mv)) = false →
     ∃ m' m'',
       GameManager.undo m =
         Some (m', GameManager.HistoryDone mv (GameManager.canUndoNow m')
                                              (GameManager.canRedoNow m')) ∧
       GameManager.redo m' =
         Some (m'', GameManager.HistoryDone mv (GameManager.canUndoNow m'')
                                               (GameManager.canRedoNow m'')) ∧
       m'' = GameManager.with_gridSystem
               (GridSystem.setCell (GameManager.gridSystem m) (GameManager.m_row mv)
                  (GameManager.m_col mv) (GameManager.newValue mv)).1 m ∧
       (value (GridSystem.cell (GameManager.gridSystem m)
                 (GameManager.m_row mv) (GameManager.m_col mv)) = GameManager.newValue mv →
        m'' = m)).
Proof.
  split.
  - intros Hreach Hi.
    destruct (undo_redo_id m (reachable_sessionInv m Hreach) Hi)
      as (m' & mv & Hundo & Hmv & Hredo & Hi' & Hprev & Hnew).
    by exists m', mv.
  - intros mv. apply undo_redo_local.
Qed.

Lemma undo_then_redo_restores_the_session_witness :
  ∃ m, sessionA ≫= runAll [OpMove 10 0 0 Orange; OpMove 20 0 1 Moon; OpMove 30 0 0 Moon]
         = Some m ∧
       reachable m ∧ 0 ≤ GameManager.currentMoveIndex m ∧
       ∃ m', fst <$> GameManager.undo m = Some m' ∧ fst <$> GameManager.redo m' = Some m.
Proof.
  eexists. split; [vm_compute; reflexivity|].
  match goal with |- reachable ?m ∧ _ =>
    assert (reachable m) as Hreach
      by (apply (reachable_scenario 2 "easy" (codeUnits "A")
                   [OpMove 10 0 0 Orange; OpMove 20 0 1 Moon; OpMove 30 0 0 Moon]);
          vm_compute; reflexivity);
    assert (0 ≤ GameManager.currentMoveIndex m) as Hi by (simpl; lia);
    destruct (undo_then_redo_restores_the_session m) as [Hround _];
    destruct (Hround Hreach Hi) as (m' & mv & _ & Hundo & _ & _ & Hredo & _)
  end.
  split; [exact Hreach|]. split; [exact Hi|].
  exists m'. rewrite Hundo, Hredo. split; reflexivity.
Defined.

(** C10. [undo] and [redo] do not look at the game state.  In a reachable
    session, whatever its state, [undo] with the cursor on a move writes
    the move's [previousValue] into the grid and moves the cursor back by
    one, and [redo] with a move after the cursor moves the cursor forward
    by one and writes that move's [newValue]; neither changes the game
    state, and running them in another game state gives the same result.
    In any session at all they do so whenever the grid accepts the write. *)
Theorem undo_redo_not_guarded_by_gameState (m : GameManager.t) :
  (reachable m → 0 ≤ GameManager.currentMoveIndex m →
   ∃ mv m',
     GameManager.moveAt m (GameManager.currentMoveIndex m) = Some mv ∧
     GameManager.undo m =
       Some (m', GameManager.HistoryDone mv (GameManager.canUndoNow m')
                                            (GameManager.canRedoNow m')) ∧
     (GridSystem.setCell (GameManager.gridSystem m) (GameManager.m_row mv)
        (GameManager.m_col mv) (GameManager.previousValue mv)).2 = true ∧
     GameManager.gridSystem m' =
       (GridSystem.setCell (GameManager.gridSystem m) (GameManager.m_row mv)
          (GameManager.m_col mv) (GameManager.previousValue mv)).1 ∧
     GameManager.currentMoveIndex m' = GameManager.currentMoveIndex m - 1) ∧
  (reachable m →
   GameManager.currentMoveIndex m < Z.of_nat (length (GameManager.moveHistory m)) - 1 →
   ∃ mv m',
     GameManager.moveAt m (GameManager.currentMoveIndex m + 1) = Some mv ∧
     GameManager.redo m =
       Some (m', GameManager.HistoryDone mv (GameManager.canUndoNow m')
                                            (GameManager.canRedoNow m')) ∧
     (GridSystem.setCell (GameManager.gridSystem m) (GameManager.m_row mv)
        (GameManager.m_col mv) (GameManager.newValue mv)).2 = true ∧
     GameManager.gridSystem m' =
       (GridSystem.setCell (GameManager.gridSystem m) (GameManager.m_row mv)
          (GameManager.m_col mv) (GameManager.newValue mv)).1 ∧
     GameManager.currentMoveIndex m' = GameManager.currentMoveIndex m + 1) ∧
  (∀ mv,
     GameManager.moveAt m (GameManager.currentMoveIndex m) = Some mv →
     (GridSystem.setCell (GameManager.gridSystem m) (GameManager.m_row mv)
        (GameManager.m_col mv) (GameManager.previousValue mv)).2 = true →
     let m' :=
       GameManager.with_currentMoveIndex (GameManager.currentMoveIndex m - 1)
         (GameManager.with_gridSystem
            (GridSystem.setCell (GameManager.gridSystem m) (GameManager.m_row mv)
               (GameManager.m_col mv) (GameManager.previousValue mv)).1 m) in
     GameManager.undo m =
       Some (m', GameManager.HistoryDone mv (GameManager.canUndoNow m')
                                            (GameManager.canRedoNow m'))) ∧
  (∀ mv,
     GameManager.currentMoveIndex m < Z.of_nat (length (GameManager.moveHistory m)) - 1 →
     GameManager.moveAt m (GameManager.currentMoveIndex m + 1) = Some mv →
     (GridSystem.setCell (GameManager.gridSystem m) (GameManager.m_row mv)
        (GameManager.m_col mv) (GameManager.newValue mv)).2 = true →
     let m' :=
       GameManager.with_gridSystem
         (GridSystem.setCell (GameManager.gridSystem m) (GameManager.m_row mv)
            (GameManager.m_col mv) (GameManager.newValue mv)).1
         (GameManager.with_currentMoveIndex (GameManager.currentMoveIndex m + 1) m) in
     GameManager.redo m =
       Some (m', GameManager.HistoryDone mv (GameManager.canUndoNow m')
                                            (GameManager.canRedoNow m'))) ∧
  (∀ m' res, GameManager.undo m = Some (m', res) →
             GameManager.gameState m' = GameManager.gameState m) ∧
  (∀ m' res, GameManager.redo m = Some (m', res) →
             GameManager.gameState m' = GameManager.gameState m) ∧
  (∀ s, GameManager.undo (GameManager.with_gameState s m) =
          prod_map (GameManager.with_gameState s) id <$> GameManager.undo m) ∧
  (∀ s, GameManager.redo (GameManager.with_gameState s m) =
          prod_map (GameManager.with_gameState s) id <$> GameManager.redo m).
Proof.
  split; [|split; [|split; [|split; [|split; [|split; [|split]]]]]].
  - intros Hreach Hi. pose proof (reachable_sessionInv m Hreach) as Hinv.
    destruct (undo_done m Hinv Hi) as (mv & Hmv & _ & Hok & Hundo & _ & _).
    cbv zeta in Hundo. eexists mv, _. split; [done|]. split; [exact Hundo|]. done.
  - intros Hreach Hi. pose proof (reachable_sessionInv m Hreach) as Hinv.
    destruct (redo_done m Hinv Hi) as (mv & Hmv & Hok & Hredo & _ & _).
    cbv zeta in Hredo. eexists mv, _. split; [done|]. split; [exact Hredo|]. done.
  - apply undo_written.
  - apply redo_written.
  - apply undo_keeps_gameState.
  - apply redo_keeps_gameState.
  - apply undo_gameState.
  - apply redo_gameState.
Qed.

Lemma undo_redo_not_guarded_by_gameState_witness :
  ∃ m, sessionA ≫= runAll [OpMove 10 0 0 Orange; OpMove 20 0 1 Moon; OpPause 30] = Some m ∧
       reachable m ∧
       GameManager.gameState m = GameManager.paused ∧
       0 ≤ GameManager.currentMoveIndex m ∧
       ∃ m', fst <$> GameManager.undo m = Some m' ∧
             GameManager.currentMoveIndex m' = 0 ∧
             GameManager.gameState m' = GameManager.paused ∧
             value (GridSystem.cell (GameManager.gridSystem m') 0 1) = Null.
Proof.
  eexists. split; [vm_compute; reflexivity|].
  match goal with |- reachable ?m ∧ _ =>
    assert (reachable m) as Hreach
      by (apply (reachable_scenario 2 "easy" (codeUnits "A")
                   [OpMove 10 0 0 Orange; OpMove 20 0 1 Moon; OpPause 30]);
          vm_compute; reflexivity);
    destruct (undo_redo_not_guarded_by_gameState m) as (Hundo & _ & _ & _ & Hstate & _)
  end.
  split; [exact Hreach|]. split; [reflexivity|]. split; [simpl; lia|].
  destruct Hundo as (mv & m' & Hmv & Hundo & _ & Hgrid & Hi); [exact Hreach|simpl; lia|].
  exists m'. rewrite Hundo. split; [reflexivity|]. split; [exact Hi|].
  split; [exact (Hstate _ _ Hundo)|].
  rewrite Hgrid. injection Hmv as <-. reflexivity.
Defined.

(** * The seeded generator *)
Section Generator.

Import GameManager.

Lemma related_ret {A} R (a : A) : related R R (mret a).
Proof. intros m1 m2 HR. simpl. done. Qed.

Lemma related_bind {A B} R R1 R2 (x : M A) (k : A → M B) :
  related R R1 x → (∀ a, related R1 R2 (k a)) → related R R2 (x ≫= k).
Proof.
  intros Hx Hk m1 m2 HR. specialize (Hx m1 m2 HR). unfold mbind, M_bind.
  destruct (x m1) as [[a1 m1']|], (x m2) as [[a2 m2']|]; try done.
  destruct Hx as [<- HR1]. by apply Hk.
Qed.

Lemma related_forEach {A} R (l : list A) (body : A → M unit) :
  (∀ i, related R R (body i)) → related R R (forEach l body).
Proof.
  intros Hbody. induction l as [|i l IH]; simpl.
  - apply related_ret.
  - eapply related_bind; [apply Hbody|]. intros _. apply IH.
Qed.

Lemma related_call random : related (sameInputs random) (sameInputs random) (call random).
Proof.
  intros m1 m2 [Hg Hs]. unfold call. destruct random; [done|].
  rewrite (Hs eq_refl). destruct (seedValue m2); [|done]. done.
Qed.

Lemma related_shuffle random idx positions :
  related (sameInputs random) (sameInputs random) (shuffle random idx positions).
Proof.
  revert positions. induction idx as [|i idx IH]; intros positions; simpl.
  - apply related_ret.
  - eapply related_bind; [apply related_call|]. intros x. apply IH.
Qed.

Lemma related_setImmutable random r c v :
  related (sameInputs random) (sameInputs random) (setImmutable r c v).
Proof.
  intros m1 m2 [Hg Hs]. unfold setImmutable. rewrite Hg.
  by destruct (GridSystem.setImmutable _ _ _ _).
Qed.

Lemma related_addConstraint random r1 c1 r2 c2 ty :
  related (sameInputs random) (sameInputs random) (addConstraint r1 c1 r2 c2 ty).
Proof.
  intros m1 m2 [Hg Hs]. unfold addConstraint. rewrite Hg.
  by destruct (GridSystem.addConstraint _ _ _ _ _ _).
Qed.

Lemma related_placeImmutable random positions i :
  related (sameInputs random) (sameInputs random) (placeImmutable random positions i).
Proof.
  unfold placeImmutable. destruct (positions !! _); [|done].
  eapply related_bind; [apply related_call|]. intros x.
  eapply related_bind; [apply related_setImmutable|]. intros _. apply related_ret.
Qed.

Lemma related_placeConstraint random size i :
  related (sameInputs random) (sameInputs random) (placeConstraint random size i).
Proof.
  unfold placeConstraint.
  repeat (eapply related_bind; [apply related_call|]; intros ?).
  repeat case_match;
    try (eapply related_bind; [apply related_addConstraint|]; intros _);
    apply related_ret.
Qed.

Lemma related_storeInitialPuzzleState random :
  related (sameInputs random)
    (λ m1 m2, sameInputs random m1 m2 ∧ initialPuzzleState m1 = initialPuzzleState m2)
    (modify storeInitialPuzzleState).
Proof.
  intros m1 m2 [Hg Hs]. unfold modify, storeInitialPuzzleState. simpl.
  split; [done|]. split; [done|]. by rewrite Hg.
Qed.

(** Generation reads only the seed, the difficulty and the grid store. *)
Lemma initializePuzzle_reads m1 m2 :
  seed m1 = seed m2 → difficulty m1 = difficulty m2 → gridSystem m1 = gridSystem m2 →
  match initializePuzzle m1, initializePuzzle m2 with
  | Some (_, m1'), Some (_, m2') =>
      gridSystem m1' = gridSystem m2' ∧
      initialPuzzleState m1' = initialPuzzleState m2' ∧
      (seed m1 ≠ [] → seedValue m1' = seedValue m2')
  | None, None => True
  | _, _ => False
  end.
Proof.
  intros Hseed Hdiff Hgrid. unfold initializePuzzle.
  rewrite Hseed, Hgrid. unfold seedRandom.
  destruct (bool_decide (length (seed m2) = 0%nat)) eqn:Hempty.
  - rewrite Hdiff.
    set (x := _ ≫= _).
    assert (related (sameInputs HashNumber)
              (λ m1 m2, sameInputs HashNumber m1 m2 ∧
                        initialPuzzleState m1 = initialPuzzleState m2) x) as Hx.
    { eapply related_bind; [apply related_shuffle|]. intros positions.
      eapply related_bind;
        [apply related_forEach; intros; apply related_placeImmutable|]. intros _.
      eapply related_bind;
        [apply related_forEach; intros; apply related_placeConstraint|]. intros _.
      apply related_storeInitialPuzzleState. }
    specialize (Hx m1 m2). destruct (x m1) as [[[] m1']|], (x m2) as [[[] m2']|];
      try (by apply Hx).
    destruct Hx as (_ & [Hg _] & Hps); [done|]. split; [done|]. split; [done|].
    apply bool_decide_eq_true in Hempty. intros Hne.
    by destruct (seed m2).
  - simpl. rewrite Hdiff.
    set (x := _ ≫= _).
    assert (related (sameInputs Closure)
              (λ m1 m2, sameInputs Closure m1 m2 ∧
                        initialPuzzleState m1 = initialPuzzleState m2) x) as Hx.
    { eapply related_bind; [apply related_shuffle|]. intros positions.
      eapply related_bind;
        [apply related_forEach; intros; apply related_placeImmutable|]. intros _.
      eapply related_bind;
        [apply related_forEach; intros; apply related_placeConstraint|]. intros _.
      apply related_storeInitialPuzzleState. }
    specialize (Hx (with_seedValue (Some (Z.abs (seedHash (seed m2)))) m1)
                   (with_seedValue (Some (Z.abs (seedHash (seed m2)))) m2)).
    destruct (x (with_seedValue _ m1)) as [[[] m1']|],
             (x (with_seedValue _ m2)) as [[[] m2']|]; try (by apply Hx).
    destruct Hx as (_ & [Hg Hs] & Hps); [done|]. split; [done|]. split; [done|].
    intros _. by apply Hs.
Qed.

Lemma draws_ret {A} (Q : A → Prop) (a : A) : Q a → draws 0 Q (mret a).
Proof. intros HQ m s Hs. by exists a, m. Qed.

Lemma draws_bind {A B} k1 k2 (Q1 : A → Prop) (Q2 : B → Prop) (x : M A) (k : A → M B) :
  draws k1 Q1 x → (∀ a, Q1 a → draws k2 Q2 (k a)) → draws (k1 + k2) Q2 (x ≫= k).
Proof.
  intros Hx Hk m s Hs. destruct (Hx m s Hs) as (a & m1 & Hrun & HQ & Hs1).
  destruct (Hk a HQ m1 _ Hs1) as (b & m2 & Hrun2 & HQ2 & Hs2).
  exists b, m2. unfold mbind, M_bind. rewrite Hrun. split; [done|]. split; [done|].
  by rewrite Nat.add_comm, Nat.iter_add.
Qed.

Lemma draws_forEach {A} k (l : list A) (body : A → M unit) :
  (∀ i, i ∈ l → draws k (λ _, True) (body i)) →
  draws (length l * k) (λ _, True) (forEach l body).
Proof.
  induction l as [|i l IH]; intros Hbody; simpl.
  - by apply draws_ret.
  - apply (draws_bind k (length l * k) (λ _, True)); [apply Hbody; left|].
    intros _ _. apply IH. intros j Hj. apply Hbody. by right.
Qed.

Lemma draws_call : draws 1 (λ _, True) (call Closure).
Proof. intros m s Hs. unfold call. rewrite Hs. by eexists _, _. Qed.

Lemma draws_setImmutable r c v : draws 0 (λ _, True) (setImmutable r c v).
Proof.
  intros m s Hs. unfold setImmutable.
  destruct (GridSystem.setImmutable _ _ _ _) as [g ok]. by exists ok, (with_gridSystem g m).
Qed.

Lemma draws_addConstraint r1 c1 r2 c2 ty :
  draws 0 (λ _, True) (addConstraint r1 c1 r2 c2 ty).
Proof.
  intros m s Hs. unfold addConstraint.
  destruct (GridSystem.addConstraint _ _ _ _ _ _) as [g ok].
  by exists ok, (with_gridSystem g m).
Qed.

Lemma length_swap i j positions : length (swap i j positions) = length positions.
Proof.
  unfold swap. destruct (positions !! _); [|done]. destruct (positions !! _); [|done].
  by rewrite !length_insert.
Qed.

(** The shuffle draws once per index and returns a list of the same length. *)
Lemma draws_shuffle idx positions :
  draws (length idx) (λ positions', length positions' = length positions)
    (shuffle Closure idx positions).
Proof.
  revert positions. induction idx as [|i idx IH]; intros positions; simpl.
  - by apply draws_ret.
  - apply (draws_bind 1 (length idx) (λ _, True)); [apply draws_call|].
    intros x _ m s Hs.
    destruct (IH (swap i (JSNumber.floor (JSNumber.mul x (JSNumber.of_Z (i + 1))))
                    positions) m s Hs) as (ps & m' & Hrun & Hlen & Hs').
    exists ps, m'. rewrite length_swap in Hlen. done.
Qed.

Lemma draws_placeImmutable positions i :
  is_Some (positions !! Z.to_nat i) →
  draws 1 (λ _, True) (placeImmutable Closure positions i).
Proof.
  intros [pos Hpos]. unfold placeImmutable. rewrite Hpos.
  apply (draws_bind 1 0 (λ _, True)); [apply draws_call|]. intros x _.
  apply (draws_bind 0 0 (λ _, True)); [apply draws_setImmutable|]. intros _ _.
  by apply draws_ret.
Qed.

Lemma draws_placeConstraint size i : draws 4 (λ _, True) (placeConstraint Closure size i).
Proof.
  unfold placeConstraint.
  apply (draws_bind 1 3 (λ _, True)); [apply draws_call|]. intros x1 _.
  apply (draws_bind 1 2 (λ _, True)); [apply draws_call|]. intros x2 _.
  apply (draws_bind 1 1 (λ _, True)); [apply draws_call|]. intros x3 _.
  apply (draws_bind 1 0 (λ _, True)); [apply draws_call|]. intros x4 _.
  repeat case_match;
    try (apply (draws_bind 0 0 (λ _, True)); [apply draws_addConstraint|]; intros _ _);
    by apply draws_ret.
Qed.

(** With a seed that is not empty, generation returns, and it leaves the
    generator where [drawCount] steps of the recurrence lead from the
    absolute value of the hash of the seed. *)
Lemma initializePuzzle_draws m :
  seed m ≠ [] →
  ∃ m', initializePuzzle m = Some (tt, m') ∧
        seedValue m' =
          Some (Nat.iter (drawCount (GridSystem.size (gridSystem m)) (difficulty m)) lcg
                  (Z.abs (seedHash (seed m)))).
Proof.
  intros Hseed. unfold initializePuzzle, seedRandom.
  rewrite bool_decide_eq_false_2 by (by destruct (seed m)). simpl.
  set (size := GridSystem.size (gridSystem m)).
  set (cells := Z.of_nat (length (allPositions size))).
  set (x := _ ≫= _).
  assert (draws (drawCount size (difficulty m)) (λ _, True) x) as Hx.
  { unfold drawCount. fold cells.
    replace (Z.to_nat (cells - 1) + Z.to_nat (Z.min (prefilledCount size (difficulty m)) cells)
             + 4 * Z.to_nat (constraintCount size))%nat
      with (length (downFrom cells) +
            (length (seqZ 0 (Z.min (prefilledCount size (difficulty m)) cells)) * 1 +
             (length (seqZ 0 (constraintCount size)) * 4 + 0)))%nat.
    2:{ unfold downFrom. rewrite length_reverse, !length_seqZ. lia. }
    eapply draws_bind; [apply draws_shuffle|]. intros positions Hlen. simpl in Hlen.
    rewrite Hlen. fold cells.
    eapply draws_bind.
    { apply draws_forEach. intros i [? ?]%elem_of_seqZ.
      apply draws_placeImmutable, lookup_lt_is_Some_2. unfold cells in *. lia. }
    intros _ _. eapply draws_bind.
    { apply draws_forEach. intros i _. apply draws_placeConstraint. }
    intros _ _ m0 s Hs. by exists tt, (storeInitialPuzzleState m0). }
  destruct (Hx (with_seedValue (Some (Z.abs (seedHash (seed m)))) m) _ eq_refl)
    as ([] & m' & Hrun & _ & Hs).
  by exists m'.
Qed.

(** The recurrence, and why JavaScript computes it without rounding. *)
Lemma lcg_mod s :
  0 ≤ s → lcg s = (s * 1664525 + 1013904223) `mod` 2 ^ 32 ∧ 0 ≤ lcg s < 2 ^ 32.
Proof.
  intros Hs. unfold lcg. rewrite Z.rem_mod_nonneg by lia.
  split; [done|]. apply Z.mod_pos_bound. lia.
Qed.

Lemma lcg_exact_in_binary64 s : 0 ≤ s ≤ 2 ^ 32 → 0 ≤ s * 1664525 + 1013904223 < 2 ^ 53.
Proof. lia. Qed.

Lemma toInt32_add_l a b : JSNumber.toInt32 (JSNumber.toInt32 a + b) = JSNumber.toInt32 (a + b).
Proof.
  unfold JSNumber.toInt32. f_equal.
  replace ((a + 2 ^ 31) `mod` 2 ^ 32 - 2 ^ 31 + b + 2 ^ 31)
    with ((a + 2 ^ 31) `mod` 2 ^ 32 + b) by lia.
  rewrite Z.add_mod_idemp_l by lia. f_equal. lia.
Qed.

Lemma toInt32_idemp a : JSNumber.toInt32 (JSNumber.toInt32 a) = JSNumber.toInt32 a.
Proof.
  replace (JSNumber.toInt32 a) with (JSNumber.toInt32 a + 0) at 1 by lia.
  rewrite toInt32_add_l. f_equal. lia.
Qed.

Lemma toInt32_mul_l a b : JSNumber.toInt32 (JSNumber.toInt32 a * b) = JSNumber.toInt32 (a * b).
Proof.
  unfold JSNumber.toInt32. f_equal.
  replace (((a + 2 ^ 31) `mod` 2 ^ 32 - 2 ^ 31) * b + 2 ^ 31)
    with ((a + 2 ^ 31) `mod` 2 ^ 32 * b + (2 ^ 31 - 2 ^ 31 * b)) by lia.
  rewrite <-Z.add_mod_idemp_l, Z.mul_mod_idemp_l, Z.add_mod_idemp_l by lia.
  f_equal. lia.
Qed.

(** The hash step is [31 * hash + char] wrapped to a signed 32-bit integer. *)
Lemma hashStep_eq hash char : hashStep hash char = JSNumber.toInt32 (31 * hash + char).
Proof.
  unfold hashStep, JSNumber.and, JSNumber.shl. rewrite Z.land_diag.
  change (Z.land 5 31) with 5. rewrite Z.shiftl_mul_pow2 by lia.
  replace (JSNumber.toInt32 (JSNumber.toInt32 hash * 2 ^ 5) - hash + char)
    with (JSNumber.toInt32 (JSNumber.toInt32 hash * 2 ^ 5) + (char - hash)) by lia.
  rewrite toInt32_add_l, <-(toInt32_add_l (_ * _)), toInt32_mul_l, toInt32_add_l.
  f_equal. lia.
Qed.

End Generator.

(** C1. Generation is a function of the grid size, the difficulty and the
    seed: from two sessions with the same seed, the same difficulty and the
    same grid store (a fresh grid of the same size), whatever their other
    fields hold, both runs throw or both return, with the same grid (the
    same immutable cells with the same values), the same constraint map
    (keys, endpoints and kinds, in the same order) and the same snapshot.
    With a seed that is not empty the run returns, and the state of the
    generator afterwards is the recurrence
    [state = (state * 1664525 + 1013904223) mod 2^32] iterated from the
    absolute value of the hash of the seed. *)
Theorem generation_is_a_function_of_size_difficulty_seed (m1 m2 : GameManager.t) :
  GameManager.seed m1 = GameManager.seed m2 →
  GameManager.difficulty m1 = GameManager.difficulty m2 →
  GameManager.gridSystem m1 = GameManager.gridSystem m2 →
  match GameManager.initializePuzzle m1, GameManager.initializePuzzle m2 with
  | Some (_, m1'), Some (_, m2') =>
      GameManager.gridSystem m1' = GameManager.gridSystem m2' ∧
      GameManager.initialPuzzleState m1' = GameManager.initialPuzzleState m2' ∧
      (GameManager.seed m1 ≠ [] → GameManager.seedValue m1' = GameManager.seedValue m2')
  | None, None => True
  | _, _ => False
  end ∧
  (GameManager.seed m1 ≠ [] →
   ∃ m1', GameManager.initializePuzzle m1 = Some (tt, m1') ∧
          GameManager.seedValue m1' =
            Some (Nat.iter (drawCount (GridSystem.size (GameManager.gridSystem m1))
                                      (GameManager.difficulty m1))
                    GameManager.lcg (Z.abs (GameManager.seedHash (GameManager.seed m1))))) ∧
  (∀ state, 0 ≤ state →
     GameManager.lcg state = (state * 1664525 + 1013904223) `mod` 2 ^ 32).
Proof.
  intros Hseed Hdiff Hgrid. split; [by apply initializePuzzle_reads|].
  split; [apply initializePuzzle_draws|]. intros state Hstate.
  by apply lcg_mod.
Qed.

Lemma generation_is_a_function_of_size_difficulty_seed_witness :
  GameManager.seed (beforeGeneration 4 "medium" (codeUnits "TEST1234")) =
    GameManager.seed (afterEarlierGame 4 "medium" (codeUnits "TEST1234")) ∧
  GameManager.difficulty (beforeGeneration 4 "medium" (codeUnits "TEST1234")) =
    GameManager.difficulty (afterEarlierGame 4 "medium" (codeUnits "TEST1234")) ∧
  GameManager.gridSystem (beforeGeneration 4 "medium" (codeUnits "TEST1234")) =
    GameManager.gridSystem (afterEarlierGame 4 "medium" (codeUnits "TEST1234")) ∧
  ∃ m1' m2',
    GameManager.initializePuzzle (beforeGeneration 4 "medium" (codeUnits "TEST1234")) =
      Some (tt, m1') ∧
    GameManager.initializePuzzle (afterEarlierGame 4 "medium" (codeUnits "TEST1234")) =
      Some (tt, m2') ∧
    GameManager.gridSystem m1' = GameManager.gridSystem m2'.
Proof.
  split; [reflexivity|]. split; [reflexivity|]. split; [reflexivity|].
  destruct (generation_is_a_function_of_size_difficulty_seed
              (beforeGeneration 4 "medium" (codeUnits "TEST1234"))
              (afterEarlierGame 4 "medium" (codeUnits "TEST1234"))
              eq_refl eq_refl eq_refl) as (Hsame & Hruns & _).
  destruct Hruns as (m1' & Hrun1 & _); [discriminate|].
  rewrite Hrun1 in Hsame.
  destruct (GameManager.initializePuzzle (afterEarlierGame _ _ _)) as [[[] m2']|];
    [|destruct Hsame].
  exists m1', m2'. split; [exact Hrun1|]. split; [reflexivity|]. apply Hsame.
Defined.

(** C8. With [size = 4], the seed ["TEST1234"] and the difficulty
    ["medium"], [prefilledCount] is [floor(0.25 * 16) = 4] and
    [constraintCount] is [floor(0.7 * 4) = 2]; generation on a fresh grid
    returns with exactly four immutable cells and exactly two constraints
    in the store, and every run with these inputs gives these same cells,
    values and constraints. *)
Theorem generation_TEST1234_medium_size4 :
  GameManager.prefilledCount 4 "medium" = 4 ∧
  GameManager.constraintCount 4 = 2 ∧
  ∀ m, GameManager.seed m = codeUnits "TEST1234" →
       GameManager.difficulty m = "medium" →
       GameManager.gridSystem m = GridSystem.new 4 →
       ∃ m', GameManager.initializePuzzle m = Some (tt, m') ∧
             immutableCells (GameManager.gridSystem m') =
               [(mkPos 0 0, Moon); (mkPos 1 0, Moon); (mkPos 3 1, Moon); (mkPos 3 3, Moon)] ∧
             GridSystem.constraints (GameManager.gridSystem m') =
               [("1,2-2,2", mkConstraint (mkPos 1 2) (mkPos 2 2) notequal);
                ("0,1-0,2", mkConstraint (mkPos 0 1) (mkPos 0 2) equal)] ∧
             length (immutableCells (GameManager.gridSystem m')) = 4%nat ∧
             length (GridSystem.getConstraints (GameManager.gridSystem m')) = 2%nat.
Proof.
  split; [by vm_compute|]. split; [by vm_compute|].
  assert (∃ m0,
    GameManager.initializePuzzle (beforeGeneration 4 "medium" (codeUnits "TEST1234")) =
      Some (tt, m0) ∧
    immutableCells (GameManager.gridSystem m0) =
      [(mkPos 0 0, Moon); (mkPos 1 0, Moon); (mkPos 3 1, Moon); (mkPos 3 3, Moon)] ∧
    GridSystem.constraints (GameManager.gridSystem m0) =
      [("1,2-2,2", mkConstraint (mkPos 1 2) (mkPos 2 2) notequal);
       ("0,1-0,2", mkConstraint (mkPos 0 1) (mkPos 0 2) equal)])
    as (m0 & Hrun & Hcells & Hconstraints).
  { eexists. split; [vm_compute; reflexivity|]. split; vm_compute; reflexivity. }
  intros m Hseed Hdiff Hgrid.
  pose proof (initializePuzzle_reads m (beforeGeneration 4 "medium" (codeUnits "TEST1234"))
                Hseed Hdiff Hgrid) as Hsame.
  rewrite Hrun in Hsame.
  destruct (GameManager.initializePuzzle m) as [[[] m']|]; [|destruct Hsame].
  destruct Hsame as (Hg & _ & _). exists m'. split; [reflexivity|].
  unfold GridSystem.getConstraints, JSMap.values.
  rewrite Hg, Hcells, Hconstraints. repeat split.
Qed.

Lemma generation_TEST1234_medium_size4_witness :
  ∃ m, GameManager.constructor 4 "medium" (codeUnits "TEST1234") = Some m ∧
       length (immutableCells (GameManager.gridSystem m)) = 4%nat ∧
       length (GridSystem.getConstraints (GameManager.gridSystem m)) = 2%nat.
Proof.
  destruct generation_TEST1234_medium_size4 as (_ & _ & Hgen).
  destruct (Hgen (beforeGeneration 4 "medium" (codeUnits "TEST1234")) eq_refl eq_refl eq_refl)
    as (m & Hrun & _ & _ & Hcells & Hconstraints).
  exists m. unfold GameManager.constructor. fold (beforeGeneration 4 "medium" (codeUnits "TEST1234")).
  rewrite Hrun. split; [reflexivity|]. split; [exact Hcells|exact Hconstraints].
Defined.

(** * The loops over the whole grid *)
Section GridLoops.

Import GridSystem.

Implicit Types (gr : list (list Cell)) (g : GridSystem.t) (r c : Z).

(** Two square grids of the same size with the same cells are the same grid. *)
Lemma wf_grid_ext n gr gr' :
  wf_grid n gr → wf_grid n gr' →
  (∀ r c, 0 ≤ r < n → 0 ≤ c < n → at_ gr r c = at_ gr' r c) → gr = gr'.
Proof.
  intros [Hl Hr] [Hl' Hr'] Hat.
  apply (list_eq_same_length _ _ (Z.to_nat n)); [done..|].
  intros i cells cells' Hi Hc Hc'.
  pose proof (Forall_lookup_1 _ _ _ _ Hr Hc) as Hlc.
  pose proof (Forall_lookup_1 _ _ _ _ Hr' Hc') as Hlc'. simpl in Hlc, Hlc'.
  apply (list_eq_same_length _ _ (Z.to_nat n)); [done..|].
  intros j x x' Hj Hx Hx'.
  specialize (Hat (Z.of_nat i) (Z.of_nat j)).
  unfold at_, lookup in Hat.
  rewrite !bool_decide_eq_true_2, !Nat2Z.id, Hc, Hc' in Hat by lia.
  simpl in Hat. rewrite Hx, Hx' in Hat. apply Hat; lia.
Qed.

Lemma wf_grid_lookup_outside n gr r c :
  wf_grid n gr → ¬ (0 ≤ r < n ∧ 0 ≤ c < n) → lookup gr r c = None.
Proof.
  intros [Hl Hr] Hout. unfold lookup.
  destruct (bool_decide (0 ≤ r)) eqn:H0r; [|done].
  destruct (bool_decide (0 ≤ c)) eqn:H0c; [|done]. simpl.
  apply bool_decide_eq_true in H0r, H0c.
  destruct (gr !! Z.to_nat r) as [cells|] eqn:Hcells; simpl; [|done].
  pose proof (Forall_lookup_1 _ _ _ _ Hr Hcells) as Hlc. simpl in Hlc.
  apply lookup_lt_Some in Hcells.
  apply lookup_ge_None_2. lia.
Qed.

Lemma update_ext_at gr (f f' : Cell → Cell) r c :
  (∀ x, lookup gr r c = Some x → f x = f' x) → update f r c gr = update f' r c gr.
Proof.
  intros Hf. unfold update. destruct (_ && _) eqn:Hv; [|done].
  apply list_alter_ext; [|done]. intros cells Hcells.
  apply list_alter_ext; [|done]. intros x Hx. apply Hf.
  unfold lookup. rewrite Hv, Hcells. simpl. done.
Qed.

(** One row of updates reaches the cells of that row in the listed columns. *)
Lemma lookup_update_cols (f : Z → Cell → Cell) cols gr r r' c' :
  NoDup cols →
  lookup (foldl (λ gr c, update (f c) r c gr) gr cols) r' c' =
    if decide (r' = r ∧ c' ∈ cols) then f c' <$> lookup gr r' c' else lookup gr r' c'.
Proof.
  intros Hnd. revert gr. induction Hnd as [|c cols Hc Hnd IH]; intros gr; simpl.
  - destruct (decide (r' = r ∧ c' ∈ [])) as [[_ H]|_]; [|done]. by apply elem_of_nil in H.
  - rewrite IH, lookup_update.
    destruct (decide (r' = r ∧ c' ∈ cols)) as [[-> Hin]|Hout].
    + rewrite decide_False by (intros [_ ->]; done).
      rewrite decide_True; [done|]. split; [done|]. by apply elem_of_cons; right.
    + destruct (decide (r = r' ∧ c = c')) as [[-> ->]|Hne].
      * rewrite decide_True; [done|]. split; [done|]. by apply elem_of_cons; left.
      * rewrite decide_False; [done|]. intros [-> Hin].
        apply elem_of_cons in Hin as [-> | Hin]; [by apply Hne|by apply Hout].
Qed.

(** The double loop reaches every listed cell once. *)
Lemma lookup_update_loops (f : Z → Z → Cell → Cell) rows cols gr r' c' :
  NoDup rows → NoDup cols →
  lookup (foldl (λ gr r, foldl (λ gr c, update (f r c) r c gr) gr cols) gr rows) r' c' =
    if decide (r' ∈ rows ∧ c' ∈ cols) then f r' c' <$> lookup gr r' c' else lookup gr r' c'.
Proof.
  intros Hnd Hcols. revert gr. induction Hnd as [|r rows Hr Hnd IH]; intros gr; simpl.
  - destruct (decide (r' ∈ [] ∧ c' ∈ cols)) as [[H _]|_]; [|done]. by apply elem_of_nil in H.
  - rewrite IH, (lookup_update_cols (f r)) by done.
    destruct (decide (r' ∈ rows ∧ c' ∈ cols)) as [[Hin Hin']|Hout].
    + rewrite decide_False by (intros [-> _]; done).
      rewrite decide_True; [done|]. split; [|done]. by apply elem_of_cons; right.
    + destruct (decide (r' = r ∧ c' ∈ cols)) as [[-> Hin']|Hne].
      * rewrite decide_True; [done|]. split; [|done]. by apply elem_of_cons; left.
      * rewrite decide_False; [done|]. intros [Hin Hin'].
        apply elem_of_cons in Hin as [-> | Hin]; [by apply Hne|by apply Hout].
Qed.

Lemma at_update_grid n (f : Z → Z → Cell → Cell) gr r c :
  wf_grid n gr →
  at_ (foldl (λ gr r, foldl (λ gr c, update (f r c) r c gr) gr (seqZ 0 n)) gr (seqZ 0 n)) r c =
    if decide (0 ≤ r < n ∧ 0 ≤ c < n) then f r c (at_ gr r c) else at_ gr r c.
Proof.
  intros Hwf. unfold at_. rewrite lookup_update_loops by apply NoDup_seqZ.
  destruct (decide (0 ≤ r < n ∧ 0 ≤ c < n)) as [[Hr Hc]|Hout].
  - rewrite decide_True by (rewrite !elem_of_seqZ; lia).
    destruct (wf_grid_lookup n gr r c Hwf Hr Hc) as [x ->]. done.
  - rewrite decide_False; [done|]. rewrite !elem_of_seqZ. lia.
Qed.

End GridLoops.

(** * The constraint map *)
Section MapFacts.

Context {V : Type}.

Implicit Types (m : list (string * V)) (k : string) (v : V).

Lemma set_fresh k v m : k ∉ JSMap.keys m → JSMap.set k v m = m ++ [(k, v)].
Proof.
  induction m as [|[k' v'] m IH]; simpl; intros Hk; [done|].
  rewrite bool_decide_eq_false_2 by (intros ->; apply Hk; by left).
  rewrite IH; [done|]. intros Hin. apply Hk. by right.
Qed.

Lemma set_keys_present k v m : k ∈ JSMap.keys m → JSMap.keys (JSMap.set k v m) = JSMap.keys m.
Proof.
  induction m as [|[k' v'] m IH]; simpl; intros Hk; [by apply elem_of_nil in Hk|].
  destruct (bool_decide (k = k')) eqn:Hkk; [done|]. simpl.
  apply bool_decide_eq_false in Hkk.
  apply elem_of_cons in Hk as [Hk|Hk]; [done|]. f_equal. by apply IH.
Qed.

Lemma set_keys k v m :
  JSMap.keys (JSMap.set k v m) =
    if decide (k ∈ JSMap.keys m) then JSMap.keys m else JSMap.keys m ++ [k].
Proof.
  destruct (decide (k ∈ JSMap.keys m)) as [Hin|Hout].
  - by apply set_keys_present.
  - rewrite set_fresh by done. unfold JSMap.keys. by rewrite fmap_app.
Qed.

Lemma set_NoDup k v m : NoDup (JSMap.keys m) → NoDup (JSMap.keys (JSMap.set k v m)).
Proof.
  intros Hnd. rewrite set_keys. destruct (decide _) as [|Hout]; [done|].
  apply NoDup_app. split; [done|]. split; [|apply NoDup_singleton].
  intros x Hx Hx'. apply list_elem_of_singleton in Hx'. by subst.
Qed.

Lemma set_elem_of k v m k' v' :
  NoDup (JSMap.keys m) →
  (k', v') ∈ JSMap.set k v m ↔ (k' = k ∧ v' = v) ∨ (k' ≠ k ∧ (k', v') ∈ m).
Proof.
  induction m as [|[k0 v0] m IH]; simpl; intros Hnd.
  - rewrite list_elem_of_singleton. split.
    + intros [= -> ->]. by left.
    + intros [[-> ->]|[_ H]]; [done|]. by apply elem_of_nil in H.
  - apply NoDup_cons in Hnd as [Hk0 Hnd].
    destruct (bool_decide (k = k0)) eqn:Hkk.
    + apply bool_decide_eq_true in Hkk as ->. rewrite !elem_of_cons. split.
      * intros [[= -> ->]|Hin]; [by left|]. right.
        split; [|by right]. intros ->. apply Hk0.
        apply list_elem_of_fmap. by exists (k0, v').
      * intros [[-> ->]|[Hne [[= -> ->]|Hin]]]; [by left|done|by right].
    + apply bool_decide_eq_false in Hkk. rewrite !elem_of_cons, IH by done. split.
      * intros [[= -> ->]|[Heq|[Hne Hin]]]; [right|by left|right].
        -- split; [done|by left].
        -- split; [done|by right].
      * intros [Heq|[Hne [Heq|Hin]]]; [right; by left|by left|right; right; by split].
Qed.

(** Writing a key again leaves one entry, holding the last value. *)
Lemma set_set k v v' m : JSMap.set k v (JSMap.set k v' m) = JSMap.set k v m.
Proof.
  induction m as [|[k0 v0] m IH]; simpl.
  - by rewrite bool_decide_eq_true_2.
  - destruct (bool_decide (k = k0)) eqn:Hkk; simpl; rewrite Hkk; [done|]. by rewrite IH.
Qed.

End MapFacts.

(** * Immutable cells, [clear] and the constraint map of the grid store *)
Section GridStoreMore.

Import GridSystem.

Implicit Types (gr : list (list Cell)) (g : GridSystem.t) (r c : Z).

Lemma store_ext g g' :
  size g = size g' → grid g = grid g' → constraints g = constraints g' → g = g'.
Proof. destruct g, g'. simpl. by intros -> -> ->. Qed.

Lemma setCells_size calls g : size (setCells g calls) = size g.
Proof.
  revert g. induction calls as [|call calls IH]; intros g; [done|].
  unfold setCells in *. simpl. by rewrite IH, setCell_size.
Qed.

Lemma getCell_in g r c :
  0 ≤ r < size g → 0 ≤ c < size g → getCell g r c = Some (cell g r c).
Proof.
  intros Hr Hc. unfold getCell.
  by rewrite (proj2 (isValidPosition_true g r c)).
Qed.

Lemma isValidPosition_size g g' r c :
  size g = size g' → isValidPosition g r c = isValidPosition g' r c.
Proof. unfold isValidPosition. by intros ->. Qed.

Lemma clear_grid g :
  grid (clear g) =
    foldl (λ gr r,
      foldl (λ gr c, update (λ x, if immutable x then x else setValue Null x) r c gr)
            gr (seqZ 0 (size g)))
      (grid g) (seqZ 0 (size g)).
Proof.
  unfold clear. simpl.
  apply foldl_ext_eq. intros gr r. apply foldl_ext_eq. clear gr. intros gr c.
  destruct (immutable (at_ gr r c)) eqn:Hi; simpl.
  - symmetry. apply update_id. intros x Hx.
    unfold at_ in Hi. rewrite Hx in Hi. simpl in Hi. by rewrite Hi.
  - apply update_ext_at. intros x Hx.
    unfold at_ in Hi. rewrite Hx in Hi. simpl in Hi. by rewrite Hi.
Qed.

Lemma clear_cell g r c :
  wf g → cell (clear g) r c = if immutable (cell g r c) then cell g r c else emptyCell.
Proof.
  intros Hwf. unfold cell. rewrite clear_grid.
  rewrite (at_update_grid (size g)
             (λ _ _ x, if immutable x then x else setValue Null x)) by done.
  destruct (decide (0 ≤ r < size g ∧ 0 ≤ c < size g)) as [Hin|Hout].
  - by destruct (at_ (grid g) r c) as [v []].
  - unfold at_. by rewrite (wf_grid_lookup_outside (size g)).
Qed.

Lemma clear_clear g : wf g → clear (clear g) = clear g.
Proof.
  intros Hwf. pose proof (wf_clear g Hwf) as Hwf'.
  apply store_ext; [done| |done].
  apply (wf_grid_ext (size g)); [by apply wf_clear|done|].
  intros r c _ _. change (cell (clear (clear g)) r c = cell (clear g) r c).
  rewrite (clear_cell (clear g)), clear_cell by done.
  by destruct (cell g r c) as [v []].
Qed.

End GridStoreMore.

(** [clear] on a grid store: every cell that is not immutable becomes the
    empty cell, immutable cells keep their value, the size and the
    constraint map are not touched, and clearing twice is clearing once. *)
Theorem clear_empties_exactly_the_mutable_cells (g : GridSystem.t) :
  GridSystem.wf g →
  GridSystem.size (GridSystem.clear g) = GridSystem.size g ∧
  GridSystem.constraints (GridSystem.clear g) = GridSystem.constraints g ∧
  GridSystem.wf (GridSystem.clear g) ∧
  (∀ r c, GridSystem.cell (GridSystem.clear g) r c =
            if immutable (GridSystem.cell g r c) then GridSystem.cell g r c
            else GridSystem.emptyCell) ∧
  GridSystem.clear (GridSystem.clear g) = GridSystem.clear g.
Proof.
  intros Hwf. split; [done|]. split; [done|]. split; [by apply wf_clear|].
  split; [|by apply clear_clear]. intros r c. by apply clear_cell.
Qed.

Lemma clear_empties_exactly_the_mutable_cells_witness :
  GridSystem.wf (setCells grid2_moon [(1, 1, Orange)]) ∧
  value (GridSystem.cell (setCells grid2_moon [(1, 1, Orange)]) 1 1) = Orange ∧
  GridSystem.cell (GridSystem.clear (setCells grid2_moon [(1, 1, Orange)])) 1 1 =
    GridSystem.emptyCell ∧
  GridSystem.cell (GridSystem.clear (setCells grid2_moon [(1, 1, Orange)])) 0 0 =
    mkCell Moon true.
Proof.
  assert (Hwf : GridSystem.wf (setCells grid2_moon [(1, 1, Orange)])).
  { split; [reflexivity|]. repeat constructor. }
  destruct (clear_empties_exactly_the_mutable_cells _ Hwf) as (_ & _ & _ & Hcell & _).
  split; [exact Hwf|]. split; [reflexivity|].
  rewrite !Hcell. split; reflexivity.
Defined.

(** [setImmutable] succeeds exactly inside the grid, whatever the cell held
    before (an immutable cell is overwritten too).  The cell then reads
    back as the given value, immutable; no other cell changes; and neither
    later [setCell] calls nor [clear] change what the cell holds. *)
Theorem setImmutable_fixes_the_cell (g : GridSystem.t) (r c : Z) (v : Value) :
  GridSystem.wf g →
  let res := GridSystem.setImmutable g r c v in
  (res.2 = true ↔ 0 ≤ r < GridSystem.size g ∧ 0 ≤ c < GridSystem.size g) ∧
  (res.2 = false → res.1 = g) ∧
  (res.2 = true →
     GridSystem.wf res.1 ∧
     GridSystem.size res.1 = GridSystem.size g ∧
     GridSystem.constraints res.1 = GridSystem.constraints g ∧
     GridSystem.getCell res.1 r c = Some (mkCell v true) ∧
     (∀ r' c', (r', c') ≠ (r, c) →
        GridSystem.getCell res.1 r' c' = GridSystem.getCell g r' c') ∧
     (∀ calls, GridSystem.getCell (setCells res.1 calls) r c = Some (mkCell v true)) ∧
     GridSystem.getCell (GridSystem.clear res.1) r c = Some (mkCell v true)).
Proof.
  intros Hwf res. subst res. unfold GridSystem.setImmutable.
  destruct (GridSystem.isValidPosition g r c) eqn:Hv; simpl.
  - apply isValidPosition_true in Hv as Hb. destruct Hb as [Hr Hc].
    split; [done|]. split; [done|]. intros _.
    set (g' := GridSystem.mk _ _ _).
    assert (Hwf' : GridSystem.wf g') by (by apply wf_grid_update).
    assert (Hcell : GridSystem.cell g' r c = mkCell v true).
    { unfold GridSystem.cell. simpl.
      by rewrite at_update_eq by (by eapply wf_grid_lookup). }
    split; [done|]. split; [done|]. split; [done|]. split; [|split; [|split]].
    + by rewrite getCell_in, Hcell.
    + intros r' c' Hne. unfold GridSystem.getCell.
      rewrite (isValidPosition_size g' g) by done.
      unfold GridSystem.cell. simpl. by rewrite at_update_ne.
    + intros calls. rewrite getCell_in by (by rewrite setCells_size).
      rewrite setCells_keeps_immutable; by rewrite Hcell.
    + rewrite getCell_in by done. rewrite clear_cell by done. by rewrite Hcell.
  - split; [|done]. split; [done|]. intros Hb.
    apply (isValidPosition_true g r c) in Hb. congruence.
Qed.

Lemma setImmutable_fixes_the_cell_witness :
  GridSystem.wf grid2_moon ∧
  GridSystem.getCell
    (setCells (GridSystem.setImmutable grid2_moon 0 0 Orange).1
              [(0, 0, Moon); (0, 0, Null)]) 0 0 = Some (mkCell Orange true).
Proof.
  assert (Hwf : GridSystem.wf grid2_moon).
  { split; [reflexivity|]. repeat constructor. }
  destruct (setImmutable_fixes_the_cell grid2_moon 0 0 Orange Hwf) as (_ & _ & Hok).
  split; [exact Hwf|]. apply Hok. reflexivity.
Defined.

(** [addConstraint] succeeds exactly when both cells are inside the grid
    and then writes the constraint under its key: a new key is appended
    after the present ones, a present key keeps its place and gets the new
    constraint, and every other entry stays.  The cells are not touched. *)
Theorem addConstraint_writes_under_its_key
    (g : GridSystem.t) (r1 c1 r2 c2 : Z) (ty : ConstraintType) :
  let k := GridSystem.constraintId r1 c1 r2 c2 in
  let con := mkConstraint (mkPos r1 c1) (mkPos r2 c2) ty in
  let res := GridSystem.addConstraint g r1 c1 r2 c2 ty in
  (res.2 = true ↔
     (0 ≤ r1 < GridSystem.size g ∧ 0 ≤ c1 < GridSystem.size g) ∧
     (0 ≤ r2 < GridSystem.size g ∧ 0 ≤ c2 < GridSystem.size g)) ∧
  (res.2 = false → res.1 = g) ∧
  (res.2 = true →
     GridSystem.size res.1 = GridSystem.size g ∧
     GridSystem.grid res.1 = GridSystem.grid g ∧
     (k ∉ JSMap.keys (GridSystem.constraints g) →
        GridSystem.constraints res.1 = GridSystem.constraints g ++ [(k, con)]) ∧
     (k ∈ JSMap.keys (GridSystem.constraints g) →
        JSMap.keys (GridSystem.constraints res.1) = JSMap.keys (GridSystem.constraints g)) ∧
     (NoDup (JSMap.keys (GridSystem.constraints g)) →
        NoDup (JSMap.keys (GridSystem.constraints res.1)) ∧
        ∀ k' x, (k', x) ∈ GridSystem.constraints res.1 ↔
                (k' = k ∧ x = con) ∨ (k' ≠ k ∧ (k', x) ∈ GridSystem.constraints g))).
Proof.
  intros k con res. subst res. unfold GridSystem.addConstraint.
  destruct (GridSystem.isValidPosition g r1 c1) eqn:Hv1; simpl.
  - destruct (GridSystem.isValidPosition g r2 c2) eqn:Hv2; simpl.
    + apply isValidPosition_true in Hv1, Hv2.
      split; [done|]. split; [done|]. intros _.
      split; [done|]. split; [done|]. split; [|split].
      * apply set_fresh.
      * apply set_keys_present.
      * intros Hnd. split; [by apply set_NoDup|]. intros k' x. by apply set_elem_of.
    + split; [|done]. split; [done|]. intros [_ Hb].
      apply (isValidPosition_true g r2 c2) in Hb. congruence.
  - split; [|done]. split; [done|]. intros [Hb _].
    apply (isValidPosition_true g r1 c1) in Hb. congruence.
Qed.

(** * The validator as a whole *)
Section ValidatorFacts.

Import GridSystem RuleValidator.

Implicit Types (g : GridSystem.t).

Lemma bind_if_filter {A B} (P : A → Prop) `{!∀ x, Decision (P x)} (F : A → B) (l : list A) :
  l ≫= (λ x, if decide (P x) then [F x] else []) = F <$> filter P l.
Proof.
  induction l as [|x l IH]; [done|].
  rewrite bind_cons, filter_cons, IH. by destruct (decide (P x)).
Qed.

Lemma bind_nil_inv {A B} (F : A → list B) (l : list A) :
  l ≫= F = [] → ∀ x, x ∈ l → F x = [].
Proof.
  induction l as [|y l IH]; intros Hnil x Hx; [by apply elem_of_nil in Hx|].
  rewrite bind_cons in Hnil. apply app_eq_nil in Hnil as [Hy Hl].
  apply elem_of_cons in Hx as [-> | Hx]; [done|by apply IH].
Qed.

Lemma filter_nil_inv {A} (P : A → Prop) `{!∀ x, Decision (P x)} (l : list A) :
  filter P l = [] → ∀ x, x ∈ l → ¬ P x.
Proof.
  intros Hnil x Hx HP.
  assert (Hin : x ∈ filter P l) by (by apply list_elem_of_filter).
  rewrite Hnil in Hin. by apply elem_of_nil in Hin.
Qed.

Lemma constraintStep_eq g errs con :
  constraintStep g errs con =
    errs ++ (if decide (violated g con) then [constraintRecord g con] else []).
Proof.
  unfold constraintStep.
  destruct (decide (violated g con)) as [Hv|Hv];
    unfold violated, valueAt in Hv; unfold constraintRecord, valueAt;
    set (v1 := value (cell g (row (cell1 con)) (col (cell1 con)))) in *;
    set (v2 := value (cell g (row (cell2 con)) (col (cell2 con)))) in *.
  - destruct Hv as (H1 & H2 & H3).
    rewrite (bool_decide_eq_false_2 _ H1), (bool_decide_eq_false_2 _ H2). simpl.
    destruct (ctype con); simpl.
    + by rewrite (bool_decide_eq_false_2 _ H3).
    + by rewrite (bool_decide_eq_true_2 _ H3).
  - rewrite app_nil_r.
    destruct (decide (v1 = Null)) as [H1|H1];
      [by rewrite (bool_decide_eq_true_2 _ H1)|].
    destruct (decide (v2 = Null)) as [H2|H2];
      [by rewrite (bool_decide_eq_true_2 _ H2), andb_false_r|].
    rewrite (bool_decide_eq_false_2 _ H1), (bool_decide_eq_false_2 _ H2). simpl.
    destruct (ctype con); simpl.
    + destruct (decide (v1 = v2)) as [He|He];
        [by rewrite (bool_decide_eq_true_2 _ He)|]. by destruct Hv.
    + destruct (decide (v1 = v2)) as [He|He];
        [|by rewrite (bool_decide_eq_false_2 _ He)]. by destruct Hv.
Qed.

Lemma validateConstraints_eq g :
  validateConstraints g = constraintRecord g <$> filter (violated g) (getConstraints g).
Proof.
  unfold validateConstraints.
  etrans; [apply foldl_ext_eq; intros; apply constraintStep_eq|].
  rewrite (foldl_append_bind
             (λ con, if decide (violated g con) then [constraintRecord g con] else [])).
  simpl. apply bind_if_filter.
Qed.

Lemma overlongAt_nil line size : overlongAt line size = [] ↔ noTriple line size.
Proof.
  unfold overlongAt, noTriple. split.
  - intros Hnil i Hi Hne [H1 H2].
    apply (filter_nil_inv _ _ Hnil i); [apply elem_of_seqZ; lia|].
    apply runLength_gt_2; [lia|]. split; [lia|done].
  - intros Hno. apply filter_none_in. intros i Hi Hrun.
    apply elem_of_seqZ in Hi.
    apply runLength_gt_2 in Hrun as (Hi2 & Hne & H1 & H2); [|lia].
    apply (Hno i); [lia|done..].
Qed.

Lemma validateAdjacentLimits_nil g :
  validateAdjacentLimits g = [] ↔
    ∀ i, 0 ≤ i < size g → noTriple (rowLine g i) (size g) ∧ noTriple (colLine g i) (size g).
Proof.
  rewrite validateAdjacentLimits_eq. split.
  - intros Hnil i Hi. apply app_eq_nil in Hnil as [Hh Hv].
    assert (Hin : i ∈ seqZ 0 (size g)) by (apply elem_of_seqZ; lia).
    apply bind_nil_inv with (x := i) in Hh; [|done].
    apply bind_nil_inv with (x := i) in Hv; [|done].
    unfold horizontalWindows in Hh. unfold verticalWindows in Hv.
    apply fmap_nil_inv in Hh, Hv. by split; apply overlongAt_nil.
  - intros Hall.
    rewrite !bind_nil_in; [done| |]; intros i Hi; apply elem_of_seqZ in Hi;
      destruct (Hall i) as [Hr Hc]; try lia.
    + unfold verticalWindows. by rewrite (proj2 (overlongAt_nil _ _) Hc).
    + unfold horizontalWindows. by rewrite (proj2 (overlongAt_nil _ _) Hr).
Qed.

Lemma exceeds_none line size :
  exceeds line size Orange || exceeds line size Moon = false ↔ balanced line size.
Proof.
  unfold exceeds, balanced. rewrite orb_false_iff, !bool_decide_eq_false. lia.
Qed.

Lemma validateBalance_nil g :
  validateBalance g = [] ↔
    ∀ i, 0 ≤ i < size g → balanced (rowLine g i) (size g) ∧ balanced (colLine g i) (size g).
Proof.
  rewrite validateBalance_eq. split.
  - intros Hnil i Hi. apply app_eq_nil in Hnil as [Hh Hv].
    assert (Hin : i ∈ seqZ 0 (size g)) by (apply elem_of_seqZ; lia).
    apply bind_nil_inv with (x := i) in Hh; [|done].
    apply bind_nil_inv with (x := i) in Hv; [|done].
    unfold rowRecord in Hh. unfold colRecord in Hv. simpl in Hh, Hv.
    split; apply exceeds_none.
    + by destruct (exceeds (rowLine g i) _ Orange || _).
    + by destruct (exceeds (colLine g i) _ Orange || _).
  - intros Hall.
    rewrite !bind_nil_in; [done| |]; intros i Hi; apply elem_of_seqZ in Hi;
      destruct (Hall i) as [Hr Hc]; try lia.
    + unfold colRecord. simpl. by rewrite (proj2 (exceeds_none _ _) Hc).
    + unfold rowRecord. simpl. by rewrite (proj2 (exceeds_none _ _) Hr).
Qed.

Lemma validateConstraints_nil g :
  validateConstraints g = [] ↔ ∀ con, con ∈ getConstraints g → ¬ violated g con.
Proof.
  rewrite validateConstraints_eq. split.
  - intros Hnil. apply fmap_nil_inv in Hnil. exact (filter_nil_inv _ _ Hnil).
  - intros Hall. by rewrite filter_none_in.
Qed.

Lemma isValid_true g :
  isValid g = true ↔
    validateAdjacentLimits g = [] ∧ validateBalance g = [] ∧ validateConstraints g = [].
Proof.
  unfold isValid, validateAll. simpl.
  rewrite !andb_true_iff, !bool_decide_eq_true, !length_zero_iff_nil. tauto.
Qed.

Lemma foldl_snoc_fmap {A B} (F : B → A) (l : list B) (acc : list A) :
  foldl (λ acc x, acc ++ [F x]) acc l = acc ++ (F <$> l).
Proof.
  rewrite (foldl_append_bind (λ x, [F x])).
  assert (Hl : l ≫= (λ x, [F x]) = F <$> l); [|by rewrite Hl].
  induction l as [|x l IH]; [done|]. by rewrite bind_cons, fmap_cons, IH.
Qed.

Lemma getErrorCells_eq g :
  getErrorCells g =
    (validateAdjacentLimits g ≫= cellsOfAdjacent) ++
    (validateBalance g ≫= cellsOfBalance (size g)) ++
    (validateConstraints g ≫= cellsOfConstraint).
Proof.
  unfold getErrorCells, validateAll. simpl.
  etrans; [apply foldl_ext_eq; intros acc e; reflexivity|].
  rewrite (foldl_append_bind cellsOfConstraint).
  rewrite app_assoc. f_equal.
  etrans.
  { apply foldl_ext_eq with (f' := λ acc e, acc ++ cellsOfBalance (size g) e).
    intros acc e. unfold cellsOfBalance.
    destruct (direction e); apply foldl_snoc_fmap. }
  rewrite (foldl_append_bind (cellsOfBalance (size g))). f_equal.
  etrans.
  { apply foldl_ext_eq with (f' := λ acc e, acc ++ cellsOfAdjacent e).
    intros acc e. destruct e; apply foldl_snoc_fmap. }
  by rewrite (foldl_append_bind cellsOfAdjacent).
Qed.

Lemma length_bind_const {A B} (F : A → list B) (k : nat) (l : list A) :
  (∀ x, x ∈ l → length (F x) = k) → length (l ≫= F) = (length l * k)%nat.
Proof.
  induction l as [|x l IH]; intros Hk; [done|].
  rewrite bind_cons, length_app, Hk, IH; [done| |by left].
  intros y Hy. apply Hk. by right.
Qed.

(** The records of [validateAdjacentLimits] are windows of three cells. *)
Lemma validateAdjacentLimits_elem g e :
  e ∈ validateAdjacentLimits g ↔
    (∃ r i, 0 ≤ r < size g ∧ i ∈ overlongAt (rowLine g r) (size g) ∧
            e = AdjHorizontal r (i - 2) i (rowLine g r i)) ∨
    (∃ c i, 0 ≤ c < size g ∧ i ∈ overlongAt (colLine g c) (size g) ∧
            e = AdjVertical c (i - 2) i (colLine g c i)).
Proof.
  rewrite validateAdjacentLimits_eq, elem_of_app, !list_elem_of_bind.
  unfold horizontalWindows, verticalWindows. split.
  - intros [(r & He & Hr)|(c & He & Hc)].
    + left. apply list_elem_of_fmap in He as (i & -> & Hi).
      apply elem_of_seqZ in Hr. exists r, i. split; [lia|done].
    + right. apply list_elem_of_fmap in He as (i & -> & Hi).
      apply elem_of_seqZ in Hc. exists c, i. split; [lia|done].
  - intros [(r & i & Hr & Hi & ->)|(c & i & Hc & Hi & ->)].
    + left. exists r. split; [|apply elem_of_seqZ; lia].
      apply list_elem_of_fmap. by exists i.
    + right. exists c. split; [|apply elem_of_seqZ; lia].
      apply list_elem_of_fmap. by exists i.
Qed.

Lemma cellsOfAdjacent_length g e :
  e ∈ validateAdjacentLimits g → length (cellsOfAdjacent e) = 3%nat.
Proof.
  intros He. apply validateAdjacentLimits_elem in He
    as [(r & i & _ & _ & ->)|(c & i & _ & _ & ->)]; simpl;
    rewrite length_fmap, length_seqZ; lia.
Qed.

Lemma cellsOfBalance_length n e : length (cellsOfBalance n e) = Z.to_nat n.
Proof. unfold cellsOfBalance. destruct (direction e); by rewrite length_fmap, length_seqZ. Qed.

Lemma validateBalance_size g : validateBalance g ≠ [] → 0 < size g.
Proof.
  intros Hne. destruct (decide (0 < size g)) as [|Hn]; [done|].
  destruct Hne. rewrite validateBalance_eq, seqZ_nil by lia. done.
Qed.

Lemma getErrorCells_length g :
  length (getErrorCells g) =
    (length (validateAdjacentLimits g) * 3 +
     (length (validateBalance g) * Z.to_nat (size g) +
      length (validateConstraints g) * 2))%nat.
Proof.
  rewrite getErrorCells_eq, !length_app.
  rewrite (length_bind_const cellsOfAdjacent 3) by apply cellsOfAdjacent_length.
  rewrite (length_bind_const (cellsOfBalance (size g)) (Z.to_nat (size g)))
    by (intros; apply cellsOfBalance_length).
  by rewrite (length_bind_const cellsOfConstraint 2) by done.
Qed.

End ValidatorFacts.

(** [validateConstraints] returns, in the order of the constraint map, one
    record for each constraint whose two cells are filled with values in
    the wrong relation, carrying the two values found.  A constraint with
    an empty cell is never reported: every record holds two symbols. *)
Theorem validateConstraints_reports_the_violated_constraints (g : GridSystem.t) :
  RuleValidator.validateConstraints g =
    constraintRecord g <$> filter (violated g) (GridSystem.getConstraints g) ∧
  (∀ e, e ∈ RuleValidator.validateConstraints g →
     RuleValidator.value1 e ≠ Null ∧ RuleValidator.value2 e ≠ Null ∧
     match RuleValidator.constraintType e with
     | equal => RuleValidator.value1 e ≠ RuleValidator.value2 e
     | notequal => RuleValidator.value1 e = RuleValidator.value2 e
     end).
Proof.
  split; [apply validateConstraints_eq|].
  intros e He. rewrite validateConstraints_eq in He.
  apply list_elem_of_fmap in He as (con & -> & Hcon).
  apply list_elem_of_filter in Hcon as [Hv _]. exact Hv.
Qed.

(** [isValid] is [true] exactly when the grid breaks none of the three
    rules: no row or column has three equal symbols in a row, no row or
    column holds a symbol more than [ceil(size / 2)] times, and no
    constraint has both cells filled in the wrong relation.  Empty cells
    never make a grid invalid. *)
Theorem isValid_iff_no_rule_is_broken (g : GridSystem.t) :
  (RuleValidator.isValid g = true ↔ obeysRules g) ∧
  (RuleValidator.isValid g = true ↔
     RuleValidator.validateAdjacentLimits g = [] ∧
     RuleValidator.validateBalance g = [] ∧
     RuleValidator.validateConstraints g = []).
Proof.
  split; [|apply isValid_true].
  rewrite isValid_true, validateAdjacentLimits_nil, validateBalance_nil,
    validateConstraints_nil.
  unfold obeysRules. split.
  - intros (Ha & Hb & Hc). split; [|done]. intros i Hi.
    destruct (Ha i Hi), (Hb i Hi). done.
  - intros [Hl Hc]. split; [|split; [|done]]; intros i Hi;
      destruct (Hl i Hi) as (? & ? & ? & ?); done.
Qed.

(** [getErrorCells] lists three cells for each adjacency record, [size]
    cells for each balance record and two cells for each constraint
    record, without removing repeated cells; the list is empty exactly
    when [isValid] holds. *)
Theorem getErrorCells_lists_every_cell_of_every_record (g : GridSystem.t) :
  length (RuleValidator.getErrorCells g) =
    (length (RuleValidator.validateAdjacentLimits g) * 3 +
     (length (RuleValidator.validateBalance g) * Z.to_nat (GridSystem.size g) +
      length (RuleValidator.validateConstraints g) * 2))%nat ∧
  (RuleValidator.getErrorCells g = [] ↔ RuleValidator.isValid g = true).
Proof.
  split; [apply getErrorCells_length|].
  rewrite isValid_true. split.
  - intros Hnil. apply (f_equal length) in Hnil.
    rewrite getErrorCells_length in Hnil. simpl in Hnil.
    destruct (RuleValidator.validateAdjacentLimits g); [|simpl in Hnil; lia].
    destruct (RuleValidator.validateConstraints g);
      [|simpl in Hnil; rewrite Nat.add_comm in Hnil; simpl in Hnil; lia].
    destruct (RuleValidator.validateBalance g) as [|e l] eqn:Hbal; [done|].
    assert (Hsize : 0 < GridSystem.size g) by (apply validateBalance_size; by rewrite Hbal).
    simpl in Hnil. lia.
  - intros (Ha & Hb & Hc). by rewrite getErrorCells_eq, Ha, Hb, Hc.
Qed.

Section ErrorCells.

Import GridSystem RuleValidator.

Implicit Types (g : GridSystem.t) (r c : Z).

Lemma overlongAt_elem line size i :
  i ∈ overlongAt line size ↔
    2 ≤ i < size ∧ line i ≠ Null ∧ line (i - 1) = line i ∧ line (i - 2) = line i.
Proof.
  unfold overlongAt. rewrite list_elem_of_filter, elem_of_seqZ. split.
  - intros [Hrun Hi]. apply runLength_gt_2 in Hrun; [|lia]. split; [lia|tauto].
  - intros (Hi & Hrun). split; [|lia]. apply runLength_gt_2; [lia|]. split; [lia|done].
Qed.

Lemma getErrorCells_elem g x :
  x ∈ getErrorCells g ↔
    (∃ e, e ∈ validateAdjacentLimits g ∧ x ∈ cellsOfAdjacent e) ∨
    (∃ e, e ∈ validateBalance g ∧ x ∈ cellsOfBalance (size g) e) ∨
    (∃ e, e ∈ validateConstraints g ∧ x ∈ cellsOfConstraint e).
Proof.
  rewrite getErrorCells_eq, !elem_of_app, !list_elem_of_bind.
  split; intros [(e & H1 & H2)|[(e & H1 & H2)|(e & H1 & H2)]]; eauto.
Qed.

Lemma cellsOfAdjacent_type e x : x ∈ cellsOfAdjacent e → e_type x = adjacent.
Proof. destruct e; simpl; intros Hx; apply list_elem_of_fmap in Hx as (? & -> & _); done. Qed.

Lemma cellsOfBalance_type n e x : x ∈ cellsOfBalance n e → e_type x = balance.
Proof.
  unfold cellsOfBalance.
  destruct (direction e); intros Hx; apply list_elem_of_fmap in Hx as (? & -> & _); done.
Qed.

Lemma cellsOfConstraint_type e x : x ∈ cellsOfConstraint e → e_type x = constraint.
Proof.
  unfold cellsOfConstraint. intros Hx.
  apply elem_of_cons in Hx as [-> | Hx]; [done|].
  apply list_elem_of_singleton in Hx as ->. done.
Qed.

Lemma adjacent_cell_elem g r c :
  (∃ e, e ∈ validateAdjacentLimits g ∧ mkErrorCell r c adjacent ∈ cellsOfAdjacent e) ↔
    (0 ≤ r < size g ∧ inTriple (rowLine g r) (size g) c) ∨
    (0 ≤ c < size g ∧ inTriple (colLine g c) (size g) r).
Proof.
  split.
  - intros (e & He & Hx). apply validateAdjacentLimits_elem in He
      as [(r' & i & Hr & Hi & ->)|(c' & i & Hc & Hi & ->)]; simpl in Hx;
      apply list_elem_of_fmap in Hx as (j & [= -> ->] & Hj);
      apply elem_of_seqZ in Hj; apply overlongAt_elem in Hi as (Hi & Htriple).
    + left. split; [done|]. exists i. split; [lia|done].
    + right. split; [done|]. exists i. split; [lia|done].
  - intros [(Hr & i & Hi & Htriple)|(Hc & i & Hi & Htriple)].
    + exists (AdjHorizontal r (i - 2) i (rowLine g r i)). split.
      * apply validateAdjacentLimits_elem. left. exists r, i.
        split; [done|]. split; [|done]. apply overlongAt_elem. split; [lia|done].
      * simpl. apply list_elem_of_fmap. exists c. split; [done|].
        apply elem_of_seqZ. lia.
    + exists (AdjVertical c (i - 2) i (colLine g c i)). split.
      * apply validateAdjacentLimits_elem. right. exists c, i.
        split; [done|]. split; [|done]. apply overlongAt_elem. split; [lia|done].
      * simpl. apply list_elem_of_fmap. exists r. split; [done|].
        apply elem_of_seqZ. lia.
Qed.

Lemma exceeds_some line size :
  exceeds line size Orange || exceeds line size Moon = true ↔ ¬ balanced line size.
Proof.
  rewrite <-exceeds_none. by destruct (exceeds line size Orange || exceeds line size Moon).
Qed.

Lemma balance_cell_elem g r c :
  (∃ e, e ∈ validateBalance g ∧ mkErrorCell r c balance ∈ cellsOfBalance (size g) e) ↔
    (0 ≤ r < size g ∧ 0 ≤ c < size g) ∧
    (¬ balanced (rowLine g r) (size g) ∨ ¬ balanced (colLine g c) (size g)).
Proof.
  rewrite validateBalance_eq. split.
  - intros (e & He & Hx). apply elem_of_app in He as [He|He];
      apply list_elem_of_bind in He as (i & He & Hi); apply elem_of_seqZ in Hi.
    + unfold rowRecord in He. simpl in He.
      destruct (exceeds (rowLine g i) _ Orange || _) eqn:Hex;
        [|by apply elem_of_nil in He].
      apply list_elem_of_singleton in He as ->. unfold cellsOfBalance in Hx. simpl in Hx.
      apply list_elem_of_fmap in Hx as (j & [= -> ->] & Hj). apply elem_of_seqZ in Hj.
      split; [lia|]. left. by apply exceeds_some.
    + unfold colRecord in He. simpl in He.
      destruct (exceeds (colLine g i) _ Orange || _) eqn:Hex;
        [|by apply elem_of_nil in He].
      apply list_elem_of_singleton in He as ->. unfold cellsOfBalance in Hx. simpl in Hx.
      apply list_elem_of_fmap in Hx as (j & [= -> ->] & Hj). apply elem_of_seqZ in Hj.
      split; [lia|]. right. by apply exceeds_some.
  - intros [[Hr Hc] [Hrow|Hcol]].
    + apply exceeds_some in Hrow.
      exists (mkBalanceError BalRow r (countIn (rowLine g r) (size g) Orange)
                             (countIn (rowLine g r) (size g) Moon) true).
      split.
      * apply elem_of_app. left. apply list_elem_of_bind. exists r.
        split; [|apply elem_of_seqZ; lia]. unfold rowRecord. simpl. rewrite Hrow. by left.
      * unfold cellsOfBalance. simpl. apply list_elem_of_fmap. exists c.
        split; [done|]. apply elem_of_seqZ. lia.
    + apply exceeds_some in Hcol.
      exists (mkBalanceError BalColumn c (countIn (colLine g c) (size g) Orange)
                             (countIn (colLine g c) (size g) Moon) true).
      split.
      * apply elem_of_app. right. apply list_elem_of_bind. exists c.
        split; [|apply elem_of_seqZ; lia]. unfold colRecord. simpl. rewrite Hcol. by left.
      * unfold cellsOfBalance. simpl. apply list_elem_of_fmap. exists r.
        split; [done|]. apply elem_of_seqZ. lia.
Qed.

Lemma constraint_cell_elem g r c :
  (∃ e, e ∈ validateConstraints g ∧ mkErrorCell r c constraint ∈ cellsOfConstraint e) ↔
    ∃ con, con ∈ getConstraints g ∧ violated g con ∧
           (cell1 con = mkPos r c ∨ cell2 con = mkPos r c).
Proof.
  rewrite validateConstraints_eq. split.
  - intros (e & He & Hx). apply list_elem_of_fmap in He as (con & -> & Hcon).
    apply list_elem_of_filter in Hcon as [Hv Hcon]. exists con.
    split; [done|]. split; [done|].
    unfold cellsOfConstraint, constraintRecord in Hx. simpl in Hx.
    apply elem_of_cons in Hx as [Hx|Hx].
    + left. injection Hx as -> ->. by destruct (cell1 con).
    + right. apply list_elem_of_singleton in Hx. injection Hx as -> ->.
      by destruct (cell2 con).
  - intros (con & Hcon & Hv & Hcell). exists (constraintRecord g con). split.
    + apply list_elem_of_fmap. exists con. split; [done|]. by apply list_elem_of_filter.
    + unfold cellsOfConstraint, constraintRecord. simpl.
      destruct Hcell as [-> | ->]; simpl; [by left|]. right. by left.
Qed.

End ErrorCells.

(** Which cells [getErrorCells] marks.  A cell is marked [adjacent] exactly
    when it lies in a window of three equal symbols of its row or of its
    column; [balance] exactly when its row or its column holds a symbol
    more than [ceil(size / 2)] times; [constraint] exactly when it is one
    of the two cells of a violated constraint. *)
Theorem getErrorCells_marks_the_cells_of_broken_rules (g : GridSystem.t) (r c : Z) :
  (RuleValidator.mkErrorCell r c RuleValidator.adjacent ∈ RuleValidator.getErrorCells g ↔
     (0 ≤ r < GridSystem.size g ∧ inTriple (rowLine g r) (GridSystem.size g) c) ∨
     (0 ≤ c < GridSystem.size g ∧ inTriple (colLine g c) (GridSystem.size g) r)) ∧
  (RuleValidator.mkErrorCell r c RuleValidator.balance ∈ RuleValidator.getErrorCells g ↔
     (0 ≤ r < GridSystem.size g ∧ 0 ≤ c < GridSystem.size g) ∧
     (¬ balanced (rowLine g r) (GridSystem.size g) ∨
      ¬ balanced (colLine g c) (GridSystem.size g))) ∧
  (RuleValidator.mkErrorCell r c RuleValidator.constraint ∈ RuleValidator.getErrorCells g ↔
     ∃ con, con ∈ GridSystem.getConstraints g ∧ violated g con ∧
            (cell1 con = mkPos r c ∨ cell2 con = mkPos r c)).
Proof.
  rewrite <-adjacent_cell_elem, <-balance_cell_elem, <-constraint_cell_elem.
  rewrite !getErrorCells_elem.
  split; [|split]; (split; [|by eauto]).
  - intros [H|[(e & _ & Hx)|(e & _ & Hx)]]; [done| |].
    + by apply cellsOfBalance_type in Hx.
    + by apply cellsOfConstraint_type in Hx.
  - intros [(e & _ & Hx)|[H|(e & _ & Hx)]]; [|done|].
    + by apply cellsOfAdjacent_type in Hx.
    + by apply cellsOfConstraint_type in Hx.
  - intros [(e & _ & Hx)|[(e & _ & Hx)|H]]; [| |done].
    + by apply cellsOfAdjacent_type in Hx.
    + by apply cellsOfBalance_type in Hx.
Qed.

(** * Hints *)
Section Hints.

Import GameManager.

Implicit Types (g : GridSystem.t) (m : GameManager.t) (r c : Z) (v : Value).

Lemma isAt_true p r c : isAt p r c = true ↔ p = mkPos r c.
Proof.
  unfold isAt. rewrite andb_true_iff, !bool_decide_eq_true. destruct p. simpl. split.
  - by intros [-> ->].
  - by intros [= -> ->].
Qed.

Lemma isAt_false p r c : isAt p r c = false ↔ p ≠ mkPos r c.
Proof. rewrite <-isAt_true. by destruct (isAt p r c). Qed.

Lemma opposite_ne v : opposite v ≠ v.
Proof. by destruct v. Qed.

Lemma opposite_filled v : opposite v ≠ Null.
Proof. by destruct v. Qed.

Lemma getCell_Some g r c x :
  GridSystem.getCell g r c = Some x ↔
    GridSystem.isValidPosition g r c = true ∧ x = GridSystem.cell g r c.
Proof.
  unfold GridSystem.getCell. destruct (GridSystem.isValidPosition g r c).
  - split; [by intros [= <-]|by intros [_ ->]].
  - split; [done|by intros [? _]].
Qed.

(** A returned value comes from a constraint of the list and is a symbol. *)
Lemma calculateHintIn_found g r c cons v :
  calculateHintIn g r c cons = Some (Some v) →
  v ≠ Null ∧ ∃ con, con ∈ cons ∧ suggests g con r c v.
Proof.
  induction cons as [|con cons IH]; simpl; [done|]. intros Hrun.
  assert (Hrest : calculateHintIn g r c cons = Some (Some v) →
                  v ≠ Null ∧ ∃ con', con' ∈ con :: cons ∧ suggests g con' r c v).
  { intros H. destruct (IH H) as (Hv & con' & Hin & Hs).
    split; [done|]. exists con'. split; [by right|done]. }
  destruct (isAt (cell1 con) r c || isAt (cell2 con) r c) eqn:Htouch; [|by apply Hrest].
  set (q := if isAt (cell1 con) r c then cell2 con else cell1 con) in *.
  destruct (GridSystem.getCell g (row q) (col q)) as [other|] eqn:Hother; [|done].
  apply getCell_Some in Hother as [Hq ->].
  destruct (decide (valueAt g q = Null)) as [Hnull|Hfilled].
  { unfold valueAt in Hnull. rewrite (bool_decide_eq_true_2 _ Hnull) in Hrun.
    by apply Hrest. }
  unfold valueAt in Hfilled. rewrite (bool_decide_eq_false_2 _ Hfilled) in Hrun.
  simpl in Hrun.
  assert (Hlink : (cell1 con = mkPos r c ∧ cell2 con = q) ∨
                  (cell2 con = mkPos r c ∧ cell1 con = q)).
  { subst q. destruct (isAt (cell1 con) r c) eqn:H1.
    - left. by apply isAt_true in H1.
    - right. simpl in Htouch. by apply isAt_true in Htouch. }
  destruct (ctype con) eqn:Hty; injection Hrun as <-.
  - split; [done|]. exists con. split; [by left|]. exists q. by rewrite Hty.
  - split; [apply opposite_filled|]. exists con. split; [by left|].
    exists q. by rewrite Hty.
Qed.

(** [null] is returned only when no constraint of the list suggests a value. *)
Lemma calculateHintIn_null g r c cons :
  calculateHintIn g r c cons = Some None → ∀ con v, con ∈ cons → ¬ suggests g con r c v.
Proof.
  induction cons as [|con cons IH]; simpl; intros Hrun con' v Hin;
    [by apply elem_of_nil in Hin|].
  destruct (isAt (cell1 con) r c || isAt (cell2 con) r c) eqn:Htouch.
  - set (q := if isAt (cell1 con) r c then cell2 con else cell1 con) in *.
    destruct (GridSystem.getCell g (row q) (col q)) as [other|] eqn:Hother; [|done].
    apply getCell_Some in Hother as [Hq ->].
    destruct (decide (valueAt g q = Null)) as [Hnull|Hfilled].
    + unfold valueAt in Hnull. rewrite (bool_decide_eq_true_2 _ Hnull) in Hrun.
      simpl in Hrun. apply elem_of_cons in Hin as [-> | Hin]; [|by apply IH].
      intros (q' & Hlink & _ & Hq' & _). apply Hq'.
      assert (q' = q) as ->; [|done]. subst q.
      destruct Hlink as [[H1 H2]|[H2 H1]].
      * by rewrite (proj2 (isAt_true _ _ _) H1).
      * destruct (isAt (cell1 con) r c) eqn:H1'; [|done].
        apply isAt_true in H1'. congruence.
    + unfold valueAt in Hfilled. rewrite (bool_decide_eq_false_2 _ Hfilled) in Hrun.
      simpl in Hrun. by destruct (ctype con).
  - apply elem_of_cons in Hin as [-> | Hin]; [|by apply IH].
    apply orb_false_iff in Htouch as [H1 H2]. apply isAt_false in H1, H2.
    intros (q' & [[? _]|[? _]] & _); done.
Qed.

(** With the cells of the constraints inside the grid no read fails. *)
Lemma calculateHintIn_returns g r c cons :
  (∀ con, con ∈ cons →
     GridSystem.isValidPosition g (row (cell1 con)) (col (cell1 con)) = true ∧
     GridSystem.isValidPosition g (row (cell2 con)) (col (cell2 con)) = true) →
  is_Some (calculateHintIn g r c cons).
Proof.
  induction cons as [|con cons IH]; simpl; intros Hin; [done|].
  assert (Hrest : is_Some (calculateHintIn g r c cons)).
  { apply IH. intros con' Hcon'. apply Hin. by right. }
  destruct (Hin con) as [H1 H2]; [by left|].
  destruct (isAt (cell1 con) r c || isAt (cell2 con) r c); [|done].
  set (q := if isAt (cell1 con) r c then cell2 con else cell1 con).
  assert (Hq : GridSystem.isValidPosition g (row q) (col q) = true).
  { subst q. by destruct (isAt (cell1 con) r c). }
  unfold GridSystem.getCell. rewrite Hq.
  destruct (negb _); [|done]. by destruct (ctype con).
Qed.

Lemma calculateHint_quiet m r c :
  constraintsInGrid (gridSystem m) →
  (∀ con v, con ∈ GridSystem.getConstraints (gridSystem m) →
            ¬ suggests (gridSystem m) con r c v) →
  calculateHint m r c = Some None.
Proof.
  intros Hin Hno. unfold calculateHint.
  destruct (calculateHintIn_returns (gridSystem m) r c _ Hin) as [[v|] Hrun]; [|done].
  apply calculateHintIn_found in Hrun as (_ & con & Hcon & Hs). by destruct (Hno con v).
Qed.

(** The cell is a candidate of [getHint]: empty and not immutable. *)
Lemma candidate_iff (x : Cell) :
  bool_decide (value x = Null) && negb (immutable x) = true ↔ x = GridSystem.emptyCell.
Proof. destruct x as [[] []]; simpl; split; done. Qed.

(** A found hint: the cells visited before are not candidates or get no
    value, and the cell found is a candidate with that value. *)
Lemma hintScan_found m cells r c v reason :
  hintScan m cells = Some (HintFound r c v reason) →
  reason = "Based on current constraints" ∧
  GridSystem.cell (gridSystem m) r c = GridSystem.emptyCell ∧
  calculateHint m r c = Some (Some v) ∧
  ∃ pre post, cells = pre ++ (r, c) :: post ∧
    ∀ p, p ∈ pre → GridSystem.cell (gridSystem m) p.1 p.2 = GridSystem.emptyCell →
         calculateHint m p.1 p.2 = Some None.
Proof.
  induction cells as [|[r' c'] cells IH]; simpl; [done|]. intros Hrun.
  assert (Hrest : hintScan m cells = Some (HintFound r c v reason) →
    (GridSystem.cell (gridSystem m) r' c' = GridSystem.emptyCell →
     calculateHint m r' c' = Some None) →
    reason = "Based on current constraints" ∧
    GridSystem.cell (gridSystem m) r c = GridSystem.emptyCell ∧
    calculateHint m r c = Some (Some v) ∧
    ∃ pre post, (r', c') :: cells = pre ++ (r, c) :: post ∧
      ∀ p, p ∈ pre → GridSystem.cell (gridSystem m) p.1 p.2 = GridSystem.emptyCell →
           calculateHint m p.1 p.2 = Some None).
  { intros H Hquiet. destruct (IH H) as (Hreason & Hcell & Hv & pre & post & -> & Hpre).
    split; [done|]. split; [done|]. split; [done|].
    exists ((r', c') :: pre), post. split; [done|].
    intros p Hp. apply elem_of_cons in Hp as [-> | Hp]; [done|by apply Hpre]. }
  destruct (bool_decide _ && negb _) eqn:Hcand.
  - apply candidate_iff in Hcand.
    destruct (calculateHint m r' c') as [[hint|]|] eqn:Hhint; [| |done].
    + pose proof Hhint as Hfound. unfold calculateHint in Hfound.
      apply calculateHintIn_found in Hfound as [Hne _].
      rewrite (bool_decide_eq_false_2 _ Hne) in Hrun. simpl in Hrun.
      injection Hrun as -> -> -> <-.
      split; [done|]. split; [done|]. split; [done|].
      exists [], cells. split; [done|]. intros p Hp. by apply elem_of_nil in Hp.
    + by apply Hrest.
  - apply Hrest; [done|]. intros Hcell. apply candidate_iff in Hcell. congruence.
Qed.

Lemma hintScan_refused m cells reason :
  hintScan m cells = Some (HintRefused reason) →
  reason = "No obvious hints available" ∧
  ∀ p, p ∈ cells → GridSystem.cell (gridSystem m) p.1 p.2 = GridSystem.emptyCell →
       calculateHint m p.1 p.2 = Some None.
Proof.
  induction cells as [|[r' c'] cells IH]; simpl; intros Hrun.
  - injection Hrun as <-. split; [done|]. intros p Hp. by apply elem_of_nil in Hp.
  - assert (Hrest : hintScan m cells = Some (HintRefused reason) →
      (GridSystem.cell (gridSystem m) r' c' = GridSystem.emptyCell →
       calculateHint m r' c' = Some None) →
      reason = "No obvious hints available" ∧
      ∀ p, p ∈ (r', c') :: cells →
           GridSystem.cell (gridSystem m) p.1 p.2 = GridSystem.emptyCell →
           calculateHint m p.1 p.2 = Some None).
    { intros H Hquiet. destruct (IH H) as [Hreason Hall]. split; [done|].
      intros p Hp. apply elem_of_cons in Hp as [-> | Hp]; [done|by apply Hall]. }
    destruct (bool_decide _ && negb _) eqn:Hcand.
    + destruct (calculateHint m r' c') as [[hint|]|] eqn:Hhint; [| |done].
      * pose proof Hhint as Hfound. unfold calculateHint in Hfound.
        apply calculateHintIn_found in Hfound as [Hne _].
        by rewrite (bool_decide_eq_false_2 _ Hne) in Hrun.
      * by apply Hrest.
    + apply Hrest; [done|]. intros Hcell. apply candidate_iff in Hcell. congruence.
Qed.

Lemma hintScan_quiet m cells :
  (∀ p, p ∈ cells → GridSystem.cell (gridSystem m) p.1 p.2 = GridSystem.emptyCell →
        calculateHint m p.1 p.2 = Some None) →
  hintScan m cells = Some (HintRefused "No obvious hints available").
Proof.
  induction cells as [|[r' c'] cells IH]; simpl; intros Hall; [done|].
  assert (Hrest : hintScan m cells = Some (HintRefused "No obvious hints available")).
  { apply IH. intros p Hp. apply Hall. by right. }
  destruct (bool_decide _ && negb _) eqn:Hcand; [|done].
  apply candidate_iff in Hcand.
  assert (Hq : calculateHint m r' c' = Some None) by (by apply (Hall (r', c')); [left|]).
  by rewrite Hq.
Qed.

Lemma hintScan_returns m cells :
  constraintsInGrid (gridSystem m) → is_Some (hintScan m cells).
Proof.
  intros Hin. induction cells as [|[r' c'] cells IH]; simpl; [done|].
  destruct (bool_decide _ && negb _); [|done].
  destruct (calculateHintIn_returns (gridSystem m) r' c' _ Hin) as [[v|] Hrun];
    unfold calculateHint; rewrite Hrun; [|done].
  by destruct (negb _).
Qed.

Lemma scanOrder_elem n r c : (r, c) ∈ scanOrder n ↔ 0 ≤ r < n ∧ 0 ≤ c < n.
Proof.
  unfold scanOrder. rewrite list_elem_of_bind. split.
  - intros (r' & Hin & Hr). apply list_elem_of_bind in Hin as (c' & Hin & Hc).
    apply list_elem_of_singleton in Hin as [= -> ->].
    apply elem_of_seqZ in Hr, Hc. lia.
  - intros [Hr Hc]. exists r. split; [|apply elem_of_seqZ; lia].
    apply list_elem_of_bind. exists c. split; [by left|apply elem_of_seqZ; lia].
Qed.

Lemma StronglySorted_bind {A B} (R : relation A) (R' : relation B) (F : A → list B)
    (l : list A) :
  StronglySorted R l →
  (∀ x, x ∈ l → StronglySorted R' (F x)) →
  (∀ x y a b, R x y → a ∈ F x → b ∈ F y → R' a b) →
  StronglySorted R' (l ≫= F).
Proof.
  intros Hl HF HR. induction Hl as [|x l Hl IH Hx]; [constructor|].
  rewrite bind_cons. apply StronglySorted_app_2.
  - intros a b Ha Hb. apply list_elem_of_bind in Hb as (y & Hb & Hy).
    apply (HR x y); [|done..]. by apply (proj1 (Forall_forall _ _) Hx).
  - apply HF. by left.
  - apply IH. intros y Hy. apply HF. by right.
Qed.

Lemma StronglySorted_seqZ (lo len : Z) : StronglySorted Z.lt (seqZ lo len).
Proof.
  assert (H : ∀ (k : nat) lo', StronglySorted Z.lt (seqZ lo' (Z.of_nat k))).
  { induction k as [|k IH]; intros lo'.
    - rewrite seqZ_nil by lia. constructor.
    - rewrite seqZ_cons by lia. constructor.
      + replace (Z.pred (Z.of_nat (S k))) with (Z.of_nat k) by lia. apply IH.
      + apply Forall_forall. intros x Hx. apply elem_of_seqZ in Hx. lia. }
  destruct (decide (0 ≤ len)) as [Hn|Hn].
  - rewrite <-(Z2Nat.id len) by done. apply H.
  - rewrite seqZ_nil by lia. constructor.
Qed.

Lemma scanOrder_sorted n : StronglySorted visitedBefore (scanOrder n).
Proof.
  unfold scanOrder. apply (StronglySorted_bind Z.lt); [apply StronglySorted_seqZ| |].
  - intros r _. apply (StronglySorted_bind Z.lt); [apply StronglySorted_seqZ| |].
    + intros c _. repeat constructor.
    + intros c c' a b Hlt Ha Hb.
      apply list_elem_of_singleton in Ha as ->. apply list_elem_of_singleton in Hb as ->.
      right. by split.
  - intros r r' a b Hlt Ha Hb.
    apply list_elem_of_bind in Ha as (c & Ha & _).
    apply list_elem_of_bind in Hb as (c' & Hb & _).
    apply list_elem_of_singleton in Ha as ->. apply list_elem_of_singleton in Hb as ->.
    by left.
Qed.

(** The cells before [p] in a scan that reaches [p] are the cells of the
    grid that the loops visit before [p]. *)
Lemma scanOrder_before n pre p post q :
  scanOrder n = pre ++ p :: post →
  0 ≤ q.1 < n → 0 ≤ q.2 < n → visitedBefore q p → q ∈ pre.
Proof.
  intros Hsplit Hr Hc Hbefore.
  assert (Hq : q ∈ scanOrder n) by (destruct q; by apply scanOrder_elem).
  pose proof (scanOrder_sorted n) as Hsorted. rewrite Hsplit in Hq, Hsorted.
  apply elem_of_app in Hq as [Hq|Hq]; [done|].
  apply StronglySorted_app_1_r, StronglySorted_cons in Hsorted as [Hpost _].
  unfold visitedBefore in *.
  apply elem_of_cons in Hq as [-> | Hq]; [lia|].
  pose proof (proj1 (Forall_forall _ _) Hpost q Hq) as Hafter.
  simpl in Hafter. lia.
Qed.

(** Playing the suggested value satisfies the constraint it came from. *)
Lemma suggested_value_fits g con r c v :
  GridSystem.wf g → 0 ≤ r < GridSystem.size g → 0 ≤ c < GridSystem.size g →
  GridSystem.cell g r c = GridSystem.emptyCell →
  suggests g con r c v → ¬ violated (GridSystem.setCell g r c v).1 con.
Proof.
  intros Hwf Hr Hc Hcell (q & Hlink & _ & Hq & Hv).
  rewrite setCell_ok by (by rewrite ?Hcell; try apply isValidPosition_true). simpl.
  set (g' := GridSystem.mk _ _ _).
  assert (Hnew : valueAt g' (mkPos r c) = v).
  { unfold valueAt, GridSystem.cell. simpl.
    by rewrite at_update_eq by (by eapply wf_grid_lookup). }
  assert (Hold : valueAt g' q = valueAt g q).
  { unfold valueAt, GridSystem.cell. simpl. rewrite at_update_ne; [done|].
    intros [= Hrow Hcol]. apply Hq. unfold valueAt. by rewrite Hrow, Hcol, Hcell. }
  unfold violated. intros (_ & _ & Hbad).
  destruct Hlink as [[H1 H2]|[H2 H1]]; rewrite H1, H2, Hnew, Hold in Hbad;
    destruct (ctype con); subst v; try done; by apply (opposite_ne (valueAt g q)).
Qed.

End Hints.

(** A hint that [getHint] returns is for a cell of the grid that is empty
    and not immutable, in a session that is being played; its value is a
    symbol that one of the constraints asks for, given the filled cell at
    the other end of that constraint, and playing it satisfies that
    constraint.  It is the first such cell in the order of the loops: no
    empty cell visited before has a constraint with a filled other end. *)
Theorem getHint_follows_a_constraint
    (m : GameManager.t) (r c : Z) (v : Value) (reason : string) :
  GameManager.getHint m = Some (GameManager.HintFound r c v reason) →
  let g := GameManager.gridSystem m in
  GameManager.gameState m = GameManager.playing ∧
  reason = "Based on current constraints" ∧
  (0 ≤ r < GridSystem.size g ∧ 0 ≤ c < GridSystem.size g) ∧
  GridSystem.cell g r c = GridSystem.emptyCell ∧
  v ≠ Null ∧
  (∃ con, con ∈ GridSystem.getConstraints g ∧ suggests g con r c v ∧
          (GridSystem.wf g → ¬ violated (GridSystem.setCell g r c v).1 con)) ∧
  (∀ r' c', 0 ≤ r' < GridSystem.size g → 0 ≤ c' < GridSystem.size g →
            visitedBefore (r', c') (r, c) →
            GridSystem.cell g r' c' = GridSystem.emptyCell →
            ∀ con v', con ∈ GridSystem.getConstraints g → ¬ suggests g con r' c' v').
Proof.
  intros Hrun g. unfold GameManager.getHint in Hrun.
  destruct (bool_decide (GameManager.gameState m = GameManager.playing)) eqn:Hst;
    [|done].
  apply bool_decide_eq_true in Hst. simpl in Hrun.
  apply hintScan_found in Hrun as (Hreason & Hcell & Hhint & pre & post & Hsplit & Hpre).
  assert (Hin : 0 ≤ r < GridSystem.size g ∧ 0 ≤ c < GridSystem.size g).
  { apply scanOrder_elem. fold g in Hsplit. rewrite Hsplit.
    apply elem_of_app. right. by left. }
  unfold GameManager.calculateHint in Hhint.
  apply calculateHintIn_found in Hhint as (Hv & con & Hcon & Hs).
  split; [done|]. split; [done|]. split; [done|]. split; [done|]. split; [done|]. split.
  - exists con. split; [done|]. split; [done|]. intros Hwf.
    destruct Hin. by apply suggested_value_fits.
  - intros r' c' Hr' Hc' Hbefore Hcell' con' v' Hcon'.
    assert (Hq : (r', c') ∈ pre) by (by eapply (scanOrder_before _ pre (r, c) post)).
    by apply (calculateHintIn_null g r' c' _ (Hpre (r', c') Hq Hcell')).
Qed.

Lemma getHint_follows_a_constraint_witness :
  ∃ m, hintSession = Some m ∧
       GameManager.getHint m =
         Some (GameManager.HintFound 1 1 Moon "Based on current constraints") ∧
       GridSystem.cell (GameManager.gridSystem m) 1 1 = GridSystem.emptyCell ∧
       GameManager.gameState m = GameManager.playing.
Proof.
  eexists. split; [vm_compute; reflexivity|].
  match goal with |- GameManager.getHint ?m = _ ∧ _ =>
    assert (GameManager.getHint m =
              Some (GameManager.HintFound 1 1 Moon "Based on current constraints"))
      as Hrun by (vm_compute; reflexivity);
    destruct (getHint_follows_a_constraint m 1 1 Moon _ Hrun)
      as (Hst & _ & _ & Hcell & _)
  end.
  split; [exact Hrun|]. split; [exact Hcell|exact Hst].
Defined.

(** * What generation builds *)
Section GeneratedPuzzle.

Import GameManager.

Lemma puzzleOn_call n random : preserved (puzzleOn n) (call random).
Proof.
  intros m a m' HP Hrun. unfold call in Hrun.
  destruct random; [done|]. destruct (seedValue m); [|done].
  injection Hrun as _ <-. done.
Qed.

Lemma puzzleOn_shuffle n random idx positions :
  preserved (puzzleOn n) (shuffle random idx positions).
Proof.
  revert positions. induction idx as [|j idx IH]; intros positions; simpl.
  - apply preserved_ret.
  - apply preserved_bind; [apply puzzleOn_call|]. intros x. apply IH.
Qed.

Lemma puzzleOn_setImmutable n r c v :
  v ≠ Null → preserved (puzzleOn n) (setImmutable r c v).
Proof.
  intros Hv m a m' (Hn & Hwf & Hkept & Hcells) Hrun. unfold setImmutable in Hrun.
  unfold GridSystem.setImmutable in Hrun.
  destruct (GridSystem.isValidPosition _ _ _) eqn:Hvalid; injection Hrun as _ <-; [|done].
  apply isValidPosition_true in Hvalid as [Hr Hc].
  split; [done|]. split; [by apply wf_grid_update|]. split; [done|].
  intros r' c'. simpl. destruct (decide ((r', c') = (r, c))) as [[= -> ->]|Hne].
  - right. by rewrite at_update_eq by (by eapply wf_grid_lookup).
  - rewrite at_update_ne by done. apply Hcells.
Qed.

Lemma puzzleOn_addConstraint n r1 c1 r2 c2 ty :
  (r2 = r1 ∧ c2 = c1 + 1) ∨ (r2 = r1 + 1 ∧ c2 = c1) →
  preserved (puzzleOn n) (addConstraint r1 c1 r2 c2 ty).
Proof.
  intros Hlink m a m' (Hn & Hwf & [Hnd Hall] & Hcells) Hrun.
  unfold addConstraint, GridSystem.addConstraint in Hrun.
  destruct (GridSystem.isValidPosition _ r1 c1) eqn:H1; simpl in Hrun;
    [|by injection Hrun as _ <-].
  destruct (GridSystem.isValidPosition _ r2 c2) eqn:H2; simpl in Hrun;
    injection Hrun as _ <-; [|done].
  apply isValidPosition_true in H1, H2.
  split; [done|]. split; [done|]. split; [|done]. split; simpl.
  - by apply set_NoDup.
  - apply Forall_forall. intros [k con] Hin.
    apply set_elem_of in Hin as [[-> ->]|[_ Hin]]; [| |done].
    + split; [done|]. unfold neighbourLink. simpl.
      split; [done|]. split; [done|]. exact Hlink.
    + by apply (proj1 (Forall_forall _ _) Hall (k, con)).
Qed.

Lemma puzzleOn_placeImmutable n random positions j :
  preserved (puzzleOn n) (placeImmutable random positions j).
Proof.
  unfold placeImmutable. destruct (positions !! _); [|done].
  apply preserved_bind; [apply puzzleOn_call|]. intros x.
  apply preserved_bind; [|intros _; apply preserved_ret].
  apply puzzleOn_setImmutable. by destruct (JSNumber.gt x half).
Qed.

Lemma puzzleOn_placeConstraint n random size j :
  preserved (puzzleOn n) (placeConstraint random size j).
Proof.
  unfold placeConstraint.
  repeat (apply preserved_bind; [apply puzzleOn_call|]; intros ?).
  repeat case_match;
    try (apply preserved_bind; [apply puzzleOn_addConstraint; lia|]; intros _);
    apply preserved_ret.
Qed.

Lemma at_new n r c :
  GridSystem.at_ (GridSystem.initializeGrid n) r c = GridSystem.emptyCell.
Proof.
  unfold GridSystem.at_.
  destruct (GridSystem.lookup (GridSystem.initializeGrid n) r c) as [x|] eqn:Hx; [|done].
  simpl. unfold GridSystem.lookup in Hx. destruct (_ && _); [|done].
  unfold GridSystem.initializeGrid in Hx. rewrite list_lookup_fmap in Hx.
  destruct (seqZ 0 n !! Z.to_nat r); [|done]. simpl in Hx.
  rewrite list_lookup_fmap in Hx. destruct (seqZ 0 n !! Z.to_nat c); [|done].
  by injection Hx as <-.
Qed.

Lemma givenOrEmpty_new n : givenOrEmpty (GridSystem.initializeGrid n).
Proof. intros r c. left. apply at_new. Qed.

Lemma puzzleOn_fresh n m : gridSystem m = GridSystem.new n → puzzleOn n m.
Proof.
  intros Hg. unfold puzzleOn. rewrite Hg.
  split; [done|]. split; [apply wf_new|]. split.
  - split; [apply NoDup_nil_2|apply Forall_nil_2].
  - apply givenOrEmpty_new.
Qed.

Lemma initializePuzzle_puzzleOn n m m' :
  puzzleOn n m → initializePuzzle m = Some (tt, m') → puzzleOn n m'.
Proof.
  intros HP Hrun. unfold initializePuzzle in Hrun.
  destruct (seedRandom (seed m) m) as [m0 random] eqn:Hseed.
  assert (puzzleOn n m0) as HP0.
  { unfold seedRandom in Hseed. destruct (bool_decide _); injection Hseed as <- _; done. }
  unfold mbind, M_bind in Hrun.
  destruct (shuffle _ _ _ m0) as [[positions m1]|] eqn:H1; [|done].
  destruct (forEach _ (placeImmutable _ _) m1) as [[[] m2]|] eqn:H2; [|done].
  destruct (forEach _ (placeConstraint _ _) m2) as [[[] m3]|] eqn:H3; [|done].
  injection Hrun as <-.
  pose proof (puzzleOn_shuffle n _ _ _ m0 _ m1 HP0 H1) as HP1.
  assert (puzzleOn n m2) as HP2.
  { refine (preserved_forEach (puzzleOn n) _ _ _ m1 tt m2 HP1 H2).
    intros j. apply puzzleOn_placeImmutable. }
  assert (puzzleOn n m3) as HP3.
  { refine (preserved_forEach (puzzleOn n) _ _ _ m2 tt m3 HP2 H3).
    intros j. apply puzzleOn_placeConstraint. }
  done.
Qed.

(** The restore loop of [restoreInitialPuzzleState] copies the snapshot. *)
Lemma restore_grid n gr initial :
  GridSystem.wf_grid n gr → GridSystem.wf_grid n initial →
  foldl (λ gr r, foldl (λ gr c, restoreCell initial gr r c) gr (seqZ 0 n)) gr (seqZ 0 n)
    = initial.
Proof.
  intros Hwf Hinit. apply (wf_grid_ext n); [|done|].
  - apply (wf_grid_loops _ (restoreCell initial)); [|done].
    intros gr' r c Hgr. by apply wf_grid_update.
  - intros r c Hr Hc.
    rewrite (at_update_grid n
               (λ r c _, mkCell (value (GridSystem.at_ initial r c))
                                (immutable (GridSystem.at_ initial r c)))) by done.
    rewrite decide_True by done. by destruct (GridSystem.at_ initial r c).
Qed.

(** Writing the constraints of a kept map back under their keys rebuilds it. *)
Lemma restore_constraints (cs : list (string * Constraint)) :
  NoDup (JSMap.keys cs) → Forall (λ kc, kc.1 = keyOf kc.2) cs →
  foldl restoreConstraint [] (JSMap.values cs) = cs.
Proof.
  induction cs as [|[k con] cs IH] using rev_ind; [done|]. intros Hnd Hkeys.
  unfold JSMap.keys, JSMap.values in *. rewrite fmap_app in Hnd. rewrite fmap_app.
  apply NoDup_app in Hnd as (Hnd & Hfresh & _).
  apply Forall_app in Hkeys as [Hkeys Hk]. rewrite Forall_singleton in Hk.
  change (k = keyOf con) in Hk. subst k.
  rewrite foldl_app, IH by done.
  apply (set_fresh (keyOf con)). intros Hin. apply (Hfresh _ Hin). by left.
Qed.

End GeneratedPuzzle.

(** * Every reachable session keeps its puzzle *)
Section ReachablePuzzle.

Import GameManager.

Lemma playedFrom_core base m m' :
  gridSystem m' = gridSystem m → moveHistory m' = moveHistory m →
  currentMoveIndex m' = currentMoveIndex m → playedFrom base m → playedFrom base m'.
Proof. unfold playedFrom. by intros -> -> ->. Qed.

Lemma playedFrom_wf base m : playedFrom base m → GridSystem.wf (gridSystem m).
Proof.
  intros (_ & Hwf & _ & Hgrid). unfold GridSystem.wf. rewrite Hgrid.
  by apply wf_grid_replay.
Qed.

Lemma playedFrom_makeMove base now r c v m :
  playedFrom base m → playedFrom base (makeMove now r c v m).1.
Proof.
  intros Hinv.
  destruct (decide (gameState m = ready ∨ gameState m = playing)) as [Hst|Hst].
  2:{ unfold makeMove.
      destruct (bool_decide (gameState m = playing)) eqn:H1;
        [apply bool_decide_eq_true in H1; tauto|].
      destruct (bool_decide (gameState m = ready)) eqn:H2;
        [apply bool_decide_eq_true in H2; tauto|]. done. }
  set (m0 := if bool_decide (gameState m = ready) then (startGame now m).1 else m).
  assert (gridSystem m0 = gridSystem m ∧ moveHistory m0 = moveHistory m ∧
          currentMoveIndex m0 = currentMoveIndex m) as (Hg & Hh & Hi).
  { unfold m0. destruct (bool_decide _); [|done].
    destruct (startGame_history now m) as (-> & -> & _). by rewrite startGame_grid. }
  destruct ((GridSystem.setCell (gridSystem m) r c v).2) eqn:Hok.
  2:{ rewrite (makeMove_refused now r c v m Hst Hok). simpl.
      by apply (playedFrom_core base m). }
  rewrite (makeMove_done now r c v m Hst Hok). fold m0.
  set (m1 := recordMove now r c _ v _).
  assert (playedFrom base m1) as Hinv1.
  2:{ destruct (isGameCompleted m1); [|done].
      destruct (completeGame_history now m1) as (Hh' & Hi' & _).
      destruct (completeGame_state now m1) as (_ & _ & Hg').
      by apply (playedFrom_core base m1). }
  pose proof (playedFrom_wf base m Hinv) as Hwf.
  destruct Hinv as (Hlen & Hbase & Hcons & Hgrid).
  set (mv := mkMove r c (value (GridSystem.cell (gridSystem m) r c)) v now).
  assert (moveHistory m1 =
            take (Z.to_nat (currentMoveIndex m + 1)) (moveHistory m) ++ [mv]) as Hh1.
  { unfold m1. rewrite recordMove_history by (simpl; lia). simpl. by rewrite Hh, Hi. }
  assert (currentMoveIndex m1 = currentMoveIndex m + 1) as Hi1.
  { unfold m1. simpl. by rewrite Hi. }
  assert (gridSystem m1 = (GridSystem.setCell (gridSystem m) r c v).1) as Hg1 by done.
  pose proof (setCell_written _ _ _ _ Hok) as Hset.
  assert (GridSystem.isValidPosition (gridSystem m) r c = true ∧
          immutable (GridSystem.cell (gridSystem m) r c) = false) as [Hvalid Hmut].
  { unfold GridSystem.setCell in Hok.
    destruct (GridSystem.isValidPosition _ _ _); [|done].
    destruct (immutable _); done. }
  apply isValidPosition_true in Hvalid.
  unfold playedFrom. rewrite Hh1, Hi1, Hg1, Hset. simpl.
  rewrite length_app, length_take. simpl.
  split; [lia|]. split; [done|]. split.
  - apply consistent_app. split; [by apply consistent_take|].
    simpl. rewrite <-Hgrid. destruct Hvalid. done.
  - rewrite take_ge by (rewrite length_app, length_take; simpl; lia).
    rewrite replay_app, <-Hgrid. done.
Qed.

Lemma moveAt_lookup m i mv :
  moveAt m i = Some mv → 0 ≤ i ∧ moveHistory m !! Z.to_nat i = Some mv.
Proof.
  unfold moveAt. destruct (bool_decide (0 ≤ i)) eqn:Hi; [|done].
  apply bool_decide_eq_true in Hi. done.
Qed.

Lemma playedFrom_undo base m mv :
  playedFrom base m → moveAt m (currentMoveIndex m) = Some mv →
  (GridSystem.setCell (gridSystem m) (m_row mv) (m_col mv) (previousValue mv)).2 = true →
  playedFrom base
    (with_currentMoveIndex (currentMoveIndex m - 1)
       (with_gridSystem
          (GridSystem.setCell (gridSystem m) (m_row mv) (m_col mv) (previousValue mv)).1 m)).
Proof.
  intros (Hlen & Hbase & Hcons & Hgrid) Hmv Hok.
  apply moveAt_lookup in Hmv as [Hi Hmv].
  pose proof (consistent_lookup _ _ _ _ _ Hcons Hmv) as (_ & _ & _ & Hprev).
  unfold playedFrom. simpl. rewrite (setCell_written _ _ _ _ Hok). simpl.
  split; [lia|]. split; [done|]. split; [done|].
  rewrite Hgrid, (take_cursor_succ _ _ mv) by done.
  rewrite replay_app. simpl.
  replace (currentMoveIndex m - 1 + 1) with (currentMoveIndex m) by lia.
  apply (undo_applyMove (GridSystem.size (gridSystem m))); [by apply wf_grid_replay|done].
Qed.

Lemma playedFrom_redo base m mv :
  playedFrom base m → moveAt m (currentMoveIndex m + 1) = Some mv →
  (GridSystem.setCell (gridSystem m) (m_row mv) (m_col mv) (newValue mv)).2 = true →
  playedFrom base
    (with_gridSystem
       (GridSystem.setCell (gridSystem m) (m_row mv) (m_col mv) (newValue mv)).1
       (with_currentMoveIndex (currentMoveIndex m + 1) m)).
Proof.
  intros (Hlen & Hbase & Hcons & Hgrid) Hmv Hok.
  apply moveAt_lookup in Hmv as [Hi Hmv].
  pose proof (lookup_lt_Some _ _ _ Hmv) as Hlt.
  unfold playedFrom. simpl. rewrite (setCell_written _ _ _ _ Hok). simpl.
  split; [lia|]. split; [done|]. split; [done|].
  rewrite (take_cursor_succ _ (currentMoveIndex m + 1) mv) by done.
  rewrite replay_app, <-Hgrid. done.
Qed.

Lemma puzzleInv_sessionInv m : puzzleInv m → sessionInv m.
Proof.
  intros (_ & ps & Hps & _ & _ & Hlen & Hbase & Hcons & Hgrid).
  unfold sessionInv. rewrite Hps. split; [done|]. split; [done|]. by exists (ps_grid ps).
Qed.

Lemma puzzleInv_step m m' :
  puzzleInv m →
  GridSystem.size (gridSystem m') = GridSystem.size (gridSystem m) →
  GridSystem.constraints (gridSystem m') = GridSystem.constraints (gridSystem m) →
  initialPuzzleState m' = initialPuzzleState m →
  (∀ base, playedFrom base m → playedFrom base m') →
  puzzleInv m'.
Proof.
  intros (Hkept & ps & Hps & Hcs & Hgiven & Hplayed) Hn Hc Hs Hstep.
  unfold puzzleInv, constraintsKept, GridSystem.getConstraints in *.
  rewrite Hn, Hc, Hs. split; [done|]. exists ps. split; [done|]. split; [done|].
  split; [done|]. by apply Hstep.
Qed.

Lemma puzzleInv_generated size m0 m :
  gridSystem m0 = GridSystem.new size → moveHistory m0 = [] → currentMoveIndex m0 = -1 →
  initializePuzzle m0 = Some (tt, m) → puzzleInv m.
Proof.
  intros Hg Hh Hi Hinit.
  pose proof (initializePuzzle_puzzleOn size m0 m (puzzleOn_fresh size m0 Hg) Hinit)
    as (Hn & Hwf & Hkept & Hgiven).
  apply (initializePuzzle_shape size [] (-1)) in Hinit as [(_ & _ & Hh' & Hi') Hps].
  2:{ rewrite <-Hh, <-Hi. split; [by rewrite Hg|]. split; [|done].
      rewrite Hg. apply wf_new. }
  split; [done|]. eexists. split; [exact Hps|]. simpl. split; [done|]. split; [done|].
  unfold playedFrom. rewrite Hh', Hi'. simpl. split; [lia|]. done.
Qed.

(** In a session that keeps its puzzle, [resetGame] returns and installs
    the snapshot. *)
Lemma resetGame_puzzle m :
  puzzleInv m →
  ∃ ps, initialPuzzleState m = Some ps ∧
        resetGame m =
          Some (tt, with_gridSystem
                      (GridSystem.mk (GridSystem.size (gridSystem m)) (ps_grid ps)
                                     (GridSystem.constraints (gridSystem m)))
                      (clearMoveHistory (resetTimer (with_gameState ready m)))).
Proof.
  intros ([Hnd Hall] & ps & Hps & Hcs & Hgiven & Hplayed).
  pose proof (playedFrom_wf _ _ Hplayed) as Hwf.
  destruct Hplayed as (_ & Hbase & _).
  exists ps. split; [done|].
  unfold resetGame, restoreInitialPuzzleState. simpl. rewrite Hps. simpl.
  rewrite (restore_grid (GridSystem.size (gridSystem m))) by done.
  rewrite Hcs. unfold GridSystem.getConstraints.
  rewrite restore_constraints; [done..|].
  apply Forall_forall. intros kc Hkc. by apply (proj1 (Forall_forall _ _) Hall kc).
Qed.

Lemma puzzleInv_resetGame m m' : puzzleInv m → resetGame m = Some (tt, m') → puzzleInv m'.
Proof.
  intros Hinv Hrun. destruct (resetGame_puzzle m Hinv) as (ps & Hps & Hreset).
  rewrite Hreset in Hrun. injection Hrun as <-.
  destruct Hinv as (Hkept & ps' & Hps' & Hcs & Hgiven & Hplayed).
  rewrite Hps in Hps'. injection Hps' as <-.
  split; [done|]. exists ps. simpl. split; [done|]. split; [done|]. split; [done|].
  destruct Hplayed as (_ & Hbase & _).
  unfold playedFrom. simpl. split; [lia|]. done.
Qed.

Lemma makeMove_puzzle now r c v m :
  GridSystem.size (gridSystem (makeMove now r c v m).1) = GridSystem.size (gridSystem m) ∧
  GridSystem.constraints (gridSystem (makeMove now r c v m).1) =
    GridSystem.constraints (gridSystem m) ∧
  initialPuzzleState (makeMove now r c v m).1 = initialPuzzleState m.
Proof.
  destruct (decide (gameState m = ready ∨ gameState m = playing)) as [Hst|Hst].
  2:{ unfold makeMove.
      destruct (bool_decide (gameState m = playing)) eqn:H1;
        [apply bool_decide_eq_true in H1; tauto|].
      destruct (bool_decide (gameState m = ready)) eqn:H2;
        [apply bool_decide_eq_true in H2; tauto|]. done. }
  set (m0 := if bool_decide (gameState m = ready) then (startGame now m).1 else m).
  assert (gridSystem m0 = gridSystem m ∧ initialPuzzleState m0 = initialPuzzleState m)
    as (Hg & Hs).
  { unfold m0. destruct (bool_decide _); [|done].
    destruct (startGame_history now m) as (_ & _ & ->). by rewrite startGame_grid. }
  destruct ((GridSystem.setCell (gridSystem m) r c v).2) eqn:Hok.
  2:{ rewrite (makeMove_refused now r c v m Hst Hok). simpl. fold m0. by rewrite Hg, Hs. }
  rewrite (makeMove_done now r c v m Hst Hok). fold m0.
  set (m1 := recordMove now r c _ v _).
  assert (gridSystem m1 = (GridSystem.setCell (gridSystem m) r c v).1) as Hg1 by done.
  assert (initialPuzzleState m1 = initialPuzzleState m) as Hs1 by (by rewrite <-Hs).
  assert (Hfin : gridSystem (if isGameCompleted m1 then (completeGame now m1).1 else m1)
                   = gridSystem m1 ∧
                 initialPuzzleState (if isGameCompleted m1 then (completeGame now m1).1
                                     else m1) = initialPuzzleState m1).
  { destruct (isGameCompleted m1); [|done].
    destruct (completeGame_history now m1) as (_ & _ & ->).
    by destruct (completeGame_state now m1) as (_ & _ & ->). }
  destruct Hfin as [-> ->]. rewrite Hg1, Hs1, setCell_size, setCell_constraints. done.
Qed.

Lemma puzzleInv_run op m m' : puzzleInv m → run op m = Some m' → puzzleInv m'.
Proof.
  intros Hinv Hrun. pose proof (puzzleInv_sessionInv m Hinv) as Hsess.
  destruct op as [now|now| |now r c v| |]; simpl in Hrun.
  - injection Hrun as <-.
    destruct (startGame_history now m) as (Hh & Hi & Hs).
    apply (puzzleInv_step m); [done|by rewrite startGame_grid..|done|].
    intros base. apply playedFrom_core; [apply startGame_grid|done..].
  - injection Hrun as <-.
    assert (gridSystem (pauseGame now m).1 = gridSystem m ∧
            moveHistory (pauseGame now m).1 = moveHistory m ∧
            currentMoveIndex (pauseGame now m).1 = currentMoveIndex m ∧
            initialPuzzleState (pauseGame now m).1 = initialPuzzleState m)
      as (Hg & Hh & Hi & Hs).
    { unfold pauseGame, pauseTimer. destruct (bool_decide _); [|done]. simpl.
      by destruct (isRunning _). }
    apply (puzzleInv_step m); [done|by rewrite Hg..|done|].
    intros base. by apply playedFrom_core.
  - destruct (resetGame m) as [[[] m1]|] eqn:Hreset; [|done]. injection Hrun as <-.
    by eapply puzzleInv_resetGame.
  - injection Hrun as <-. destruct (makeMove_puzzle now r c v m) as (Hn & Hc & Hs).
    apply (puzzleInv_step m); [done..|]. intros base. apply playedFrom_makeMove.
  - destruct (decide (0 ≤ currentMoveIndex m)) as [Hi|Hi].
    + destruct (undo_done m Hsess Hi) as (mv & Hmv & _ & Hok & Hundo & _).
      cbv zeta in Hundo. rewrite Hundo in Hrun. injection Hrun as <-.
      apply (puzzleInv_step m); simpl;
        [done|apply setCell_size|apply setCell_constraints|done|].
      intros base Hbase. by apply playedFrom_undo.
    + unfold undo in Hrun. rewrite bool_decide_eq_false_2 in Hrun by done.
      by injection Hrun as <-.
  - destruct (decide (currentMoveIndex m < Z.of_nat (length (moveHistory m)) - 1))
      as [Hi|Hi].
    + destruct (redo_done m Hsess Hi) as (mv & Hmv & Hok & Hredo & _).
      cbv zeta in Hredo. rewrite Hredo in Hrun. injection Hrun as <-.
      apply (puzzleInv_step m); simpl;
        [done|apply setCell_size|apply setCell_constraints|done|].
      intros base Hbase. by apply playedFrom_redo.
    + unfold redo in Hrun. rewrite bool_decide_eq_false_2 in Hrun by done.
      by injection Hrun as <-.
Qed.

Lemma reachable_puzzleInv m : reachable m → puzzleInv m.
Proof.
  induction 1 as [size m0 m Hg Hh Hi Hinit|op m m' _ IH Hrun].
  - by eapply puzzleInv_generated.
  - by eapply puzzleInv_run.
Qed.

(** Replaying recorded moves never touches a given cell. *)
Lemma replay_immutable base moves r c :
  immutable (GridSystem.at_ (replay base moves) r c) = immutable (GridSystem.at_ base r c).
Proof.
  revert base. induction moves as [|mv moves IH]; intros base; [done|].
  simpl. rewrite IH. apply setValue_immutable_at.
Qed.

Lemma replay_given n base moves r c :
  consistent n base moves → immutable (GridSystem.at_ base r c) = true →
  GridSystem.at_ (replay base moves) r c = GridSystem.at_ base r c.
Proof.
  revert base. induction moves as [|mv moves IH]; intros base Hcons Himm; [done|].
  destruct Hcons as [(_ & _ & Hmut & _) Hrest]. simpl.
  assert (Hstep : GridSystem.at_ (applyMove base mv) r c = GridSystem.at_ base r c).
  { apply at_update_ne. intros [= -> ->]. congruence. }
  rewrite IH; [done..|]. by rewrite Hstep.
Qed.

Lemma constraintsKept_inGrid g : constraintsKept g → constraintsInGrid g.
Proof.
  intros [_ Hall] con Hcon. unfold GridSystem.getConstraints, JSMap.values in Hcon.
  apply list_elem_of_fmap in Hcon as ([k con'] & -> & Hin).
  destruct (proj1 (Forall_forall _ _) Hall _ Hin) as (_ & H1 & H2 & _). simpl in *.
  by split; apply isValidPosition_true.
Qed.

Lemma runAll_app ops ops' m : runAll (ops ++ ops') m = runAll ops m ≫= runAll ops'.
Proof.
  revert m. induction ops as [|op ops IH]; intros m; simpl; [done|].
  destruct (run op m) as [m1|]; simpl; [apply IH|done].
Qed.

(** Undoing every move up to the cursor returns, and redoing as many
    moves leads back. *)
Lemma undo_all_redo_all (k : nat) m :
  puzzleInv m → currentMoveIndex m + 1 = Z.of_nat k →
  ∃ m', runAll (replicate k OpUndo) m = Some m' ∧
        puzzleInv m' ∧ currentMoveIndex m' = -1 ∧
        gameState m' = gameState m ∧ moveHistory m' = moveHistory m ∧
        initialPuzzleState m' = initialPuzzleState m ∧
        runAll (replicate k OpRedo) m' = Some m.
Proof.
  revert m. induction k as [|k IH]; intros m Hinv Hk.
  - exists m. simpl. split; [done|]. split; [done|]. split; [lia|]. done.
  - pose proof (puzzleInv_sessionInv m Hinv) as Hsess.
    assert (Hi : 0 ≤ currentMoveIndex m) by lia.
    destruct (undo_done m Hsess Hi) as (mv & _ & _ & _ & Hundo & _). cbv zeta in Hundo.
    destruct (undo_redo_id m Hsess Hi) as (m1 & mv' & Hundo' & _ & Hredo & Hi1 & _).
    rewrite Hundo in Hundo'. injection Hundo' as Hm1 _.
    assert (Hrun : run OpUndo m = Some m1) by (simpl; by rewrite Hundo, Hm1).
    pose proof (puzzleInv_run _ _ _ Hinv Hrun) as Hinv1.
    destruct (IH m1 Hinv1) as (m' & Hall & Hinv' & Hi' & Hst & Hh & Hs & Hback); [lia|].
    exists m'. split.
    { change (run OpUndo m ≫= runAll (replicate k OpUndo) = Some m'). by rewrite Hrun. }
    split; [done|]. split; [done|].
    split; [rewrite Hst, <-Hm1; done|]. split; [rewrite Hh, <-Hm1; done|].
    split; [rewrite Hs, <-Hm1; done|].
    rewrite replicate_S_end, runAll_app, Hback. simpl. by rewrite Hredo.
Qed.

End ReachablePuzzle.

(** [resetGame] in a reachable session returns without generating again:
    the grid is the snapshot taken when the puzzle was generated, the
    constraint map is rebuilt as it was, the game is [ready] with the timer
    at zero and an empty history, and the seed, the difficulty and the
    generator state are untouched.  A second reset changes nothing. *)
Theorem resetGame_restores_the_generated_puzzle (m : GameManager.t) :
  reachable m →
  ∃ ps m',
    GameManager.initialPuzzleState m = Some ps ∧
    GameManager.resetGame m = Some (tt, m') ∧
    GridSystem.grid (GameManager.gridSystem m') = GameManager.ps_grid ps ∧
    GridSystem.constraints (GameManager.gridSystem m') =
      GridSystem.constraints (GameManager.gridSystem m) ∧
    GridSystem.getConstraints (GameManager.gridSystem m') = GameManager.ps_constraints ps ∧
    GridSystem.size (GameManager.gridSystem m') = GridSystem.size (GameManager.gridSystem m) ∧
    GameManager.gameState m' = GameManager.ready ∧
    GameManager.timer m' = GameManager.resetTimerValue ∧
    GameManager.moveHistory m' = [] ∧
    GameManager.currentMoveIndex m' = -1 ∧
    GameManager.difficulty m' = GameManager.difficulty m ∧
    GameManager.seed m' = GameManager.seed m ∧
    GameManager.seedValue m' = GameManager.seedValue m ∧
    GameManager.initialPuzzleState m' = Some ps ∧
    GameManager.resetGame m' = Some (tt, m').
Proof.
  intros Hinv%reachable_puzzleInv.
  destruct (resetGame_puzzle m Hinv) as (ps & Hps & Hreset).
  pose proof (puzzleInv_resetGame m _ Hinv Hreset) as Hinv'.
  destruct (resetGame_puzzle _ Hinv') as (ps' & Hps' & Hreset').
  simpl in Hps'. rewrite Hps in Hps'. injection Hps' as <-.
  destruct Hinv as (_ & ps' & Hps'' & Hcs & _).
  rewrite Hps in Hps''. injection Hps'' as <-.
  exists ps. eexists. split; [done|]. split; [exact Hreset|]. simpl.
  repeat (split; [done|]). exact Hreset'.
Qed.

Lemma resetGame_restores_the_generated_puzzle_witness :
  ∃ m, scenarioABCD = Some m ∧ reachable m ∧
       ∃ m', GameManager.resetGame m = Some (tt, m') ∧
             Some m' = sessionA ∧
             GameManager.resetGame m' = Some (tt, m').
Proof.
  eexists. split; [vm_compute; reflexivity|].
  match goal with |- reachable ?m ∧ _ =>
    assert (reachable m) as Hreach
      by (apply (reachable_scenario 2 "easy" (codeUnits "A")
                   [OpMove 10 0 0 Orange; OpMove 20 0 1 Moon; OpMove 30 1 0 Moon;
                    OpUndo; OpUndo; OpMove 40 1 0 Orange]);
          vm_compute; reflexivity);
    destruct (resetGame_restores_the_generated_puzzle m Hreach)
      as (ps & m' & _ & Hreset & Hgrid & Hcons & _ & Hsize & Hst & Htimer & Hh & Hi &
          Hd & Hseed & Hsv & Hps & Hagain)
  end.
  split; [exact Hreach|]. exists m'. split; [exact Hreset|]. split; [|exact Hagain].
  vm_compute in Hreset. injection Hreset as <-. vm_compute. reflexivity.
Defined.

(** The puzzle of a reachable session never changes.  The constraints are
    those of the snapshot taken at generation, each stored once under its
    own key and linking a cell of the grid to its right or lower neighbour.
    A cell is immutable exactly when it was a given of the snapshot, a
    given still holds its symbol, and the cells that were not given were
    empty in the snapshot.  With the cursor before the first move the grid
    is the snapshot. *)
Theorem reachable_session_keeps_its_puzzle (m : GameManager.t) :
  reachable m →
  ∃ ps,
    GameManager.initialPuzzleState m = Some ps ∧
    GridSystem.getConstraints (GameManager.gridSystem m) = GameManager.ps_constraints ps ∧
    constraintsKept (GameManager.gridSystem m) ∧
    (∀ r c, immutable (GridSystem.cell (GameManager.gridSystem m) r c) =
            immutable (GridSystem.at_ (GameManager.ps_grid ps) r c)) ∧
    (∀ r c, immutable (GridSystem.at_ (GameManager.ps_grid ps) r c) = true →
            GridSystem.cell (GameManager.gridSystem m) r c =
              GridSystem.at_ (GameManager.ps_grid ps) r c ∧
            value (GridSystem.cell (GameManager.gridSystem m) r c) ≠ Null) ∧
    (∀ r c, immutable (GridSystem.at_ (GameManager.ps_grid ps) r c) = false →
            GridSystem.at_ (GameManager.ps_grid ps) r c = GridSystem.emptyCell) ∧
    (GameManager.currentMoveIndex m = -1 →
       GridSystem.grid (GameManager.gridSystem m) = GameManager.ps_grid ps).
Proof.
  intros (Hkept & ps & Hps & Hcs & Hgiven & _ & Hbase & Hcons & Hgrid)%reachable_puzzleInv.
  exists ps. split; [done|]. split; [done|]. split; [done|].
  unfold GridSystem.cell. rewrite Hgrid. split; [|split; [|split]].
  - intros r c. apply replay_immutable.
  - intros r c Himm.
    rewrite (replay_given _ _ _ _ _ (consistent_take _ _ _ _ Hcons) Himm).
    split; [done|]. destruct (Hgiven r c) as [Hempty|[_ Hv]]; [|done].
    by rewrite Hempty in Himm.
  - intros r c Hfree. destruct (Hgiven r c) as [Hempty|[Himm _]]; [done|congruence].
  - intros ->. done.
Qed.

Lemma reachable_session_keeps_its_puzzle_witness :
  ∃ m, scenarioABCD = Some m ∧ reachable m ∧
       GridSystem.cell (GameManager.gridSystem m) 1 1 = mkCell Moon true ∧
       GridSystem.getConstraints (GameManager.gridSystem m) = [].
Proof.
  eexists. split; [vm_compute; reflexivity|].
  match goal with |- reachable ?m ∧ _ =>
    assert (reachable m) as Hreach
      by (apply (reachable_scenario 2 "easy" (codeUnits "A")
                   [OpMove 10 0 0 Orange; OpMove 20 0 1 Moon; OpMove 30 1 0 Moon;
                    OpUndo; OpUndo; OpMove 40 1 0 Orange]);
          vm_compute; reflexivity);
    destruct (reachable_session_keeps_its_puzzle m Hreach)
      as (ps & Hps & Hcs & _ & _ & Hgiven & _)
  end.
  split; [exact Hreach|].
  vm_compute in Hps. injection Hps as <-.
  split; [|exact Hcs]. apply (Hgiven 1 1). reflexivity.
Defined.

(** Undoing every move up to the cursor of a reachable session succeeds
    and leaves the grid of the generated puzzle, with the history kept;
    redoing as many moves then leads back to the session as it was. *)
Theorem undoing_every_move_restores_the_puzzle (m : GameManager.t) :
  reachable m →
  ∃ ps m',
    GameManager.initialPuzzleState m = Some ps ∧
    runAll (replicate (Z.to_nat (GameManager.currentMoveIndex m + 1)) OpUndo) m = Some m' ∧
    GridSystem.grid (GameManager.gridSystem m') = GameManager.ps_grid ps ∧
    GameManager.currentMoveIndex m' = -1 ∧
    GameManager.moveHistory m' = GameManager.moveHistory m ∧
    GameManager.gameState m' = GameManager.gameState m ∧
    runAll (replicate (Z.to_nat (GameManager.currentMoveIndex m + 1)) OpRedo) m' = Some m.
Proof.
  intros Hinv%reachable_puzzleInv.
  pose proof Hinv as (_ & ps & Hps & _ & _ & Hlen & _).
  destruct (undo_all_redo_all (Z.to_nat (GameManager.currentMoveIndex m + 1)) m Hinv)
    as (m' & Hundo & Hinv' & Hi & Hst & Hh & Hs & Hredo); [lia|].
  exists ps, m'. split; [done|]. split; [done|].
  destruct Hinv' as (_ & ps' & Hps' & _ & _ & _ & _ & _ & Hgrid).
  rewrite Hs, Hps in Hps'. injection Hps' as <-.
  rewrite Hi in Hgrid. by rewrite Hgrid.
Qed.

Lemma undoing_every_move_restores_the_puzzle_witness :
  ∃ m, scenarioABCD = Some m ∧ reachable m ∧
       ∃ m', runAll [OpUndo; OpUndo] m = Some m' ∧
             Some (GameManager.gridSystem m') = GameManager.gridSystem <$> sessionA ∧
             runAll [OpRedo; OpRedo] m' = Some m.
Proof.
  eexists. split; [vm_compute; reflexivity|].
  match goal with |- reachable ?m ∧ _ =>
    assert (reachable m) as Hreach
      by (apply (reachable_scenario 2 "easy" (codeUnits "A")
                   [OpMove 10 0 0 Orange; OpMove 20 0 1 Moon; OpMove 30 1 0 Moon;
                    OpUndo; OpUndo; OpMove 40 1 0 Orange]);
          vm_compute; reflexivity);
    destruct (undoing_every_move_restores_the_puzzle m Hreach)
      as (ps & m' & _ & Hundo & _ & _ & _ & _ & Hredo)
  end.
  split; [exact Hreach|]. exists m'. split; [exact Hundo|]. split; [|exact Hredo].
  vm_compute in Hundo. injection Hundo as <-. vm_compute. reflexivity.
Defined.

(** In a reachable session [getHint] always returns.  It answers ["Game
    not active"] exactly when the game is not being played, and ["No
    obvious hints available"] exactly when the game is being played and no
    empty cell of the grid has a constraint whose other cell is filled. *)
Theorem getHint_in_a_reachable_session (m : GameManager.t) :
  reachable m →
  let g := GameManager.gridSystem m in
  (∃ res, GameManager.getHint m = Some res) ∧
  (GameManager.getHint m = Some (GameManager.HintRefused "Game not active") ↔
     GameManager.gameState m ≠ GameManager.playing) ∧
  (GameManager.getHint m = Some (GameManager.HintRefused "No obvious hints available") ↔
     GameManager.gameState m = GameManager.playing ∧
     ∀ r c, 0 ≤ r < GridSystem.size g → 0 ≤ c < GridSystem.size g →
            GridSystem.cell g r c = GridSystem.emptyCell →
            ∀ con v, con ∈ GridSystem.getConstraints g → ¬ suggests g con r c v).
Proof.
  intros Hinv%reachable_puzzleInv g.
  assert (Hin : constraintsInGrid g) by (apply constraintsKept_inGrid, Hinv).
  unfold GameManager.getHint. fold g.
  destruct (bool_decide (GameManager.gameState m = GameManager.playing)) eqn:Hst; simpl.
  - apply bool_decide_eq_true in Hst. split; [|split].
    + by apply hintScan_returns.
    + split; [|done]. intros Hrun. by apply hintScan_refused in Hrun as [? _].
    + split.
      * intros Hrun. split; [done|]. intros r c Hr Hc Hcell con v Hcon.
        apply hintScan_refused in Hrun as [_ Hall].
        apply (calculateHintIn_null g r c _ (Hall (r, c) (proj2 (scanOrder_elem _ r c)
                                                   (conj Hr Hc)) Hcell)); done.
      * intros [_ Hall]. apply hintScan_quiet. intros [r c] Hp Hcell.
        apply scanOrder_elem in Hp as [Hr Hc]. apply calculateHint_quiet; [done|].
        intros con v. by apply Hall.
  - apply bool_decide_eq_false in Hst. split; [by eexists|]. split; [done|].
    split; [done|]. by intros [? _].
Qed.

Lemma getHint_in_a_reachable_session_witness :
  ∃ m, hintSession = Some m ∧ reachable m ∧
       ∃ res, GameManager.getHint m = Some res.
Proof.
  eexists. split; [vm_compute; reflexivity|].
  match goal with |- reachable ?m ∧ _ =>
    assert (reachable m) as Hreach
      by (apply (reachable_scenario 3 "hard" (codeUnits "TEST1234")
                   [OpMove 10 2 1 Orange]);
          vm_compute; reflexivity);
    destruct (getHint_in_a_reachable_session m Hreach) as (Hres & _)
  end.
  split; [exact Hreach|exact Hres].
Defined.

(** * What generation does not touch *)
Section GenerationFrame.

Import GameManager.

(** A property of the session that does not read the grid store, the
    generator state or the snapshot. *)
Variable P : GameManager.t → Prop.
Hypothesis P_gridSystem : ∀ g m, P m → P (with_gridSystem g m).
Hypothesis P_seedValue : ∀ s m, P m → P (with_seedValue s m).
Hypothesis P_initialPuzzleState : ∀ ps m, P m → P (with_initialPuzzleState ps m).

Lemma frame_call random : preserved P (call random).
Proof.
  intros m a m' HP Hrun. unfold call in Hrun.
  destruct random; [done|]. destruct (seedValue m); [|done].
  injection Hrun as _ <-. by apply P_seedValue.
Qed.

Lemma frame_shuffle random idx positions : preserved P (shuffle random idx positions).
Proof.
  revert positions. induction idx as [|j idx IH]; intros positions; simpl.
  - apply preserved_ret.
  - apply preserved_bind; [apply frame_call|]. intros x. apply IH.
Qed.

Lemma frame_setImmutable r c v : preserved P (setImmutable r c v).
Proof.
  intros m a m' HP Hrun. unfold setImmutable in Hrun.
  destruct (GridSystem.setImmutable _ _ _ _) as [g ok]. injection Hrun as _ <-.
  by apply P_gridSystem.
Qed.

Lemma frame_addConstraint r1 c1 r2 c2 ty : preserved P (addConstraint r1 c1 r2 c2 ty).
Proof.
  intros m a m' HP Hrun. unfold addConstraint in Hrun.
  destruct (GridSystem.addConstraint _ _ _ _ _ _) as [g ok]. injection Hrun as _ <-.
  by apply P_gridSystem.
Qed.

Lemma frame_placeImmutable random positions j :
  preserved P (placeImmutable random positions j).
Proof.
  unfold placeImmutable. destruct (positions !! _); [|done].
  apply preserved_bind; [apply frame_call|]. intros x.
  apply preserved_bind; [apply frame_setImmutable|]. intros _. apply preserved_ret.
Qed.

Lemma frame_placeConstraint random size j : preserved P (placeConstraint random size j).
Proof.
  unfold placeConstraint.
  repeat (apply preserved_bind; [apply frame_call|]; intros ?).
  repeat case_match;
    try (apply preserved_bind; [apply frame_addConstraint|]; intros _);
    apply preserved_ret.
Qed.

Lemma frame_initializePuzzle : preserved P initializePuzzle.
Proof.
  intros m [] m' HP Hrun. unfold initializePuzzle in Hrun.
  destruct (seedRandom (seed m) m) as [m0 random] eqn:Hseed.
  assert (P m0) as HP0.
  { unfold seedRandom in Hseed. destruct (bool_decide _); injection Hseed as <- _; [done|].
    by apply P_seedValue. }
  unfold mbind, M_bind in Hrun.
  destruct (shuffle _ _ _ m0) as [[positions m1]|] eqn:H1; [|done].
  destruct (forEach _ (placeImmutable _ _) m1) as [[[] m2]|] eqn:H2; [|done].
  destruct (forEach _ (placeConstraint _ _) m2) as [[[] m3]|] eqn:H3; [|done].
  injection Hrun as <-.
  pose proof (frame_shuffle _ _ _ m0 _ m1 HP0 H1) as HP1.
  assert (P m2) as HP2.
  { refine (preserved_forEach P _ _ _ m1 tt m2 HP1 H2).
    intros j. apply frame_placeImmutable. }
  assert (P m3) as HP3.
  { refine (preserved_forEach P _ _ _ m2 tt m3 HP2 H3).
    intros j. apply frame_placeConstraint. }
  by apply P_initialPuzzleState.
Qed.

Lemma frame_resetGame m m' :
  P (clearMoveHistory (resetTimer (with_gameState ready m))) →
  resetGame m = Some (tt, m') → P m'.
Proof.
  intros HP Hrun. unfold resetGame, restoreInitialPuzzleState in Hrun.
  destruct (initialPuzzleState _) as [initial|].
  - injection Hrun as <-. by apply P_gridSystem.
  - eapply frame_initializePuzzle; [|exact Hrun]. by apply P_gridSystem.
Qed.

End GenerationFrame.

(** * The life cycle *)
Section Lifecycle.

Import GameManager.

Lemma undo_timer m m' res : undo m = Some (m', res) → timer m' = timer m.
Proof.
  unfold undo, moveAt.
  destruct (bool_decide (0 ≤ currentMoveIndex m)); [|by intros [= <- _]]. simpl.
  destruct (moveHistory m !! _) as [mv|]; [|done]. simpl.
  destruct (GridSystem.setCell _ _ _ _) as [g []]; by intros [= <- _].
Qed.

Lemma redo_timer m m' res : redo m = Some (m', res) → timer m' = timer m.
Proof.
  unfold redo, moveAt.
  destruct (bool_decide (currentMoveIndex m < _)); [|by intros [= <- _]]. simpl.
  destruct (bool_decide (0 ≤ _)); [|done].
  destruct (moveHistory m !! _) as [mv|]; [|done]. simpl.
  destruct (GridSystem.setCell _ _ _ _) as [g []]; by intros [= <- _].
Qed.

Lemma resetGame_state m m' :
  resetGame m = Some (tt, m') →
  gameState m' = ready ∧ timer m' = resetTimerValue ∧
  moveHistory m' = [] ∧ currentMoveIndex m' = -1 ∧
  difficulty m' = difficulty m ∧ seed m' = seed m.
Proof.
  intros Hrun.
  apply (frame_resetGame
           (λ x, gameState x = ready ∧ timer x = resetTimerValue ∧
                 moveHistory x = [] ∧ currentMoveIndex x = -1 ∧
                 difficulty x = difficulty m ∧ seed x = seed m) ) with (m := m);
    done.
Qed.



(** The session on which [makeMove] works once the game is active. *)
Lemma makeMove_state now r c v m :
  gameState m = ready ∨ gameState m = playing →
  let m0 := if bool_decide (gameState m = ready) then (startGame now m).1 else m in
  gameState m0 = playing ∧
  ((makeMove now r c v m).1 = m0 ∨
   (gameState (makeMove now r c v m).1 = playing ∧
    timer (makeMove now r c v m).1 = timer m0) ∨
   (gameState (makeMove now r c v m).1 = completed ∧
    isRunning (timer (makeMove now r c v m).1) = false)).
Proof.
  intros Hst m0.
  assert (Hplaying : gameState m0 = playing).
  { unfold m0. destruct (bool_decide (gameState m = ready)) eqn:Hready.
    - apply bool_decide_eq_true in Hready. unfold startGame, startTimer.
      rewrite Hready. simpl. by destruct (negb _).
    - apply bool_decide_eq_false in Hready. by destruct Hst. }
  split; [done|].
  destruct ((GridSystem.setCell (gridSystem m) r c v).2) eqn:Hok.
  2:{ left. by rewrite (makeMove_refused now r c v m Hst Hok). }
  right. rewrite (makeMove_done now r c v m Hst Hok). fold m0.
  set (m1 := recordMove now r c _ v _).
  destruct (isGameCompleted m1).
  - right. by destruct (completeGame_state now m1) as (-> & -> & _).
  - left. done.
Qed.

Lemma makeMove_inactive now r c v m :
  gameState m = paused ∨ gameState m = completed →
  makeMove now r c v m = (m, MoveRefused "Game not active").
Proof. unfold makeMove. by intros [-> | ->]. Qed.


Lemma lifecycleInv_playing m :
  gameState m = playing → isRunning (timer m) = true → is_Some (startTime (timer m)) →
  lifecycleInv m.
Proof. intros Hst Hrun Hstart. unfold lifecycleInv. rewrite Hst, Hrun. done. Qed.

Lemma lifecycleInv_stopped m :
  gameState m = paused ∨ gameState m = completed → isRunning (timer m) = false →
  lifecycleInv m.
Proof.
  intros Hst Hrun. unfold lifecycleInv. rewrite Hrun.
  destruct Hst as [-> | ->]; done.
Qed.

Lemma lifecycleInv_ready m :
  gameState m = ready → timer m = resetTimerValue → moveHistory m = [] →
  currentMoveIndex m = -1 → lifecycleInv m.
Proof. intros Hst Ht Hh Hi. unfold lifecycleInv. rewrite Hst, Ht. done. Qed.

Lemma lifecycleInv_not_running m :
  lifecycleInv m → gameState m ≠ playing → isRunning (timer m) = false.
Proof.
  intros (_ & Hiff & _) Hst. destruct (isRunning (timer m)); [|done].
  destruct Hst. by apply Hiff.
Qed.

Lemma lifecycleInv_startGame now m : lifecycleInv m → lifecycleInv (startGame now m).1.
Proof.
  intros Hinv. unfold startGame.
  destruct (bool_decide (gameState m = ready) || bool_decide (gameState m = paused))
    eqn:Hst; [|done].
  assert (Hstop : isRunning (timer m) = false).
  { apply lifecycleInv_not_running; [done|]. intros Hp. by rewrite Hp in Hst. }
  simpl. unfold startTimer. simpl. rewrite Hstop. simpl.
  by apply lifecycleInv_playing.
Qed.

Lemma lifecycleInv_pauseGame now m : lifecycleInv m → lifecycleInv (pauseGame now m).1.
Proof.
  intros Hinv. unfold pauseGame.
  destruct (bool_decide (gameState m = playing)) eqn:Hst; [|done].
  apply bool_decide_eq_true in Hst. simpl. unfold pauseTimer. simpl.
  destruct (isRunning (timer m)) eqn:Hrun.
  - apply lifecycleInv_stopped; [by left|done].
  - apply lifecycleInv_stopped; [by left|done].
Qed.

Lemma lifecycleInv_makeMove now r c v m :
  lifecycleInv m → lifecycleInv (makeMove now r c v m).1.
Proof.
  intros Hinv.
  destruct (decide (gameState m = ready ∨ gameState m = playing)) as [Hst|Hst].
  2:{ rewrite makeMove_inactive; [done|]. destruct (gameState m); tauto. }
  destruct (makeMove_state now r c v m Hst) as (Hplaying & Hcases).
  set (m0 := if bool_decide (gameState m = ready) then (startGame now m).1 else m) in *.
  assert (Hinv0 : lifecycleInv m0).
  { unfold m0. destruct (bool_decide _); [by apply lifecycleInv_startGame|done]. }
  destruct Hcases as [-> |[[Hs Ht]|[Hs Ht]]]; [done| |].
  - destruct Hinv0 as (_ & Hiff & Hstart).
    apply lifecycleInv_playing; [done|rewrite Ht..].
    + by apply Hiff.
    + apply Hstart. by apply Hiff.
  - apply lifecycleInv_stopped; [by right|done].
Qed.

Lemma lifecycleInv_run op m m' : lifecycleInv m → run op m = Some m' → lifecycleInv m'.
Proof.
  intros Hinv Hrun. destruct op as [now|now| |now r c v| |]; simpl in Hrun.
  - injection Hrun as <-. by apply lifecycleInv_startGame.
  - injection Hrun as <-. by apply lifecycleInv_pauseGame.
  - destruct (resetGame m) as [[[] m1]|] eqn:Hreset; [|done]. injection Hrun as <-.
    apply resetGame_state in Hreset as (Hst & Ht & Hh & Hi & _).
    by apply lifecycleInv_ready.
  - injection Hrun as <-. by apply lifecycleInv_makeMove.
  - destruct (undo m) as [[m1 res]|] eqn:Hundo; [|done]. injection Hrun as <-.
    destruct (decide (gameState m = ready)) as [Hst|Hst].
    + destruct Hinv as (Hready & _). destruct (Hready Hst) as (_ & _ & Hi).
      unfold undo in Hundo. rewrite Hi in Hundo. simpl in Hundo.
      injection Hundo as <- _. by apply lifecycleInv_ready; [|apply Hready..].
    + pose proof (undo_keeps_gameState _ _ _ Hundo) as Hs.
      pose proof (undo_timer _ _ _ Hundo) as Ht.
      destruct Hinv as (_ & Hiff & Hstart). unfold lifecycleInv. rewrite Hs, Ht. done.
  - destruct (redo m) as [[m1 res]|] eqn:Hredo; [|done]. injection Hrun as <-.
    destruct (decide (gameState m = ready)) as [Hst|Hst].
    + destruct Hinv as (Hready & _). destruct (Hready Hst) as (_ & Hh & Hi).
      unfold redo in Hredo. rewrite Hi, Hh in Hredo. simpl in Hredo.
      injection Hredo as <- _. by apply lifecycleInv_ready; [|apply Hready..].
    + pose proof (redo_keeps_gameState _ _ _ Hredo) as Hs.
      pose proof (redo_timer _ _ _ Hredo) as Ht.
      destruct Hinv as (_ & Hiff & Hstart). unfold lifecycleInv. rewrite Hs, Ht. done.
Qed.

Lemma lifecycleInv_runAll ops m m' : lifecycleInv m → runAll ops m = Some m' → lifecycleInv m'.
Proof.
  revert m. induction ops as [|op ops IH]; intros m Hm Hrun; simpl in Hrun.
  - by injection Hrun as <-.
  - destruct (run op m) as [m1|] eqn:Hop; [|done]. simpl in Hrun.
    eapply IH; [|exact Hrun]. by eapply lifecycleInv_run.
Qed.

Lemma lifecycleInv_constructor size difficulty seed m :
  constructor size difficulty seed = Some m → lifecycleInv m.
Proof.
  unfold constructor. intros Hrun.
  destruct (initializePuzzle _) as [[[] m0]|] eqn:Hnew; [|done]. injection Hrun as <-.
  apply (frame_initializePuzzle
           (λ x, gameState x = ready ∧ timer x = resetTimerValue ∧
                 moveHistory x = [] ∧ currentMoveIndex x = -1)) in Hnew
    as (Hst & Ht & Hh & Hi); [|done..].
  by apply lifecycleInv_ready.
Qed.

End Lifecycle.



(** In a session built by the constructor and driven by any calls, the
    timer runs exactly while the game is being played, and a session in
    the state [ready] has the timer at zero and no recorded move. *)
Theorem constructor_sessions_keep_timer_and_state_together
    (size : Z) (difficulty : string) (seed : list Z) (ops : list Op) (m : GameManager.t) :
  GameManager.constructor size difficulty seed ≫= runAll ops = Some m →
  lifecycleInv m.
Proof.
  intros Hrun.
  destruct (GameManager.constructor size difficulty seed) as [m0|] eqn:Hnew; [|done].
  simpl in Hrun. apply (lifecycleInv_runAll ops m0); [|done].
  by apply (lifecycleInv_constructor size difficulty seed).
Qed.

Lemma constructor_sessions_keep_timer_and_state_together_witness :
  ∃ m, scenarioABCD = Some m ∧
       GameManager.gameState m = GameManager.playing ∧
       GameManager.isRunning (GameManager.timer m) = true.
Proof.
  eexists. split; [vm_compute; reflexivity|].
  match goal with |- GameManager.gameState ?m = _ ∧ _ =>
    destruct (constructor_sessions_keep_timer_and_state_together 2 "easy" (codeUnits "A")
                [OpMove 10 0 0 Orange; OpMove 20 0 1 Moon; OpMove 30 1 0 Moon;
                 OpUndo; OpUndo; OpMove 40 1 0 Orange] m)
      as (_ & Hiff & _); [vm_compute; reflexivity|]
  end.
  split; [reflexivity|]. apply Hiff. reflexivity.
Defined.

(** The elapsed time of a session whose timer goes with its state.  After
    the first start it is the time since that start.  Pausing freezes it,
    and after a resume it grows again from where it stood: the time spent
    paused is not counted.  Completing the game reports the elapsed time
    of that moment and freezes it. *)
Theorem paused_time_is_not_counted (m : GameManager.t) :
  lifecycleInv m →
  (GameManager.gameState m = GameManager.ready →
     ∀ t0 t, GameManager.getElapsedTime t (GameManager.startGame t0 m).1 = t - t0) ∧
  (GameManager.gameState m = GameManager.playing →
     ∀ t1 t2 t3,
       let m1 := (GameManager.pauseGame t1 m).1 in
       let m2 := (GameManager.startGame t2 m1).1 in
       GameManager.gameState m1 = GameManager.paused ∧
       (∀ t, GameManager.getElapsedTime t m1 = GameManager.getElapsedTime t1 m) ∧
       GameManager.gameState m2 = GameManager.playing ∧
       GameManager.getElapsedTime t3 m2 = GameManager.getElapsedTime t1 m + (t3 - t2)) ∧
  (GameManager.gameState m = GameManager.playing →
     ∀ now,
       GameManager.s_time (GameManager.completeGame now m).2 =
         GameManager.getElapsedTime now m ∧
       ∀ t, GameManager.getElapsedTime t (GameManager.completeGame now m).1 =
              GameManager.getElapsedTime now m).
Proof.
  intros (Hready & Hiff & Hstart). split; [|split].
  - intros Hst t0 t. destruct (Hready Hst) as (Ht & _).
    unfold GameManager.startGame, GameManager.startTimer. rewrite Hst. simpl.
    rewrite Ht. simpl.
    unfold GameManager.getElapsedTime, GameManager.sinceStart. simpl. lia.
  - intros Hst t1 t2 t3.
    pose proof (proj2 Hiff Hst) as Hrun. destruct (Hstart Hrun) as [s Hs].
    unfold GameManager.pauseGame, GameManager.pauseTimer. rewrite Hst. simpl.
    rewrite Hrun. simpl.
    unfold GameManager.startGame, GameManager.startTimer. simpl.
    unfold GameManager.getElapsedTime, GameManager.sinceStart. simpl.
    rewrite Hrun, Hs. simpl. split; [done|]. split; [done|]. split; [done|]. lia.
  - intros Hst now. pose proof (proj2 Hiff Hst) as Hrun.
    unfold GameManager.completeGame, GameManager.pauseTimer. simpl. rewrite Hrun.
    unfold GameManager.getElapsedTime. simpl. rewrite Hrun. done.
Qed.

Lemma paused_time_is_not_counted_witness :
  ∃ m, sessionA = Some m ∧ lifecycleInv m ∧
       GameManager.getElapsedTime 5000 (GameManager.startGame 1000 m).1 = 4000.
Proof.
  eexists. split; [vm_compute; reflexivity|].
  match goal with |- lifecycleInv ?m ∧ _ =>
    assert (lifecycleInv m) as Hinv
      by (apply (lifecycleInv_constructor 2 "easy" (codeUnits "A")); vm_compute; reflexivity);
    destruct (paused_time_is_not_counted m Hinv) as (Hfirst & _)
  end.
  split; [exact Hinv|]. apply (Hfirst eq_refl 1000 5000).
Defined.

(** * The number of generated constraints *)
Section GeneratedCounts.

Import GameManager.

Lemma call_gridSystem random m x m' :
  call random m = Some (x, m') → gridSystem m' = gridSystem m.
Proof.
  unfold call. destruct random; [done|]. destruct (seedValue m); [|done].
  by intros [= _ <-].
Qed.

Lemma forEach_bound {A} (f : t → nat) (l : list A) (body : A → M unit) :
  (∀ i m m', body i m = Some (tt, m') → (f m' ≤ f m + 1)%nat) →
  ∀ m m', forEach l body m = Some (tt, m') → (f m' ≤ f m + length l)%nat.
Proof.
  intros Hbody. induction l as [|i l IH]; intros m m' Hrun; simpl in Hrun.
  - injection Hrun as <-. simpl. lia.
  - unfold mbind, M_bind in Hrun.
    destruct (body i m) as [[[] m1]|] eqn:Hi; [|done].
    apply Hbody in Hi. apply IH in Hrun. simpl. lia.
Qed.

Lemma set_length {V} (k : string) (v : V) (cs : list (string * V)) :
  (length (JSMap.set k v cs) ≤ length cs + 1)%nat.
Proof.
  induction cs as [|[k' v'] cs IH]; simpl; [lia|].
  destruct (bool_decide (k = k')); simpl; lia.
Qed.

Lemma addConstraint_count r1 c1 r2 c2 ty m ok m' :
  addConstraint r1 c1 r2 c2 ty m = Some (ok, m') →
  (length (GridSystem.constraints (gridSystem m')) ≤
   length (GridSystem.constraints (gridSystem m)) + 1)%nat.
Proof.
  unfold addConstraint, GridSystem.addConstraint.
  destruct (_ && _); intros [= _ <-]; simpl; [apply set_length|lia].
Qed.

Lemma placeConstraint_count random size j m m' :
  placeConstraint random size j m = Some (tt, m') →
  (length (GridSystem.constraints (gridSystem m')) ≤
   length (GridSystem.constraints (gridSystem m)) + 1)%nat.
Proof.
  unfold placeConstraint, mbind, M_bind. intros Hrun.
  destruct (call random m) as [[x1 m1]|] eqn:H1; [|done].
  destruct (call random m1) as [[x2 m2]|] eqn:H2; [|done].
  destruct (call random m2) as [[x3 m3]|] eqn:H3; [|done].
  destruct (call random m3) as [[x4 m4]|] eqn:H4; [|done].
  apply call_gridSystem in H1, H2, H3, H4.
  assert (Hg : gridSystem m4 = gridSystem m) by congruence. rewrite <-Hg.
  destruct (JSNumber.gt x4 half).
  - destruct (addConstraint _ _ _ _ _ m4) as [[ok m5]|] eqn:H5; [|done].
    injection Hrun as <-. by eapply addConstraint_count.
  - destruct (bool_decide _).
    + destruct (addConstraint _ _ _ _ _ m4) as [[ok m5]|] eqn:H5; [|done].
      injection Hrun as <-. by eapply addConstraint_count.
    + injection Hrun as <-. lia.
Qed.

Lemma constraints_call cs random :
  preserved (λ m, GridSystem.constraints (gridSystem m) = cs) (call random).
Proof. intros m x m' HP Hrun. by rewrite (call_gridSystem _ _ _ _ Hrun). Qed.

Lemma constraints_shuffle cs random idx positions :
  preserved (λ m, GridSystem.constraints (gridSystem m) = cs)
            (shuffle random idx positions).
Proof.
  revert positions. induction idx as [|j idx IH]; intros positions; simpl.
  - apply preserved_ret.
  - apply preserved_bind; [apply constraints_call|]. intros x. apply IH.
Qed.

Lemma constraints_placeImmutable cs random positions j :
  preserved (λ m, GridSystem.constraints (gridSystem m) = cs)
            (placeImmutable random positions j).
Proof.
  unfold placeImmutable. destruct (positions !! _); [|done].
  apply preserved_bind; [apply constraints_call|]. intros x.
  apply preserved_bind; [|intros _; apply preserved_ret].
  intros m ok m' HP Hrun. unfold setImmutable, GridSystem.setImmutable in Hrun.
  destruct (GridSystem.isValidPosition _ _ _); by injection Hrun as _ <-.
Qed.

Lemma initializePuzzle_count m m' :
  GridSystem.constraints (gridSystem m) = [] →
  initializePuzzle m = Some (tt, m') →
  Z.of_nat (length (GridSystem.constraints (gridSystem m'))) ≤
    Z.max 0 (constraintCount (GridSystem.size (gridSystem m))).
Proof.
  intros HP Hrun. unfold initializePuzzle in Hrun.
  destruct (seedRandom (seed m) m) as [m0 random] eqn:Hseed.
  assert (GridSystem.constraints (gridSystem m0) = []) as HP0.
  { unfold seedRandom in Hseed. destruct (bool_decide _); injection Hseed as <- _; done. }
  unfold mbind, M_bind in Hrun.
  destruct (shuffle _ _ _ m0) as [[positions m1]|] eqn:H1; [|done].
  destruct (forEach _ (placeImmutable _ _) m1) as [[[] m2]|] eqn:H2; [|done].
  destruct (forEach _ (placeConstraint _ _) m2) as [[[] m3]|] eqn:H3; [|done].
  injection Hrun as <-. simpl.
  pose proof (constraints_shuffle [] _ _ _ m0 _ m1 HP0 H1) as HP1. simpl in HP1.
  assert (GridSystem.constraints (gridSystem m2) = []) as HP2.
  { refine (preserved_forEach (λ m, GridSystem.constraints (gridSystem m) = []) _ _ _
              m1 tt m2 HP1 H2).
    intros j. apply constraints_placeImmutable. }
  apply (forEach_bound (λ m, length (GridSystem.constraints (gridSystem m)))) in H3.
  2:{ intros j. apply placeConstraint_count. }
  simpl in H3. rewrite HP2, length_seqZ in H3. simpl in H3. lia.
Qed.

End GeneratedCounts.

(** What [initializePuzzle] builds on a fresh grid, whenever it returns.
    The grid keeps its size; every cell is either empty and free or an
    immutable symbol; each constraint is stored once, under its own key,
    and links a cell of the grid to its right or lower neighbour; there
    are at most [floor(size * 0.7)] constraints; the snapshot for
    [resetGame] is the grid and the constraints just built; and the game
    state, the timer, the history, the seed and the difficulty are not
    touched. *)
Theorem generation_builds_a_well_formed_puzzle
    (size : Z) (m0 m : GameManager.t) :
  GameManager.gridSystem m0 = GridSystem.new size →
  GameManager.initializePuzzle m0 = Some (tt, m) →
  let g := GameManager.gridSystem m in
  GridSystem.size g = size ∧ GridSystem.wf g ∧
  givenOrEmpty (GridSystem.grid g) ∧
  constraintsKept g ∧
  Z.of_nat (length (GridSystem.getConstraints g)) ≤ Z.max 0 (GameManager.constraintCount size) ∧
  GameManager.initialPuzzleState m =
    Some (GameManager.mkPuzzleState (GridSystem.grid g) (GridSystem.getConstraints g)) ∧
  GameManager.gameState m = GameManager.gameState m0 ∧
  GameManager.timer m = GameManager.timer m0 ∧
  GameManager.moveHistory m = GameManager.moveHistory m0 ∧
  GameManager.currentMoveIndex m = GameManager.currentMoveIndex m0 ∧
  GameManager.difficulty m = GameManager.difficulty m0 ∧
  GameManager.seed m = GameManager.seed m0.
Proof.
  intros Hg Hrun g.
  destruct (initializePuzzle_puzzleOn size m0 m (puzzleOn_fresh size m0 Hg) Hrun)
    as (Hn & Hwf & Hkept & Hgiven).
  split; [done|]. split; [done|]. split; [done|]. split; [done|]. split.
  { unfold GridSystem.getConstraints, JSMap.values. rewrite length_fmap.
    pose proof (initializePuzzle_count m0 m) as Hcount.
    rewrite Hg in Hcount. by apply Hcount. }
  split.
  { apply (initializePuzzle_shape size (GameManager.moveHistory m0)
             (GameManager.currentMoveIndex m0)) in Hrun as [_ Hps]; [done|].
    split; [by rewrite Hg|]. split; [|done]. rewrite Hg. apply wf_new. }
  apply (frame_initializePuzzle
           (λ x, GameManager.gameState x = GameManager.gameState m0 ∧
                 GameManager.timer x = GameManager.timer m0 ∧
                 GameManager.moveHistory x = GameManager.moveHistory m0 ∧
                 GameManager.currentMoveIndex x = GameManager.currentMoveIndex m0 ∧
                 GameManager.difficulty x = GameManager.difficulty m0 ∧
                 GameManager.seed x = GameManager.seed m0)) in Hrun; done.
Qed.

Lemma generation_builds_a_well_formed_puzzle_witness :
  ∃ m, GameManager.initializePuzzle (afterEarlierGame 4 "medium" (codeUnits "TEST1234"))
         = Some (tt, m) ∧
       GameManager.gameState m = GameManager.completed ∧
       length (GridSystem.getConstraints (GameManager.gridSystem m)) = 2%nat ∧
       GameManager.constraintCount 4 = 2.
Proof.
  eexists. split; [vm_compute; reflexivity|].
  match goal with |- GameManager.gameState ?m = _ ∧ _ =>
    destruct (generation_builds_a_well_formed_puzzle 4
                (afterEarlierGame 4 "medium" (codeUnits "TEST1234")) m)
      as (_ & _ & _ & _ & _ & _ & Hst & _); [reflexivity|vm_compute; reflexivity|]
  end.
  split; [exact Hst|]. split; vm_compute; reflexivity.
Defined.

(** * The given cells of a generated puzzle *)
Section GivenCells.

Import GameManager.

Lemma insert_out_perm {A} (l : list A) (k : nat) (b x : A) :
  l !! k = Some b → b :: <[k:=x]> l ≡ₚ x :: l.
Proof.
  revert k. induction l as [|y l IH]; intros [|k] Hk; simplify_eq/=.
  - apply Permutation_swap.
  - rewrite Permutation_swap, (IH k Hk). apply Permutation_swap.
Qed.

Lemma insert_insert_perm {A} (l : list A) (i j : nat) (a b : A) :
  l !! i = Some a → l !! j = Some b → <[j:=a]> (<[i:=b]> l) ≡ₚ l.
Proof.
  revert i j. induction l as [|x l IH]; intros [|i] [|j] Hi Hj; simplify_eq/=.
  - done.
  - by apply insert_out_perm.
  - by apply insert_out_perm.
  - by rewrite IH.
Qed.

Lemma swap_perm i j positions : swap i j positions ≡ₚ positions.
Proof.
  unfold swap. destruct (positions !! Z.to_nat i) as [a|] eqn:Hi; [|done].
  destruct (positions !! Z.to_nat j) as [b|] eqn:Hj; [|done].
  by apply insert_insert_perm.
Qed.

(** The shuffle returns the positions in another order. *)
Lemma shuffle_perm random idx positions m positions' m' :
  shuffle random idx positions m = Some (positions', m') → positions' ≡ₚ positions.
Proof.
  revert positions m. induction idx as [|i idx IH]; intros positions m Hrun;
    simpl in Hrun.
  - by injection Hrun as <- _.
  - unfold mbind, M_bind in Hrun. destruct (call random m) as [[x m1]|]; [|done].
    apply IH in Hrun. by rewrite Hrun, swap_perm.
Qed.

Lemma shuffle_gridSystem random idx positions m positions' m' :
  shuffle random idx positions m = Some (positions', m') → gridSystem m' = gridSystem m.
Proof.
  revert positions m. induction idx as [|i idx IH]; intros positions m Hrun;
    simpl in Hrun.
  - by injection Hrun as _ <-.
  - unfold mbind, M_bind in Hrun.
    destruct (call random m) as [[x m1]|] eqn:Hcall; [|done].
    apply IH in Hrun. by rewrite Hrun, (call_gridSystem _ _ _ _ Hcall).
Qed.

Lemma allPositions_eq n :
  allPositions n = seqZ 0 n ≫= λ r, mkPos r <$> seqZ 0 n.
Proof.
  unfold allPositions.
  etrans; [apply foldl_ext_eq; intros acc r; apply (foldl_snoc_fmap (mkPos r))|].
  by rewrite (foldl_append_bind (λ r, mkPos r <$> seqZ 0 n)).
Qed.

Lemma allPositions_elem n p : p ∈ allPositions n ↔ 0 ≤ row p < n ∧ 0 ≤ col p < n.
Proof.
  rewrite allPositions_eq, list_elem_of_bind. split.
  - intros (r & Hin & Hr). apply list_elem_of_fmap in Hin as (c & -> & Hc).
    apply elem_of_seqZ in Hr, Hc. simpl. lia.
  - intros [Hr Hc]. exists (row p). split; [|apply elem_of_seqZ; lia].
    apply list_elem_of_fmap. exists (col p). split; [by destruct p|].
    apply elem_of_seqZ. lia.
Qed.

Lemma allPositions_NoDup n : NoDup (allPositions n).
Proof.
  rewrite allPositions_eq. apply NoDup_bind; [| |apply NoDup_seqZ].
  - intros r r' p _ _ Hp Hp'.
    apply list_elem_of_fmap in Hp as (c & -> & _).
    apply list_elem_of_fmap in Hp' as (c' & [= ->] & _). done.
  - intros r _. apply NoDup_fmap_2; [|apply NoDup_seqZ]. by intros c c' [= ->].
Qed.

Lemma allPositions_length n : length (allPositions n) = (Z.to_nat n * Z.to_nat n)%nat.
Proof.
  rewrite allPositions_eq.
  rewrite (length_bind_const _ (Z.to_nat n)), length_seqZ; [done|].
  intros r _. by rewrite length_fmap, length_seqZ.
Qed.

(** One round of the loop that places the givens: the cell at the next
    position of the shuffled list becomes immutable. *)
Lemma placeImmutable_step random positions n (a : nat) pos m m' :
  positions !! a = Some pos → 0 ≤ row pos < n → 0 ≤ col pos < n →
  GridSystem.size (gridSystem m) = n → GridSystem.wf (gridSystem m) →
  placeImmutable random positions (Z.of_nat a) m = Some (tt, m') →
  GridSystem.size (gridSystem m') = n ∧ GridSystem.wf (gridSystem m') ∧
  ∀ r c, immutable (GridSystem.cell (gridSystem m') r c) = true ↔
         mkPos r c = pos ∨ immutable (GridSystem.cell (gridSystem m) r c) = true.
Proof.
  intros Hpos Hr Hc Hn Hwf Hrun. unfold placeImmutable in Hrun.
  rewrite Nat2Z.id, Hpos in Hrun. unfold mbind, M_bind in Hrun.
  destruct (call random m) as [[x m1]|] eqn:Hcall; [|done].
  apply call_gridSystem in Hcall.
  unfold setImmutable, GridSystem.setImmutable in Hrun. rewrite Hcall in Hrun.
  rewrite (proj2 (isValidPosition_true (gridSystem m) (row pos) (col pos))) in Hrun
    by (rewrite Hn; done).
  injection Hrun as <-. simpl. split; [done|]. split; [by apply wf_grid_update|].
  intros r c. unfold GridSystem.cell. simpl.
  destruct (decide ((r, c) = (row pos, col pos))) as [[= -> ->]|Hne].
  - rewrite at_update_eq by (eapply wf_grid_lookup; [exact Hwf|rewrite Hn; done..]).
    simpl. split; [|done]. intros _. left. by destruct pos.
  - rewrite at_update_ne by done. split; [by right|].
    intros [<- |H]; [|done]. by destruct Hne.
Qed.

Lemma placeImmutable_loop random positions n (k a : nat) m m' :
  (∀ p, p ∈ positions → 0 ≤ row p < n ∧ 0 ≤ col p < n) →
  (a + k ≤ length positions)%nat →
  GridSystem.size (gridSystem m) = n → GridSystem.wf (gridSystem m) →
  (∀ r c, immutable (GridSystem.cell (gridSystem m) r c) = true ↔
          mkPos r c ∈ take a positions) →
  forEach (seqZ (Z.of_nat a) (Z.of_nat k)) (placeImmutable random positions) m
    = Some (tt, m') →
  GridSystem.size (gridSystem m') = n ∧ GridSystem.wf (gridSystem m') ∧
  ∀ r c, immutable (GridSystem.cell (gridSystem m') r c) = true ↔
         mkPos r c ∈ take (a + k) positions.
Proof.
  intros Hin. revert a m. induction k as [|k IH]; intros a m Hlen Hn Hwf Hgiven Hrun.
  - rewrite seqZ_nil in Hrun by lia. injection Hrun as <-.
    by rewrite Nat.add_0_r.
  - rewrite seqZ_cons in Hrun by lia. simpl in Hrun. unfold mbind, M_bind in Hrun.
    destruct (placeImmutable random positions (Z.of_nat a) m) as [[[] m1]|] eqn:Hstep;
      [|done].
    destruct (lookup_lt_is_Some_2 positions a) as [pos Hpos]; [lia|].
    destruct (Hin pos) as [Hr Hc]; [by eapply list_elem_of_lookup_2|].
    destruct (placeImmutable_step _ _ n _ _ _ _ Hpos Hr Hc Hn Hwf Hstep)
      as (Hn1 & Hwf1 & Hgiven1).
    replace (Z.succ (Z.of_nat a)) with (Z.of_nat (S a)) in Hrun by lia.
    replace (Z.pred (Z.of_nat (S k))) with (Z.of_nat k) in Hrun by lia.
    replace (a + S k)%nat with (S a + k)%nat by lia.
    apply (IH (S a) m1); [lia|done..| |done].
    intros r c. rewrite Hgiven1, Hgiven, (take_S_r _ _ _ Hpos), elem_of_app,
      list_elem_of_singleton. tauto.
Qed.

(** The loop that places the constraints does not touch the cells. *)
Lemma grid_placeConstraint gr random size j :
  preserved (λ m, GridSystem.grid (gridSystem m) = gr) (placeConstraint random size j).
Proof.
  assert (Hadd : ∀ r1 c1 r2 c2 ty,
            preserved (λ m, GridSystem.grid (gridSystem m) = gr)
                      (addConstraint r1 c1 r2 c2 ty)).
  { intros r1 c1 r2 c2 ty m ok m' HP Hrun.
    unfold addConstraint, GridSystem.addConstraint in Hrun.
    destruct (_ && _); by injection Hrun as _ <-. }
  assert (Hcall : preserved (λ m, GridSystem.grid (gridSystem m) = gr) (call random)).
  { intros m x m' HP Hrun. by rewrite (call_gridSystem _ _ _ _ Hrun). }
  unfold placeConstraint.
  repeat (apply preserved_bind; [apply Hcall|]; intros ?).
  repeat case_match;
    try (apply preserved_bind; [apply Hadd|]; intros _);
    apply preserved_ret.
Qed.

Lemma length_omap_filter {A B} (F : A → option B) (P : A → Prop)
    `{!∀ x, Decision (P x)} (l : list A) :
  (∀ x, is_Some (F x) ↔ P x) → length (omap F l) = length (filter P l).
Proof.
  intros HF. induction l as [|x l IH]; [done|].
  rewrite filter_cons. csimpl. destruct (F x) as [y|] eqn:Hx.
  - rewrite decide_True by (apply HF; by rewrite Hx). csimpl. by f_equal.
  - rewrite decide_False; [done|]. intros HP. apply HF in HP. rewrite Hx in HP.
    by destruct HP.
Qed.

(** The immutable cells of the generated grid are the first cells of the
    shuffled list of positions. *)
Lemma initializePuzzle_givens size m0 m :
  gridSystem m0 = GridSystem.new size → initializePuzzle m0 = Some (tt, m) →
  ∃ positions,
    positions ≡ₚ allPositions size ∧
    ∀ r c, immutable (GridSystem.cell (gridSystem m) r c) = true ↔
           mkPos r c ∈
             take (Z.to_nat (Z.min (prefilledCount size (difficulty m0))
                                   (Z.of_nat (length (allPositions size))))) positions.
Proof.
  intros Hg Hrun. unfold initializePuzzle in Hrun. rewrite Hg in Hrun. simpl in Hrun.
  destruct (seedRandom (seed m0) m0) as [m1 random] eqn:Hseed.
  assert (gridSystem m1 = GridSystem.new size ∧ difficulty m1 = difficulty m0)
    as [Hg1 Hd1].
  { unfold seedRandom in Hseed. destruct (bool_decide _); injection Hseed as <- _; done. }
  unfold mbind, M_bind in Hrun.
  destruct (shuffle _ _ _ m1) as [[positions m2]|] eqn:H1; [|done].
  destruct (forEach _ (placeImmutable _ _) m2) as [[[] m3]|] eqn:H2; [|done].
  destruct (forEach _ (placeConstraint _ _) m3) as [[[] m4]|] eqn:H3; [|done].
  injection Hrun as <-. simpl.
  pose proof (shuffle_perm _ _ _ _ _ _ H1) as Hperm.
  pose proof (shuffle_gridSystem _ _ _ _ _ _ H1) as Hg2. rewrite Hg1 in Hg2.
  exists positions. split; [done|].
  assert (Hlen : length positions = length (allPositions size)) by (by rewrite Hperm).
  rewrite Hd1, Hlen in H2.
  set (k := Z.min _ _) in *.
  assert (Hseq : seqZ 0 k = seqZ (Z.of_nat 0) (Z.of_nat (Z.to_nat k))).
  { destruct (decide (0 ≤ k)); [by rewrite Z2Nat.id|]. by rewrite !seqZ_nil by lia. }
  rewrite Hseq in H2.
  apply (placeImmutable_loop _ _ size) in H2 as (_ & _ & Hgiven).
  - intros r c. rewrite <-Hgiven.
    assert (Hgrid : GridSystem.grid (gridSystem m4) = GridSystem.grid (gridSystem m3));
      [|unfold GridSystem.cell; by rewrite Hgrid].
    refine (preserved_forEach
              (λ m, GridSystem.grid (gridSystem m) = GridSystem.grid (gridSystem m3))
              _ _ _ m3 tt m4 eq_refl H3).
    intros j. apply grid_placeConstraint.
  - intros p Hp. rewrite Hperm in Hp. by apply allPositions_elem.
  - rewrite Hlen. unfold k. lia.
  - by rewrite Hg2.
  - rewrite Hg2. apply wf_new.
  - intros r c. rewrite Hg2. simpl. split; [|by intros H%elem_of_nil].
    unfold GridSystem.cell. simpl. by rewrite at_new.
Qed.

Lemma immutableCells_length g positions (k : nat) :
  positions ≡ₚ allPositions (GridSystem.size g) →
  (∀ r c, immutable (GridSystem.cell g r c) = true ↔ mkPos r c ∈ take k positions) →
  length (immutableCells g) = (k `min` length positions)%nat.
Proof.
  intros Hperm Hgiven. unfold immutableCells.
  rewrite (length_omap_filter _
             (λ p, immutable (GridSystem.cell g (row p) (col p)) = true)).
  2:{ intros p. destruct (immutable (GridSystem.cell g (row p) (col p))); split;
        (done || by intros []). }
  rewrite <-(length_take positions k). apply Permutation_length.
  assert (Hnd : NoDup positions) by (rewrite Hperm; apply allPositions_NoDup).
  apply NoDup_Permutation.
  - apply NoDup_filter, allPositions_NoDup.
  - rewrite <-(take_drop k positions) in Hnd. by apply NoDup_app in Hnd as [? _].
  - intros p. rewrite list_elem_of_filter, Hgiven.
    replace (mkPos (row p) (col p)) with p by (by destruct p).
    split; [by intros [? _]|]. intros Hp. split; [done|].
    rewrite <-Hperm. by eapply subseteq_take.
Qed.

End GivenCells.

(** Generation on a fresh grid gives exactly the requested number of
    givens: [prefilledCount] cells, or all the cells when there are fewer,
    are immutable symbols, and they are the first cells of a reordering of
    all the positions of the grid; every other cell is empty and free. *)
Theorem generation_places_the_requested_givens (size : Z) (m0 m : GameManager.t) :
  0 ≤ size →
  GameManager.gridSystem m0 = GridSystem.new size →
  GameManager.initializePuzzle m0 = Some (tt, m) →
  let g := GameManager.gridSystem m in
  let k := Z.max 0 (Z.min (GameManager.prefilledCount size (GameManager.difficulty m0))
                          (size * size)) in
  Z.of_nat (length (immutableCells g)) = k ∧
  (∃ positions,
     positions ≡ₚ GameManager.allPositions size ∧
     ∀ r c, immutable (GridSystem.cell g r c) = true ↔
            mkPos r c ∈ take (Z.to_nat k) positions) ∧
  (∀ r c, immutable (GridSystem.cell g r c) = false →
          GridSystem.cell g r c = GridSystem.emptyCell) ∧
  (∀ r c, immutable (GridSystem.cell g r c) = true →
          value (GridSystem.cell g r c) ≠ Null).
Proof.
  intros Hsize Hg Hrun g k.
  destruct (initializePuzzle_puzzleOn size m0 m (puzzleOn_fresh size m0 Hg) Hrun)
    as (Hn & _ & _ & Hgiven).
  destruct (initializePuzzle_givens size m0 m Hg Hrun) as (positions & Hperm & Himm).
  assert (Hlen : Z.of_nat (length (GameManager.allPositions size)) = size * size).
  { rewrite allPositions_length, Nat2Z.inj_mul, !Z2Nat.id by lia. done. }
  rewrite Hlen in Himm.
  assert (Hk : Z.to_nat k =
               Z.to_nat (Z.min (GameManager.prefilledCount size (GameManager.difficulty m0))
                               (size * size))) by (unfold k; lia).
  split; [|split; [|split]].
  - rewrite (immutableCells_length g positions (Z.to_nat k)).
    + rewrite Hperm. unfold k. lia.
    + fold g in Hn. by rewrite Hn.
    + by rewrite Hk.
  - exists positions. split; [done|]. by rewrite Hk.
  - intros r c Hfree. destruct (Hgiven r c) as [He|[Hi _]]; [done|].
    unfold GridSystem.cell in Hfree. fold g in Hi. congruence.
  - intros r c Hi. destruct (Hgiven r c) as [He|[_ Hv]]; [|done].
    unfold GridSystem.cell in Hi. fold g in He. by rewrite He in Hi.
Qed.

Lemma generation_places_the_requested_givens_witness :
  ∃ m, GameManager.initializePuzzle (beforeGeneration 4 "medium" (codeUnits "TEST1234"))
         = Some (tt, m) ∧
       Z.of_nat (length (immutableCells (GameManager.gridSystem m))) = 4 ∧
       GameManager.prefilledCount 4 "medium" = 4.
Proof.
  eexists. split; [vm_compute; reflexivity|].
  match goal with |- Z.of_nat (length (immutableCells (GameManager.gridSystem ?m))) = _ ∧ _ =>
    destruct (generation_places_the_requested_givens 4
                (beforeGeneration 4 "medium" (codeUnits "TEST1234")) m)
      as (Hcount & _); [lia|reflexivity|vm_compute; reflexivity|]
  end.
  split; [|vm_compute; reflexivity].
  rewrite Hcount. vm_compute. reflexivity.
Defined.

(** * The displayed time *)
Section FormatTime.

Import GameManager.

Lemma append_inj_length (s1 s2 t1 t2 : string) :
  String.length s1 = String.length s2 → s1 +:+ t1 = s2 +:+ t2 → s1 = s2 ∧ t1 = t2.
Proof.
  revert s2. induction s1 as [|a s1 IH]; intros [|b s2] Hlen Heq; simplify_eq/=.
  - done.
  - destruct (IH s2) as [-> ->]; done.
Qed.

Lemma append_length (s t : string) :
  String.length (s +:+ t) = (String.length s + String.length t)%nat.
Proof. induction s as [|a s IH]; simpl; [done|]. by rewrite IH. Qed.

Lemma pad2_length n : 0 ≤ n < 100 → String.length (JSNumber.pad2 n) = 2%nat.
Proof.
  assert (H : forallb (λ i, bool_decide (String.length (JSNumber.pad2 i) = 2%nat))
                      (seqZ 0 100) = true) by (by vm_compute).
  intros Hn. pose proof (proj1 (forallb_seqZ _ 100) H n Hn) as H1. cbv beta in H1.
  by apply bool_decide_eq_true in H1.
Qed.

Lemma pad2_inj n n' :
  0 ≤ n < 100 → 0 ≤ n' < 100 → JSNumber.pad2 n = JSNumber.pad2 n' → n = n'.
Proof.
  assert (H : forallb (λ i, forallb (λ j,
                 implb (bool_decide (JSNumber.pad2 i = JSNumber.pad2 j))
                       (bool_decide (i = j))) (seqZ 0 100)) (seqZ 0 100) = true)
    by (by vm_compute).
  intros Hn Hn' Heq.
  pose proof (proj1 (forallb_seqZ _ 100) H n Hn) as H1. cbv beta in H1.
  pose proof (proj1 (forallb_seqZ _ 100) H1 n' Hn') as H2. cbv beta in H2.
  rewrite (bool_decide_eq_true_2 _ Heq) in H2. by apply bool_decide_eq_true in H2.
Qed.

(** The three fields are those of the time in hundredths of a second. *)
Lemma formatTimeOf_fields time :
  0 ≤ time →
  formatTimeOf time =
    JSNumber.pad2 (time / 10 / 6000) +:+ ":" +:+
    JSNumber.pad2 ((time / 10 / 100) `mod` 60) +:+ "." +:+
    JSNumber.pad2 ((time / 10) `mod` 100).
Proof.
  intros Htime. unfold formatTimeOf.
  assert (time / 1000 / 60 = time / 10 / 6000) as -> by (rewrite !Z.div_div by lia; done).
  assert ((time / 1000) `rem` 60 = (time / 10 / 100) `mod` 60) as ->.
  { rewrite Z.rem_mod_nonneg by (try apply Z.div_pos; lia).
    by rewrite Z.div_div by lia. }
  assert ((time `rem` 1000) / 10 = (time / 10) `mod` 100) as ->; [|done].
  rewrite Z.rem_mod_nonneg by lia.
  change 1000 with (10 * 100). rewrite Z.rem_mul_r by lia.
  rewrite (Z.mul_comm 10), Z.div_add by lia.
  rewrite (Z.div_small (time `mod` 10)) by (apply Z.mod_pos_bound; lia). done.
Qed.

End FormatTime.

(** [formatTime] shows a time below 100 minutes as the eight characters
    [mm:ss.cc], and two such times are shown alike exactly when they agree
    in hundredths of a second: the milliseconds digit is cut off, not
    rounded. *)
Theorem formatTime_shows_hundredths (time : Z) :
  0 ≤ time < 6000000 →
  String.length (GameManager.formatTimeOf time) = 8%nat ∧
  (∀ time', 0 ≤ time' < 6000000 →
     (GameManager.formatTimeOf time = GameManager.formatTimeOf time' ↔
      time / 10 = time' / 10)) ∧
  (∀ now m, GameManager.formatTime now (Some time) m = GameManager.formatTimeOf time).
Proof.
  intros Htime.
  assert (Hfields : ∀ t, 0 ≤ t < 6000000 →
            0 ≤ t / 10 / 6000 < 100 ∧ 0 ≤ (t / 10 / 100) `mod` 60 < 100 ∧
            0 ≤ (t / 10) `mod` 100 < 100).
  { intros t Ht. Z.to_euclidean_division_equations. lia. }
  destruct (Hfields time Htime) as (Hm & Hs & Hc).
  split; [|split; [|done]].
  - rewrite formatTimeOf_fields by lia. rewrite !append_length.
    rewrite (pad2_length _ Hm), (pad2_length _ Hs), (pad2_length _ Hc). done.
  - intros time' Htime'. destruct (Hfields time' Htime') as (Hm' & Hs' & Hc').
    rewrite !formatTimeOf_fields by lia. split.
    + intros Heq.
      apply append_inj_length in Heq as [Hmm Heq];
        [|by rewrite (pad2_length _ Hm), (pad2_length _ Hm')].
      apply (append_inj_length ":" ":") in Heq as [_ Heq]; [|done].
      apply append_inj_length in Heq as [Hss Heq];
        [|by rewrite (pad2_length _ Hs), (pad2_length _ Hs')].
      apply (append_inj_length "." ".") in Heq as [_ Hcc]; [|done].
      apply pad2_inj in Hmm, Hss, Hcc; [|done..].
      Z.to_euclidean_division_equations. lia.
    + by intros ->.
Qed.

Lemma formatTime_shows_hundredths_witness :
  0 ≤ 61259 < 6000000 ∧
  GameManager.formatTimeOf 61259 = "01:01.25" ∧
  GameManager.formatTimeOf 61259 = GameManager.formatTimeOf 61250.
Proof.
  assert (H : 0 ≤ 61259 < 6000000) by lia.
  destruct (formatTime_shows_hundredths 61259 H) as (_ & Hsame & _).
  split; [exact H|]. split; [reflexivity|].
  apply (Hsame 61250); [lia|reflexivity].
Defined.

(** * Moves *)
Section Moves.

Import GameManager.

Lemma makeMove_done_result now r c v m :
  gameState m = ready ∨ gameState m = playing →
  (GridSystem.setCell (gridSystem m) r c v).2 = true →
  let m0 := if bool_decide (gameState m = ready) then (startGame now m).1 else m in
  let m1 :=
    recordMove now r c (value (GridSystem.cell (gridSystem m) r c)) v
      (with_gridSystem (GridSystem.setCell (gridSystem m) r c v).1 m0) in
  let m2 := if isGameCompleted m1 then (completeGame now m1).1 else m1 in
  makeMove now r c v m =
    (m2, MoveDone (gameState m2) (RuleValidator.isValid (gridSystem m2))
                  (RuleValidator.getErrorCells (gridSystem m2))
                  (RuleValidator.validateAll (gridSystem m2))).
Proof.
  intros Hst Hok. simpl. unfold makeMove.
  assert (negb (bool_decide (gameState m = playing)) &&
          negb (bool_decide (gameState m = ready)) = false) as ->.
  { destruct Hst as [-> | ->]; done. }
  set (m0 := if bool_decide (gameState m = ready) then (startGame now m).1 else m).
  assert (gridSystem m0 = gridSystem m) as Hg.
  { unfold m0. destruct (bool_decide _); [apply startGame_grid|done]. }
  rewrite Hg.
  assert (GridSystem.getCell (gridSystem m) r c =
            Some (GridSystem.cell (gridSystem m) r c)) as ->.
  { unfold GridSystem.getCell. unfold GridSystem.setCell in Hok.
    destruct (GridSystem.isValidPosition _ _ _); done. }
  destruct (GridSystem.setCell (gridSystem m) r c v) as [g' ok] eqn:Hset.
  simpl in Hok. subst ok. simpl. done.
Qed.

Lemma setCell_true g r c v :
  (GridSystem.setCell g r c v).2 = true ↔
    (0 ≤ r < GridSystem.size g ∧ 0 ≤ c < GridSystem.size g) ∧
    immutable (GridSystem.cell g r c) = false.
Proof.
  unfold GridSystem.setCell.
  destruct (GridSystem.isValidPosition g r c) eqn:Hv; simpl.
  - apply isValidPosition_true in Hv.
    destruct (immutable (GridSystem.cell g r c)); simpl.
    + split; [done|]. by intros [_ ?].
    + split; [|done]. intros _. by split.
  - split; [done|]. intros [Hb _]. apply isValidPosition_true in Hb. congruence.
Qed.

End Moves.

(** [makeMove] in an active game accepts a move exactly when the cell is
    in the grid and not immutable, whether or not the move breaks a rule.
    An accepted move writes that one cell, records the value it replaced
    after the moves up to the cursor, and reports the state, the validity
    and the errors of the grid after the write.  A refused move answers
    ["Invalid move"] and leaves the grid and the history alone. *)
Theorem makeMove_accepts_exactly_the_writable_cells
    (now r c : Z) (v : Value) (m : GameManager.t) :
  GridSystem.wf (GameManager.gridSystem m) →
  GameManager.gameState m = GameManager.ready ∨
  GameManager.gameState m = GameManager.playing →
  let g := GameManager.gridSystem m in
  let res := GameManager.makeMove now r c v m in
  let g' := GameManager.gridSystem res.1 in
  ((0 ≤ r < GridSystem.size g ∧ 0 ≤ c < GridSystem.size g) ∧
   immutable (GridSystem.cell g r c) = false →
     res.2 = GameManager.MoveDone (GameManager.gameState res.1)
               (RuleValidator.isValid g') (RuleValidator.getErrorCells g')
               (RuleValidator.validateAll g') ∧
     GridSystem.cell g' r c = mkCell v false ∧
     (∀ r' c', (r', c') ≠ (r, c) → GridSystem.cell g' r' c' = GridSystem.cell g r' c') ∧
     GridSystem.constraints g' = GridSystem.constraints g ∧
     (-1 ≤ GameManager.currentMoveIndex m →
        GameManager.moveHistory res.1 =
          take (Z.to_nat (GameManager.currentMoveIndex m + 1)) (GameManager.moveHistory m)
            ++ [GameManager.mkMove r c (value (GridSystem.cell g r c)) v now]) ∧
     GameManager.currentMoveIndex res.1 = GameManager.currentMoveIndex m + 1) ∧
  (¬ ((0 ≤ r < GridSystem.size g ∧ 0 ≤ c < GridSystem.size g) ∧
      immutable (GridSystem.cell g r c) = false) →
     res.2 = GameManager.MoveRefused "Invalid move" ∧
     g' = g ∧
     GameManager.moveHistory res.1 = GameManager.moveHistory m ∧
     GameManager.currentMoveIndex res.1 = GameManager.currentMoveIndex m).
Proof.
  intros Hwf Hst g res g'. subst res g'.
  set (m0 := if bool_decide (GameManager.gameState m = GameManager.ready)
             then (GameManager.startGame now m).1 else m).
  assert (GameManager.gridSystem m0 = g ∧
          GameManager.moveHistory m0 = GameManager.moveHistory m ∧
          GameManager.currentMoveIndex m0 = GameManager.currentMoveIndex m)
    as (Hg & Hh & Hi).
  { unfold m0. destruct (bool_decide _); [|done].
    destruct (startGame_history now m) as (-> & -> & _). by rewrite startGame_grid. }
  split.
  - intros Hok. pose proof Hok as [[Hr Hc] Hmut]. apply (setCell_true g r c v) in Hok.
    set (m1 := GameManager.recordMove now r c (value (GridSystem.cell g r c)) v
                 (GameManager.with_gridSystem (GridSystem.setCell g r c v).1 m0)).
    set (m2 := if GameManager.isGameCompleted m1
               then (GameManager.completeGame now m1).1 else m1).
    assert (Hres : GameManager.makeMove now r c v m =
              (m2, GameManager.MoveDone (GameManager.gameState m2)
                     (RuleValidator.isValid (GameManager.gridSystem m2))
                     (RuleValidator.getErrorCells (GameManager.gridSystem m2))
                     (RuleValidator.validateAll (GameManager.gridSystem m2))))
      by apply (makeMove_done_result now r c v m Hst Hok).
    rewrite Hres. cbn [fst snd].
    assert (GameManager.gridSystem m2 = (GridSystem.setCell g r c v).1 ∧
            GameManager.moveHistory m2 = GameManager.moveHistory m1 ∧
            GameManager.currentMoveIndex m2 = GameManager.currentMoveIndex m1)
      as (Hg2 & Hh2 & Hi2).
    { unfold m2. destruct (GameManager.isGameCompleted m1); [|done].
      destruct (completeGame_history now m1) as (-> & -> & _).
      by destruct (completeGame_state now m1) as (_ & _ & ->). }
    split; [done|]. rewrite Hg2, Hh2, Hi2.
    rewrite (setCell_written _ _ _ _ Hok).
    split; [|split; [|split; [done|split]]].
    + unfold GridSystem.cell. cbn [GridSystem.grid].
      rewrite at_update_eq by (by eapply wf_grid_lookup).
      unfold GridSystem.setValue. unfold GridSystem.cell in Hmut. by rewrite Hmut.
    + intros r' c' Hne. unfold GridSystem.cell. cbn [GridSystem.grid].
      by apply at_update_ne.
    + intros Hcur. unfold m1. rewrite recordMove_history by (simpl; lia).
      simpl. by rewrite Hh, Hi.
    + unfold m1. simpl. by rewrite Hi.
  - intros Hno.
    assert (Hfail : (GridSystem.setCell g r c v).2 = false).
    { destruct ((GridSystem.setCell g r c v).2) eqn:Hok; [|done].
      by apply setCell_true in Hok. }
    rewrite (makeMove_refused now r c v m Hst Hfail). fold m0. simpl. done.
Qed.

Lemma makeMove_accepts_exactly_the_writable_cells_witness :
  ∃ m, sessionA = Some m ∧
       GridSystem.wf (GameManager.gridSystem m) ∧
       immutable (GridSystem.cell (GameManager.gridSystem m) 1 1) = true ∧
       (GameManager.makeMove 10 1 1 Orange m).2 = GameManager.MoveRefused "Invalid move" ∧
       GridSystem.cell (GameManager.gridSystem (GameManager.makeMove 10 0 0 Orange m).1) 0 0
         = mkCell Orange false.
Proof.
  eexists. split; [vm_compute; reflexivity|].
  match goal with |- GridSystem.wf (GameManager.gridSystem ?m) ∧ _ =>
    assert (GridSystem.wf (GameManager.gridSystem m)) as Hwf
      by (split; [reflexivity|repeat constructor]);
    destruct (makeMove_accepts_exactly_the_writable_cells 10 1 1 Orange m Hwf
                (or_introl eq_refl)) as [_ Hrefused];
    destruct (makeMove_accepts_exactly_the_writable_cells 10 0 0 Orange m Hwf
                (or_introl eq_refl)) as [Hdone _]
  end.
  split; [exact Hwf|]. split; [reflexivity|]. split.
  - apply Hrefused. intros [_ Hmut]. vm_compute in Hmut. discriminate.
  - apply Hdone. split; [simpl; lia|reflexivity].
Defined.

(** * The ends of the history *)
Section HistoryEnds.

Import GameManager.

Lemma undo_succeeded m : sessionInv m → (succeeded (undo m) ↔ 0 ≤ currentMoveIndex m).
Proof.
  intros Hinv. split.
  - intros (m' & mv & u & r & Hundo). unfold undo in Hundo.
    destruct (bool_decide (0 ≤ currentMoveIndex m)) eqn:Hi; [|done].
    by apply bool_decide_eq_true in Hi.
  - intros Hi. destruct (undo_done m Hinv Hi) as (mv & _ & _ & _ & Hundo & _).
    cbv zeta in Hundo. rewrite Hundo. by eexists _, _, _, _.
Qed.

Lemma redo_succeeded m :
  sessionInv m →
  (succeeded (redo m) ↔ currentMoveIndex m < Z.of_nat (length (moveHistory m)) - 1).
Proof.
  intros Hinv. split.
  - intros (m' & mv & u & r & Hredo). unfold redo in Hredo.
    destruct (bool_decide (currentMoveIndex m < _)) eqn:Hi; [|done].
    by apply bool_decide_eq_true in Hi.
  - intros Hi. destruct (redo_done m Hinv Hi) as (mv & _ & _ & Hredo & _).
    cbv zeta in Hredo. rewrite Hredo. by eexists _, _, _, _.
Qed.

(** The flags returned with a move tell what the next call will answer. *)
Lemma flags_accurate m :
  sessionInv m →
  (canUndoNow m = true ↔ succeeded (undo m)) ∧
  (canRedoNow m = true ↔ succeeded (redo m)).
Proof.
  intros Hinv. rewrite undo_succeeded, redo_succeeded by done.
  unfold canUndoNow, canRedoNow. by rewrite !bool_decide_eq_true.
Qed.

(** [redo] followed by [undo] gives the session back. *)
Lemma redo_undo_id m :
  puzzleInv m → currentMoveIndex m < Z.of_nat (length (moveHistory m)) - 1 →
  ∃ m' mv,
    redo m = Some (m', HistoryDone mv (canUndoNow m') (canRedoNow m')) ∧
    puzzleInv m' ∧
    undo m' = Some (m, HistoryDone mv (canUndoNow m) (canRedoNow m)).
Proof.
  intros Hinv Hi. pose proof (puzzleInv_sessionInv m Hinv) as Hsess.
  destruct (redo_done m Hsess Hi) as (mv & Hmv & Hok & Hredo & _ & Hsess').
  cbv zeta in Hredo, Hsess'.
  set (m' := with_gridSystem _ (with_currentMoveIndex _ m)) in *.
  assert (Hrun : run OpRedo m = Some m') by (simpl; by rewrite Hredo).
  pose proof (puzzleInv_run _ _ _ Hinv Hrun) as Hinv'.
  exists m', mv. split; [done|]. split; [done|].
  assert (Hi' : 0 ≤ currentMoveIndex m').
  { apply moveAt_lookup in Hmv as [? _]. simpl. lia. }
  destruct (undo_done m' Hsess' Hi') as (mv' & Hmv' & _ & Hok' & Hundo & _).
  cbv zeta in Hundo.
  assert (mv' = mv) as ->.
  { unfold moveAt in Hmv, Hmv'. simpl in Hmv'. congruence. }
  rewrite Hundo.
  destruct Hinv as (_ & ps & Hps & _ & _ & Hplayed).
  pose proof (playedFrom_redo _ _ _ Hplayed Hmv Hok) as Hplayed'. fold m' in Hplayed'.
  pose proof (playedFrom_undo _ _ _ Hplayed' Hmv' Hok') as Hplayed''.
  set (m'' := with_currentMoveIndex _ (with_gridSystem _ m')) in *.
  assert (Heq : m'' = m); [|by rewrite Heq].
  assert (Hgs : gridSystem m'' = gridSystem m).
  { apply store_ext.
    - simpl. by rewrite !setCell_size.
    - destruct Hplayed'' as (_ & _ & _ & ->). destruct Hplayed as (_ & _ & _ & ->).
      simpl. by replace (currentMoveIndex m + 1 - 1 + 1) with (currentMoveIndex m + 1)
        by lia.
    - simpl. by rewrite !setCell_constraints. }
  subst m'' m'. destruct m as [g st d sd sv tm h i snapshot]. simpl in *.
  rewrite Hgs. unfold with_currentMoveIndex, with_gridSystem. simpl. f_equal. lia.
Qed.

End HistoryEnds.

(** The ends of the history of a reachable session.  [undo] succeeds
    exactly when the cursor is on a move and [redo] exactly when a move
    follows the cursor; a refused call leaves the session as it is.
    [redo] followed by [undo] gives the session back.  The flags
    [canUndo] and [canRedo] returned with a move tell whether the next
    [undo] and the next [redo] will succeed. *)
Theorem redo_then_undo_restores_the_session (m : GameManager.t) :
  reachable m →
  (succeeded (GameManager.undo m) ↔ 0 ≤ GameManager.currentMoveIndex m) ∧
  (succeeded (GameManager.redo m) ↔
     GameManager.currentMoveIndex m < Z.of_nat (length (GameManager.moveHistory m)) - 1) ∧
  (¬ succeeded (GameManager.undo m) →
     GameManager.undo m = Some (m, GameManager.HistoryRefused "No moves to undo")) ∧
  (¬ succeeded (GameManager.redo m) →
     GameManager.redo m = Some (m, GameManager.HistoryRefused "No moves to redo")) ∧
  (succeeded (GameManager.redo m) →
     ∃ m' mv,
       GameManager.redo m =
         Some (m', GameManager.HistoryDone mv (GameManager.canUndoNow m')
                                              (GameManager.canRedoNow m')) ∧
       GameManager.undo m' =
         Some (m, GameManager.HistoryDone mv (GameManager.canUndoNow m)
                                             (GameManager.canRedoNow m))) ∧
  (∀ m' mv canUndo canRedo,
     GameManager.undo m = Some (m', GameManager.HistoryDone mv canUndo canRedo) ∨
     GameManager.redo m = Some (m', GameManager.HistoryDone mv canUndo canRedo) →
     (canUndo = true ↔ succeeded (GameManager.undo m')) ∧
     (canRedo = true ↔ succeeded (GameManager.redo m'))).
Proof.
  intros Hinv%reachable_puzzleInv. pose proof (puzzleInv_sessionInv m Hinv) as Hsess.
  split; [by apply undo_succeeded|]. split; [by apply redo_succeeded|].
  split; [|split; [|split]].
  - rewrite undo_succeeded by done. intros Hi. unfold GameManager.undo.
    by rewrite bool_decide_eq_false_2.
  - rewrite redo_succeeded by done. intros Hi. unfold GameManager.redo.
    by rewrite bool_decide_eq_false_2.
  - rewrite redo_succeeded by done. intros Hi.
    destruct (redo_undo_id m Hinv Hi) as (m' & mv & Hredo & _ & Hundo).
    by exists m', mv.
  - intros m' mv u r [Hundo|Hredo].
    + assert (Hi : 0 ≤ GameManager.currentMoveIndex m).
      { apply undo_succeeded; [done|]. by exists m', mv, u, r. }
      destruct (undo_done m Hsess Hi) as (mv0 & _ & _ & _ & Hundo0 & _ & Hsess').
      cbv zeta in Hundo0, Hsess'. rewrite Hundo0 in Hundo.
      injection Hundo as <- _ <- <-. by apply flags_accurate.
    + assert (Hi : GameManager.currentMoveIndex m <
                   Z.of_nat (length (GameManager.moveHistory m)) - 1).
      { apply redo_succeeded; [done|]. by exists m', mv, u, r. }
      destruct (redo_done m Hsess Hi) as (mv0 & _ & _ & Hredo0 & _ & Hsess').
      cbv zeta in Hredo0, Hsess'. rewrite Hredo0 in Hredo.
      injection Hredo as <- _ <- <-. by apply flags_accurate.
Qed.

Lemma redo_then_undo_restores_the_session_witness :
  ∃ m, sessionA ≫= runAll [OpMove 10 0 0 Orange; OpMove 20 0 1 Moon; OpUndo] = Some m ∧
       reachable m ∧
       ∃ m', fst <$> GameManager.redo m = Some m' ∧ fst <$> GameManager.undo m' = Some m.
Proof.
  eexists. split; [vm_compute; reflexivity|].
  match goal with |- reachable ?m ∧ _ =>
    assert (reachable m) as Hreach
      by (apply (reachable_scenario 2 "easy" (codeUnits "A")
                   [OpMove 10 0 0 Orange; OpMove 20 0 1 Moon; OpUndo]);
          vm_compute; reflexivity);
    destruct (redo_then_undo_restores_the_session m Hreach)
      as (_ & Hiff & _ & _ & Hround & _);
    destruct (Hround (proj2 Hiff ltac:(simpl; lia))) as (m' & mv & Hredo & Hundo)
  end.
  split; [exact Hreach|]. exists m'. rewrite Hredo, Hundo. split; reflexivity.
Defined.

(** * A new game *)
Section NewGameFacts.

Import GameManager.

(** Generation with a seed that is not empty overwrites the generator
    state and the snapshot: two sessions that agree on the other fields
    get the same result. *)
Lemma initializePuzzle_same m1 m2 :
  seed m1 ≠ [] →
  gridSystem m1 = gridSystem m2 → gameState m1 = gameState m2 →
  difficulty m1 = difficulty m2 → seed m1 = seed m2 → timer m1 = timer m2 →
  moveHistory m1 = moveHistory m2 → currentMoveIndex m1 = currentMoveIndex m2 →
  initializePuzzle m1 = initializePuzzle m2.
Proof.
  intros Hne Hg Hst Hd Hs Ht Hh Hi.
  pose proof (initializePuzzle_reads m1 m2 Hs Hd Hg) as Hreads.
  pose proof (frame_initializePuzzle
                (λ x, gameState x = gameState m1 ∧ difficulty x = difficulty m1 ∧
                      seed x = seed m1 ∧ timer x = timer m1 ∧
                      moveHistory x = moveHistory m1 ∧
                      currentMoveIndex x = currentMoveIndex m1)) as Hframe.
  destruct (initializePuzzle m1) as [[[] m1']|] eqn:H1,
           (initializePuzzle m2) as [[[] m2']|] eqn:H2; try done.
  destruct Hreads as (Hg' & Hps' & Hsv'). specialize (Hsv' Hne).
  destruct (Hframe ltac:(done) ltac:(done) ltac:(done) m1 tt m1')
    as (Hst1 & Hd1 & Hs1 & Ht1 & Hh1 & Hi1); [done..|].
  destruct (Hframe ltac:(done) ltac:(done) ltac:(done) m2 tt m2')
    as (Hst2 & Hd2 & Hs2 & Ht2 & Hh2 & Hi2); [by rewrite Hst, Hd, Hs, Ht, Hh, Hi|done|].
  destruct m1', m2'. simpl in *. congruence.
Qed.

End NewGameFacts.

(** [newGame] builds the session of the constructor: whatever the session
    was before, with a seed that is not empty the result is exactly what
    [new GameManager] gives for the size, the difficulty and the seed that
    [newGame] settles on ([null], [0] and the empty string keep the
    current size and difficulty; a custom seed that is not blank is
    trimmed and put in upper case, otherwise a seed is generated).  In
    particular the same seed gives the same puzzle again, and the session
    is reachable. *)
Theorem newGame_builds_the_session_of_the_constructor
    (trim toUpperCase : list Z → list Z) (generatedSeed : list Z)
    (size : option Z) (difficulty : option string) (customSeed : option (list Z))
    (m : GameManager.t) :
  GameManager.chosenSeed trim toUpperCase generatedSeed customSeed ≠ [] →
  snd <$> GameManager.newGame trim toUpperCase generatedSeed size difficulty customSeed m =
    GameManager.constructor
      (GameManager.sizeOr size (GridSystem.size (GameManager.gridSystem m)))
      (GameManager.difficultyOr difficulty (GameManager.difficulty m))
      (GameManager.chosenSeed trim toUpperCase generatedSeed customSeed) ∧
  (∀ m', GameManager.newGame trim toUpperCase generatedSeed size difficulty customSeed m
           = Some (tt, m') →
         reachable m' ∧
         GameManager.gameState m' = GameManager.ready ∧
         GameManager.timer m' = GameManager.resetTimerValue ∧
         GameManager.moveHistory m' = []).
Proof.
  intros Hne. unfold GameManager.newGame, GameManager.constructor. split.
  - f_equal. by apply initializePuzzle_same.
  - intros m' Hrun. split.
    + by refine (reachable_new _ _ m' _ _ _ Hrun).
    + apply (frame_initializePuzzle
               (λ x, GameManager.gameState x = GameManager.ready ∧
                     GameManager.timer x = GameManager.resetTimerValue ∧
                     GameManager.moveHistory x = [])) in Hrun; done.
Qed.

Lemma newGame_builds_the_session_of_the_constructor_witness :
  ∃ m, scenarioABCD = Some m ∧
       snd <$> GameManager.newGame (λ s, s) (λ s, s) (codeUnits "ZZZ")
                 (Some 0) None (Some (codeUnits "A")) m = sessionA.
Proof.
  eexists. split; [vm_compute; reflexivity|].
  match goal with |- snd <$> GameManager.newGame _ _ _ _ _ _ ?m = _ =>
    destruct (newGame_builds_the_session_of_the_constructor (λ s, s) (λ s, s)
                (codeUnits "ZZZ") (Some 0) None (Some (codeUnits "A")) m) as [Hsame _];
      [vm_compute; discriminate|]
  end.
  etrans; [exact Hsame|]. vm_compute. reflexivity.
Defined.

(** * Saving and loading *)
Section SaveLoad.

Import GameManager.




End SaveLoad.



(** * Sample runs *)

Example formatTime_samples :
  GameManager.formatTimeOf 0 = "00:00.00" ∧ GameManager.formatTimeOf 61250 = "01:01.25".
Proof. split; reflexivity. Qed.

Example seedHash_TEST1234 : GameManager.seedHash (codeUnits "TEST1234") = -364270636.
Proof. reflexivity. Qed.

(** The 27 draws of the 4 x 4 medium puzzle: 15 for the shuffle, 4 for the
    values and 8 for the two constraints. *)
Example generator_state_TEST1234 :
  drawCount 4 "medium" = 27%nat ∧
  Nat.iter 27 GameManager.lcg 364270636 = 3360208989.
Proof. split; by vm_compute. Qed.

(** With the empty seed [seedRandom] returns a number: the first call of
    it, in the shuffle, throws as soon as the grid has two cells. *)
Example empty_seed_throws :
  GameManager.constructor 2 "medium" [] = None ∧
  is_Some (GameManager.constructor 1 "medium" []).
Proof. split; [by vm_compute|]. by vm_compute; eexists. Qed.

(** The only constraint drawn for [sessionA] is a vertical one on the last
    row: it is skipped. *)
Example sessionA_has_no_constraint :
  GameManager.constraintCount 2 = 1 ∧
  (GridSystem.constraints ∘ GameManager.gridSystem) <$> sessionA = Some [].
Proof. split; by vm_compute. Qed.
